(** * Clipify: segment selection, transcript windows, clock strings and the
      per-segment pipeline, embedded from the Python sources

    Sources embedded here:
    - [clipify/core/utils.py]            : [format_time],
      [convert_time_to_seconds], [download_youtube_video]
    - [clipify/core/content_analysis.py] : [split_transcript_by_timestamps],
      [_find_important_segments_basic], [find_important_segments]
    - [clipify/core/video_processing.py] : [convert_video_aspect_ratio],
      [extract_video_segments], [add_captions_to_video]
    - [clipify/core/audio_processing.py] : [extract_audio_from_video]
    - [main.py]                          : stages 2, 4, 5 and 6 of
      [main_workflow]

    Conventions of the embedding.
    - A finite float is the rational [Q] it stands for. The selector and
      the caption loop only compare timestamps and subtract one from
      another. Where the code divides, multiplies or formats a float
      ([format_time], the crop size of [convert_video_aspect_ratio]) the
      operations are those of [Float64], which round to the nearest
      binary64 number.
    - [int] is [Z], without bound; the interpreter's optional limit on the
      number of digits of an [int] read from or written to a [str] is not
      modelled. [str] is [string], one [ascii] per code point below 256.
    - A function that can raise returns a [result]; [Raise e] is the
      exception leaving the function.
    - External collaborators (spaCy, ffmpeg, moviepy, yt-dlp, the file
      system) are explicit arguments. *)

From Stdlib Require Import ZArith QArith Qround Qpower Qabs.
From Stdlib Require Import List String Ascii Bool Lia Lqa.
From Stdlib Require Import Sorted Permutation.
Import ListNotations.

(* ================================================================== *)
(** * Part I: the embedding                                            *)
(* ================================================================== *)

(** ** Exceptions *)

Inductive exn : Type :=
| ValueError
| TypeError
| NameError (name : string)
| OverflowError
| OSError.

Inductive result (A : Type) : Type :=
| Ok (a : A)
| Raise (e : exn).

Arguments Ok {A} a.
Arguments Raise {A} e.

Definition bind {A B : Type} (r : result A) (k : A -> result B) : result B :=
  match r with
  | Ok a => k a
  | Raise e => Raise e
  end.

Notation "x <- r ;; k" := (bind r (fun x => k))
  (at level 61, r at next level, right associativity).

(** [for x in xs: st = body(st, x)], stopping at the first exception. *)
Fixpoint for_each {S X : Type} (body : S -> X -> result S) (xs : list X)
    (st : S) : result S :=
  match xs with
  | [] => Ok st
  | x :: xs' => st' <- body st x ;; for_each body xs' st'
  end.

(** ** Python string primitives *)

Module PyStr.

Open Scope string_scope.

(** [str.isspace] on the code points below 256. *)
Definition is_space (c : ascii) : bool :=
  let n := nat_of_ascii c in
  ((9 <=? n) && (n <=? 13) || (28 <=? n) && (n <=? 32)
   || (n =? 133) || (n =? 160))%nat.

Fixpoint lstrip (s : string) : string :=
  match s with
  | EmptyString => EmptyString
  | String c s' => if is_space c then lstrip s' else s
  end.

Fixpoint rev_onto (s acc : string) : string :=
  match s with
  | EmptyString => acc
  | String c s' => rev_onto s' (String c acc)
  end.

Definition srev (s : string) : string := rev_onto s EmptyString.

Definition rstrip (s : string) : string := srev (lstrip (srev s)).

(** [s.strip()] *)
Definition strip (s : string) : string := lstrip (rstrip s).

(** Truthiness of a [str]. *)
Definition truthy (s : string) : bool :=
  match s with
  | EmptyString => false
  | String _ _ => true
  end.

(** [s.split(sep)] for a one-character separator: never the empty list. *)
Fixpoint split (sep : ascii) (s : string) : list string :=
  match s with
  | EmptyString => [EmptyString]
  | String c s' =>
      if Ascii.eqb c sep then EmptyString :: split sep s'
      else match split sep s' with
           | h :: t => String c h :: t
           | [] => [String c EmptyString]
           end
  end.

(** ["".join(parts)] *)
Definition join (parts : list string) : string :=
  fold_right String.append EmptyString parts.

Definition digit_char (d : Z) : ascii := ascii_of_nat (48 + Z.to_nat d).

Fixpoint digits_fuel (fuel : nat) (n : Z) (acc : string) : string :=
  match fuel with
  | O => acc
  | S fuel' =>
      let acc' := String (digit_char (n mod 10)%Z) acc in
      if (n <? 10)%Z then acc' else digits_fuel fuel' (n / 10)%Z acc'
  end.

(** Decimal digits of a non-negative integer; a number below [2^k] has at
    most [k] digits, so the fuel is never exhausted. *)
Definition digits (n : Z) : string :=
  digits_fuel (S (Z.to_nat (Z.log2 n))) n EmptyString.

(** [str(n)] and [f"{n}"] for an [int]. *)
Definition str_of_int (n : Z) : string :=
  if (n <? 0)%Z then String "-" (digits (- n)%Z) else digits n.

(** [f"{n:02d}"]: zero-padded to width two. *)
Definition format_02d (n : Z) : string :=
  let s := str_of_int n in
  if (String.length s <? 2)%nat then String "0" s else s.

Definition digit_val (c : ascii) : option Z :=
  let n := nat_of_ascii c in
  if ((48 <=? n) && (n <=? 57))%nat then Some (Z.of_nat (n - 48)) else None.

(** Digits of an [int] literal; a single underscore is allowed between two
    digits. [prev] tells whether the previous character was a digit. *)
Fixpoint int_digits (s : string) (acc : Z) (prev : bool) : option Z :=
  match s with
  | EmptyString => if prev then Some acc else None
  | String c s' =>
      match digit_val c with
      | Some d => int_digits s' (10 * acc + d)%Z true
      | None =>
          if Ascii.eqb c "_" && prev then int_digits s' acc false else None
      end
  end.

(** The blanks [int()] skips around a literal, on the code points below
    256: ASCII whitespace and the two Latin-1 spaces. Unlike [str.strip],
    it does not skip the separators 28 to 31. *)
Definition is_int_space (c : ascii) : bool :=
  let n := nat_of_ascii c in
  ((9 <=? n) && (n <=? 13) || (n =? 32) || (n =? 133) || (n =? 160))%nat.

Fixpoint int_lstrip (s : string) : string :=
  match s with
  | EmptyString => EmptyString
  | String c s' => if is_int_space c then int_lstrip s' else s
  end.

Definition int_strip (s : string) : string :=
  int_lstrip (srev (int_lstrip (srev s))).

(** [int(s)] in base ten: surrounding blanks, an optional sign, digits. *)
Definition py_int (s : string) : result Z :=
  let t := int_strip s in
  let parsed :=
    match t with
    | EmptyString => None
    | String c r =>
        if Ascii.eqb c "+" then int_digits r 0%Z false
        else if Ascii.eqb c "-" then option_map Z.opp (int_digits r 0%Z false)
        else int_digits t 0%Z false
    end in
  match parsed with
  | Some n => Ok n
  | None => Raise ValueError
  end.

(** Predicates used to state facts about these primitives. *)

Fixpoint all_digit (s : string) : bool :=
  match s with
  | EmptyString => true
  | String c s' =>
      match digit_val c with Some _ => all_digit s' | None => false end
  end.

Definition starts_clean (s : string) : bool :=
  match s with
  | EmptyString => true
  | String c _ => negb (is_space c)
  end.

Definition ends_clean (s : string) : bool := starts_clean (srev s).

End PyStr.

(** ** Python floats

    A finite [float] is the rational it stands for. An operation on floats
    returns the float nearest to the exact result, ties going to the even
    significand (IEEE 754 binary64, the C [double] of CPython). *)

Module Float64.

(** [2^e] for any integer exponent. *)
Definition pow2 (e : Z) : Q := (2 ^ e)%Q.

(** [floor(log2 q)] for [q > 0]: the difference of the bit lengths of the
    numerator and the denominator, or one less. *)
Definition ilog2 (q : Q) : Z :=
  let l := (Z.log2 (Qnum q) - Z.log2 (Zpos (Qden q)))%Z in
  if Qle_bool (pow2 l) q then l else (l - 1)%Z.

(** Nearest integer, ties to the even one. *)
Definition round_half_even (t : Q) : Z :=
  let f := Qfloor t in
  match (t - inject_Z f ?= 1 # 2)%Q with
  | Lt => f
  | Gt => (f + 1)%Z
  | Eq => if Z.even f then f else (f + 1)%Z
  end.

(** Exponent of the last bit of the floats around [q > 0]: 53 significant
    bits, and never below the exponent -1074 of the subnormal numbers. *)
Definition ulp_exponent (q : Q) : Z := Z.max (ilog2 q - 52) (-1074).

Definition round_pos (q : Q) : Q :=
  let e := ulp_exponent q in
  (inject_Z (round_half_even (q / pow2 e)) * pow2 e)%Q.

(** The binary64 number nearest to [q], ties to even, with no bound on the
    exponent from above. *)
Definition round64 (q : Q) : Q :=
  match (q ?= 0)%Q with
  | Eq => 0%Q
  | Gt => round_pos q
  | Lt => (- round_pos (- q))%Q
  end.

(** What a float operation whose exact result is [q] returns: [None] when
    the rounded result is beyond the largest float (the operation gives an
    infinity, or raises [OverflowError] where Python checks for it). *)
Definition fl (q : Q) : option Q :=
  let r := round64 q in
  if Qle_bool (pow2 1024) (Qabs r) then None else Some r.

(** The finite floats: at most 53 significant bits above the subnormal grid. *)
Definition representable (q : Q) : Prop :=
  exists m e, (Z.abs m < 2 ^ 53)%Z /\ (-1074 <= e)%Z
              /\ (q == inject_Z m * pow2 e)%Q.

(** [int(x)] of a float: towards zero. *)
Definition int_of_float (x : Q) : Z :=
  if Qle_bool 0 x then Qfloor x else Qceiling x.

(** [x < y] *)
Definition ltb (x y : Q) : bool := negb (Qle_bool y x).

(** C's [fmod(vx, wx)], [wx] not zero: the remainder with the sign of
    [vx]; it is exact. *)
Definition fmod (vx wx : Q) : Q :=
  (vx - wx * inject_Z (int_of_float (vx / wx)))%Q.

(** [(vx // wx, vx % wx)] for two floats, [wx] not zero, the way CPython's
    floatobject.c computes them: the quotient of [vx - mod] by [wx] is
    rounded twice and then snapped to a whole number. *)
Definition float_divmod (vx wx : Q) : Q * Q :=
  let mod_ := fmod vx wx in
  let div := round64 (round64 (vx - mod_) / wx) in
  let '(mod_, div) :=
    if negb (Qeq_bool mod_ 0) then
      if xorb (ltb wx 0) (ltb mod_ 0)
      then (round64 (mod_ + wx), round64 (div - 1))
      else (mod_, div)
    else (0%Q, div) in
  let floordiv :=
    if negb (Qeq_bool div 0) then
      let floordiv := inject_Z (Qfloor div) in
      if ltb (1 # 2) (round64 (div - floordiv))
      then round64 (floordiv + 1)
      else floordiv
    else 0%Q in
  (floordiv, mod_).

End Float64.

(** ** clipify/core/utils.py *)

Module Utils.

Import PyStr Float64.
Open Scope string_scope.

(** A number handed to [format_time]: an [int] or a finite [float]. *)
Inductive number : Type :=
| PyInt (n : Z)
| PyFloat (x : Q).

(** [a // b] and [a % b] for an [int] divisor [b] that is a float as it
    stands: integer arithmetic on an [int], float arithmetic on a
    [float]. *)
Definition floordiv (a : number) (b : Z) : number :=
  match a with
  | PyInt n => PyInt (n / b)
  | PyFloat x => PyFloat (fst (float_divmod x (inject_Z b)))
  end.

Definition pymod (a : number) (b : Z) : number :=
  match a with
  | PyInt n => PyInt (n mod b)
  | PyFloat x => PyFloat (snd (float_divmod x (inject_Z b)))
  end.

(** The value of a number, to state bounds on ints and floats alike. *)
Definition value (t : number) : Q :=
  match t with
  | PyInt n => inject_Z n
  | PyFloat x => x
  end.

(** [int(a)] *)
Definition to_int (a : number) : Z :=
  match a with
  | PyInt n => n
  | PyFloat x => int_of_float x
  end.

(** [format_time(seconds)]; [minutes] is an [int] by the time it is divided
    again. *)
Definition format_time (seconds : number) : string :=
  let minutes := to_int (floordiv seconds 60) in
  let seconds := to_int (pymod seconds 60) in
  let hours := (minutes / 60)%Z in
  let minutes := (minutes mod 60)%Z in
  if (0 <? hours)%Z then
    str_of_int hours ++ ":" ++ format_02d minutes ++ ":" ++ format_02d seconds
  else
    str_of_int minutes ++ ":" ++ format_02d seconds.

(** [convert_time_to_seconds(time_str)] *)
Definition convert_time_to_seconds (time_str : string) : result Z :=
  let parts := split ":" time_str in
  if (List.length parts =? 3)%nat then
    match parts with
    | [h; m; s] =>
        h <- py_int h ;; m <- py_int m ;; s <- py_int s ;;
        Ok (h * 3600 + m * 60 + s)%Z
    | _ => Raise ValueError
    end
  else if (List.length parts =? 2)%nat then
    match parts with
    | [m; s] =>
        m <- py_int m ;; s <- py_int s ;;
        Ok (m * 60 + s)%Z
    | _ => Raise ValueError
    end
  else Raise ValueError.

End Utils.

(** ** Python list primitives *)

Module PyList.

Section Sorting.
Variable A : Type.
(** [lt x y]: the key of [x] is [<] the key of [y]. *)
Variable lt : A -> A -> bool.

(** [x] goes in front of the first element whose key is not smaller. *)
Fixpoint insert (x : A) (l : list A) : list A :=
  match l with
  | [] => [x]
  | y :: l' => if lt y x then y :: insert x l' else x :: y :: l'
  end.

Definition sort_asc (l : list A) : list A := fold_right insert [] l.
End Sorting.

Arguments insert {A} lt x l.
Arguments sort_asc {A} lt l.

(** [l.sort(key=..., reverse=...)]. The sort is stable: items with equal
    keys keep their relative order, and [reverse=True] sorts as if every
    comparison were reversed, keeping that order too. *)
Definition list_sort {A : Type} (lt : A -> A -> bool) (reverse : bool)
    (l : list A) : list A :=
  if reverse then sort_asc (fun x y => lt y x) l else sort_asc lt l.

(** [l.append(x)] *)
Definition list_append {A : Type} (l : list A) (x : A) : list A :=
  (l ++ [x])%list.

(** [l[:n]]: a negative [n] counts from the end. *)
Definition slice_to {A : Type} (n : Z) (l : list A) : list A :=
  if (0 <=? n)%Z then firstn (Z.to_nat n) l
  else firstn (List.length l - Z.to_nat (- n)) l.

(** Orders induced by a key comparison [lt], used to state what the sort
    achieves. [le lt x y]: [x] may stand in front of [y]. *)
Definition le {A : Type} (lt : A -> A -> bool) (x y : A) : Prop :=
  lt y x = false.

(** Same key. *)
Definition same {A : Type} (lt : A -> A -> bool) (x y : A) : bool :=
  negb (lt x y) && negb (lt y x).

(** In order by the second key [lt2], and by the first key [lt1] among
    items with the same second key. *)
Definition lexle {A : Type} (lt1 lt2 : A -> A -> bool) (x y : A) : Prop :=
  le lt2 x y /\ (lt2 x y = false -> le lt1 x y).

End PyList.

(** ** clipify/core/content_analysis.py *)

Module ContentAnalysis.

Import PyStr PyList.
Open Scope string_scope.

Definition Qltb (x y : Q) : bool := negb (Qle_bool y x).

(** A word of a Whisper segment: [{'text', 'start', 'end'}]. *)
Record Word : Type := mkWord
  { word_text : string; word_start : Q; word_end : Q }.

(** A transcript segment as Whisper returns it: the keys ['text'],
    ['start'] and ['end'] are always present, so [seg.get(k, default)]
    reads the key; ['words'] may be absent. The dicts returned by the
    selector have no ['words']. *)
Record Segment : Type := mkSegment
  { text : string; start : Q; end_ : Q; words : option (list Word) }.

(** The transcription result: a dict whose keys may be absent. *)
Record Transcription : Type := mkTranscription
  { tr_text : option string; tr_segments : option (list Segment) }.

(** *** _find_important_segments_basic *)

Record ValidSegment : Type := mkValid
  { v_text : string; v_start : Q; v_end : Q;
    v_duration : Q; v_text_length : nat }.

Definition basic_keep (min_segment_duration : Q) (seg : Segment) : bool :=
  let duration := end_ seg - start seg in
  Qle_bool min_segment_duration duration && truthy (strip (text seg)).

Definition basic_valid (seg : Segment) : ValidSegment :=
  {| v_text := strip (text seg);
     v_start := start seg;
     v_end := end_ seg;
     v_duration := end_ seg - start seg;
     v_text_length := String.length (strip (text seg)) |}.

Definition basic_out (s : ValidSegment) : Segment :=
  {| text := v_text s; start := v_start s; end_ := v_end s; words := None |}.

Definition _find_important_segments_basic (transcription_segments : list Segment)
    (num_segments : Z) (min_segment_duration : Q) : list Segment :=
  match transcription_segments with
  | [] => []
  | _ =>
      let valid_segments :=
        map basic_valid
          (filter (basic_keep min_segment_duration) transcription_segments) in
      let valid_segments :=
        list_sort (fun x y => (v_text_length x <? v_text_length y)%nat) true
          valid_segments in
      let selected_segments := slice_to num_segments valid_segments in
      let selected_segments :=
        list_sort (fun x y => Qltb (v_start x) (v_start y)) false
          selected_segments in
      map basic_out selected_segments
  end.

(** *** find_important_segments *)

(** The loaded spaCy pipeline, seen through what the code reads from it:
    the [pos_] tag of every token of the document. *)
Definition Nlp : Type := string -> list string.

(** What [spacy.load('en_core_web_sm')] does. *)
Inductive SpacyLoad : Type :=
| Loaded (nlp : Nlp)
| LoadOSError
| LoadOtherError.

Record ScoredSegment : Type := mkScored
  { s_text : string; s_start : Q; s_end : Q;
    s_original_score : nat; s_duration : Q }.

Definition pos_counts (pos : string) : bool :=
  existsb (String.eqb pos) ["NOUN"; "PROPN"; "VERB"].

Definition spacy_score (nlp : Nlp) (txt : string) : nat :=
  List.length (filter pos_counts (nlp txt)).

(** [text and start_time is not None and end_time is not None]: both
    timestamps are present in a [Segment], which leaves the text. *)
Definition spacy_keep (segment_data : Segment) : bool :=
  truthy (strip (text segment_data)).

Definition spacy_scored (nlp : Nlp) (segment_data : Segment) : ScoredSegment :=
  let txt := strip (text segment_data) in
  {| s_text := txt;
     s_start := start segment_data;
     s_end := end_ segment_data;
     s_original_score := spacy_score nlp txt;
     s_duration := end_ segment_data - start segment_data |}.

Definition spacy_out (s : ScoredSegment) : Segment :=
  {| text := s_text s; start := s_start s; end_ := s_end s; words := None |}.

Definition find_important_segments (load : SpacyLoad)
    (transcription_segments : list Segment)
    (num_segments : Z) (min_segment_duration : Q) : list Segment :=
  match load with
  | LoadOSError =>
      _find_important_segments_basic transcription_segments num_segments
        min_segment_duration
  | LoadOtherError =>
      _find_important_segments_basic transcription_segments num_segments
        min_segment_duration
  | Loaded nlp =>
      match transcription_segments with
      | [] => []
      | _ =>
          let scored_segments :=
            map (spacy_scored nlp) (filter spacy_keep transcription_segments) in
          let candidate_segments :=
            filter (fun seg => Qle_bool min_segment_duration (s_duration seg))
              scored_segments in
          match candidate_segments with
          | [] => []
          | _ =>
              let candidate_segments :=
                list_sort
                  (fun x y => (s_original_score x <? s_original_score y)%nat)
                  true candidate_segments in
              let top_segments := slice_to num_segments candidate_segments in
              let top_segments :=
                list_sort (fun x y => Qltb (s_start x) (s_start y)) false
                  top_segments in
              map spacy_out top_segments
          end
      end
  end.

(** *** split_transcript_by_timestamps *)

(** The names bound at module level in content_analysis.py: [import spacy]
    and the three [def]s. The line [from .utils import format_time] is
    commented out (line 4), so [format_time] is not among them. *)
Definition module_names : list string :=
  ["spacy"; "split_transcript_by_timestamps";
   "_find_important_segments_basic"; "find_important_segments"].

(** The call [format_time(arg)] evaluated in a module whose global names
    are [names]: the name is looked up first; when it is bound (to the
    function of utils.py) the call runs, and [None] as argument makes the
    floor division raise. The timestamps of a transcription are floats;
    the [int] 0 the windower starts from is formatted like the float 0.0. *)
Definition call_format_time (names : list string) (arg : option Q)
  : result string :=
  if existsb (String.eqb "format_time") names then
    match arg with
    | Some seconds => Ok (Utils.format_time (Utils.PyFloat seconds))
    | None => Raise TypeError
    end
  else Raise (NameError "format_time").

Record Window : Type := mkWindow
  { time : string; window_text : string }.

(** The four local variables the loops update. *)
Record WindowState : Type := mkState
  { segments_text_time : list Window;
    current_segment_texts : list string;
    current_segment_start_time : option Q;
    last_word_end_time : Q }.

(** [if current_segment_start_time is None: current_segment_start_time = t] *)
Definition start_or (st : WindowState) (t : Q) : Q :=
  match current_segment_start_time st with
  | None => t
  | Some c => c
  end.

(** Body of [for word_info in segment_info['words']]. *)
Definition word_step (names : list string) (interval : Q)
    (st : WindowState) (word_info : Word) : result WindowState :=
  let word_start_time := word_start word_info in
  let word_end_time := word_end word_info in
  let word_text := word_text word_info in
  let current_start := start_or st word_start_time in
  if Qltb (interval / 2) (word_start_time - last_word_end_time st)
       && negb (Qeq_bool (last_word_end_time st) 0)
     || Qltb interval (word_end_time - current_start)
  then
    closed <-
      match current_segment_texts st with
      | [] => Ok (segments_text_time st, [])
      | _ =>
          t1 <- call_format_time names (Some current_start) ;;
          t2 <- call_format_time names (Some (last_word_end_time st)) ;;
          Ok (list_append (segments_text_time st)
                   (mkWindow (t1 ++ " - " ++ t2)
                      (join (current_segment_texts st))),
                 [])
      end ;;
    Ok (mkState (fst closed) (list_append (snd closed) word_text)
          (Some word_start_time) word_end_time)
  else
    Ok (mkState (segments_text_time st)
          (list_append (current_segment_texts st) word_text)
          (Some current_start) word_end_time).

(** Body of [for segment_info in transcription_result['segments']]. *)
Definition segment_step (names : list string) (interval : Q)
    (st : WindowState) (segment_info : Segment) : result WindowState :=
  let segment_start_time := start segment_info in
  let segment_end_time := end_ segment_info in
  let segment_text := text segment_info in
  let current_start := start_or st segment_start_time in
  let st :=
    mkState (segments_text_time st) (current_segment_texts st)
      (Some current_start) (last_word_end_time st) in
  match words segment_info with
  | Some ws => for_each (word_step names interval) ws st
  | None =>
      if Qltb (interval / 2) (segment_start_time - last_word_end_time st)
           && negb (Qeq_bool (last_word_end_time st) 0)
         || Qltb interval (segment_end_time - current_start)
      then
        closed <-
          match current_segment_texts st with
          | [] => Ok (segments_text_time st, [])
          | _ =>
              t1 <- call_format_time names (Some current_start) ;;
              t2 <- call_format_time names
                      (Some (if Qltb current_start (last_word_end_time st)
                             then last_word_end_time st
                             else segment_start_time)) ;;
              Ok (list_append (segments_text_time st)
                       (mkWindow (t1 ++ " - " ++ t2)
                          (join (current_segment_texts st))),
                     [])
          end ;;
        Ok (mkState (fst closed) (list_append (snd closed) segment_text)
              (Some segment_start_time) segment_end_time)
      else
        Ok (mkState (segments_text_time st)
              (list_append (current_segment_texts st) segment_text)
              (Some current_start) segment_end_time)
  end.

(** The function body, run in a module whose global names are [names].
    [None] is a missing (or empty) result; a result without ['segments']
    has [tr_segments = None]. *)
Definition split_transcript_by_timestamps_in (names : list string)
    (transcription_result : option Transcription) (interval : Q)
  : result (list Window) :=
  match transcription_result with
  | None => Ok []
  | Some tr =>
      match tr_segments tr with
      | None => Ok []
      | Some segments =>
          st <- for_each (segment_step names interval) segments
                  (mkState [] [] None 0) ;;
          match current_segment_texts st with
          | [] => Ok (segments_text_time st)
          | _ =>
              t1 <- call_format_time names (current_segment_start_time st) ;;
              t2 <- call_format_time names (Some (last_word_end_time st)) ;;
              Ok (list_append (segments_text_time st)
                       (mkWindow (t1 ++ " - " ++ t2)
                          (join (current_segment_texts st))))
          end
      end
  end.

(** [split_transcript_by_timestamps(transcription_result, interval=60)] as
    content_analysis.py defines it. *)
Definition split_transcript_by_timestamps
    (transcription_result : option Transcription) (interval : Q)
  : result (list Window) :=
  split_transcript_by_timestamps_in module_names transcription_result interval.

(** The text fragments the loops append, in order: the words of a segment
    that has ['words'], its own text otherwise. *)
Definition fragments (segment_info : Segment) : list string :=
  match words segment_info with
  | Some ws => map word_text ws
  | None => [text segment_info]
  end.

(** Names for the statements about the windower: the exception raised
    when [format_time] is unbound, a non-empty buffer, the text seen so far
    and an open window. *)
Definition name_error {X : Type} : result X := Raise (NameError "format_time").

Definition buffered (st : WindowState) : Prop :=
  current_segment_texts st <> [].

(** All text emitted or buffered so far. *)
Definition text_so_far (st : WindowState) : string :=
  join (map window_text (segments_text_time st))
  ++ join (current_segment_texts st).

Definition opened (st : WindowState) : Prop :=
  current_segment_start_time st <> None.

End ContentAnalysis.

(** ** main.py: stages 5 and 6 of [main_workflow] *)

Module Main.

Import PyStr PyList ContentAnalysis.
Open Scope string_scope.

Definition path : Type := string.

(** A selected segment as the orchestrator carries it: the dict returned by
    the selector, to which stage 5 adds ['raw_clip_path'] and stage 6
    ['final_clip_path']. Every dict of the selected list is a fresh object,
    so no two entries alias. *)
Record ClipRecord : Type := mkClip
  { clip_segment : Segment;
    raw_clip_path : option path;
    final_clip_path : option path }.

(** How the call of [extract_video_segments] inside the [try] ends. *)
Inductive CutOutcome : Type :=
| CutReturned (success : bool)
| CutRaised.

(** How the call of [add_captions_to_video] in stage 6 ends: it returns,
    and [os.path.exists(captioned_output_path)] then gives [output_exists];
    or an exception leaves it. *)
Inductive CaptionOutcome : Type :=
| CaptionReturned (output_exists : bool)
| CaptionRaised (e : exn).

(** The command-line options read by the two stages, the file names they
    build, and the collaborators they call: ffmpeg ([extract_video_segments]),
    moviepy ([convert_video_aspect_ratio] and [add_captions_to_video]) and
    the file system. Stage 5 wraps its call in [try]. Stage 6 has no [try]:
    an exception that leaves [convert_video_aspect_ratio] or
    [add_captions_to_video] leaves the loop and [main_workflow] with it.
    The two stages are modelled from their loops on; the [os.makedirs] call
    in front of each loop is not part of it. *)
Record World : Type := mkWorld
  { skip_captioning : bool;
    output_aspect_ratio : string;
    (** [os.path.join(raw_clips_dir, segment_base_name)] for index [i] *)
    raw_clip_name : nat -> Segment -> path;
    (** [final_clips_dir/{base_name_no_ext}_formatted.mp4] *)
    formatted_name : path -> path;
    (** [final_clips_dir/{base_name_no_ext}_captioned.mp4] *)
    captioned_name : path -> path;
    extract_video_segments : Q -> Q -> path -> CutOutcome;
    (** [os.path.exists(raw_clip_input_path)] in stage 6 *)
    raw_clip_exists : path -> bool;
    convert_video_aspect_ratio : path -> path -> string -> result (option path);
    (** [add_captions_to_video(input, captions, captioned_output_path)] and
        the look at its output file *)
    add_captions_to_video : path -> list Segment -> path -> CaptionOutcome }.

(** *** Stage 5 *)

(** [for i, segment_info in enumerate(selected_segments)], from index [i]. *)
Fixpoint stage5_loop (W : World) (i : nat) (selected_segments : list Segment)
    (extracted_clips_info : list ClipRecord) : list ClipRecord :=
  match selected_segments with
  | [] => extracted_clips_info
  | segment_info :: rest =>
      let start_time_s := start segment_info in
      let end_time_s := end_ segment_info in
      let extracted_segment_output_path := raw_clip_name W i segment_info in
      let extracted_clips_info :=
        match extract_video_segments W start_time_s end_time_s
                extracted_segment_output_path with
        | CutReturned true =>
            list_append extracted_clips_info
              (mkClip segment_info (Some extracted_segment_output_path) None)
        | CutReturned false => extracted_clips_info
        | CutRaised => extracted_clips_info
        end in
      stage5_loop W (S i) rest extracted_clips_info
  end.

Definition stage5 (W : World) (selected_segments : list Segment)
  : list ClipRecord :=
  match selected_segments with
  | [] => []
  | _ => stage5_loop W 0 selected_segments []
  end.

(** *** Stage 6 *)

(** [max(0, x)] *)
Definition max0 (x : Q) : Q := if Qltb 0 x then x else 0.

(** [relevant_whisper_segments] *)
Definition relevant_whisper_segments (transcript : list Segment)
    (segment_data : ClipRecord) : list Segment :=
  filter (fun ws =>
            Qltb (start ws) (end_ (clip_segment segment_data))
            && Qltb (start (clip_segment segment_data)) (end_ ws))
    transcript.

(** [for ws in relevant_whisper_segments], appending to
    [adjusted_transcription_segments]. *)
Fixpoint adjust_loop (segment_data : ClipRecord) (relevant : list Segment)
    (adjusted_transcription_segments : list Segment) : list Segment :=
  match relevant with
  | [] => adjusted_transcription_segments
  | ws :: rest =>
      let txt := strip (text ws) in
      if negb (truthy txt) then
        adjust_loop segment_data rest adjusted_transcription_segments
      else
        let new_start :=
          max0 (start ws - start (clip_segment segment_data)) in
        let new_end := end_ ws - start (clip_segment segment_data) in
        if Qltb new_start new_end then
          adjust_loop segment_data rest
            (list_append adjusted_transcription_segments
               (mkSegment txt new_start new_end None))
        else adjust_loop segment_data rest adjusted_transcription_segments
  end.

(** The caption set handed to [add_captions_to_video]. *)
Definition adjusted_transcription_segments (transcript : list Segment)
    (segment_data : ClipRecord) : list Segment :=
  adjust_loop segment_data (relevant_whisper_segments transcript segment_data)
    [].

(** One iteration of [for i, segment_data in enumerate(selected_segments)]:
    [Ok None] is a [continue] before the record is appended, [Raise e] an
    exception that nothing in the loop catches. *)
Definition stage6_step (W : World) (transcript : list Segment)
    (segment_data : ClipRecord) : result (option ClipRecord) :=
  match raw_clip_path segment_data with
  | None => Ok None
  | Some raw_clip_input_path =>
      if negb (truthy raw_clip_input_path)
         || negb (raw_clip_exists W raw_clip_input_path)
      then Ok None
      else
        let formatted_aspect_path := formatted_name W raw_clip_input_path in
        converted_path <-
          convert_video_aspect_ratio W raw_clip_input_path
            formatted_aspect_path (output_aspect_ratio W) ;;
        match converted_path with
        | None => Ok None
        | Some converted_path =>
            if negb (truthy converted_path) then Ok None
            else
              current_processed_path <-
                (if negb (skip_captioning W) then
                   let captioned_output_path :=
                     captioned_name W raw_clip_input_path in
                   let adjusted :=
                     adjusted_transcription_segments transcript segment_data in
                   match adjusted with
                   | [] => Ok converted_path
                   | _ =>
                       match add_captions_to_video W converted_path adjusted
                               captioned_output_path with
                       | CaptionRaised e => Raise e
                       | CaptionReturned true => Ok captioned_output_path
                       | CaptionReturned false => Ok converted_path
                       end
                   end
                 else Ok converted_path) ;;
              Ok (Some (mkClip (clip_segment segment_data)
                          (raw_clip_path segment_data)
                          (Some current_processed_path)))
        end
  end.

Fixpoint stage6_loop (W : World) (transcript : list Segment)
    (selected_segments : list ClipRecord)
    (processed_clips_info : list ClipRecord) : result (list ClipRecord) :=
  match selected_segments with
  | [] => Ok processed_clips_info
  | segment_data :: rest =>
      done <- stage6_step W transcript segment_data ;;
      stage6_loop W transcript rest
        match done with
        | Some done => list_append processed_clips_info done
        | None => processed_clips_info
        end
  end.

Definition stage6 (W : World) (transcript : list Segment)
    (selected_segments : list ClipRecord) : result (list ClipRecord) :=
  match selected_segments with
  | [] => Ok []
  | _ => stage6_loop W transcript selected_segments []
  end.

(** The surviving records with their final artifact:
    [for s in selected_segments if 'final_clip_path' in s and
    s['final_clip_path']]. *)
Definition final_clips (processed : list ClipRecord) : list (Segment * path) :=
  flat_map (fun s =>
              match final_clip_path s with
              | Some p => if truthy p then [(clip_segment s, p)] else []
              | None => []
              end)
    processed.

(** [final_segment_paths] *)
Definition final_segment_paths (processed : list ClipRecord) : list path :=
  map snd (final_clips processed).

(** Stages 5 and 6 on the selected segments; [transcript] is
    [transcription_result.get('segments', [])]. *)
Definition per_segment_loop (W : World) (transcript : list Segment)
    (selected_segments : list Segment) : result (list ClipRecord) :=
  stage6 W transcript (stage5 W selected_segments).

(** An order-preserving selection of items of a list, each taken at most
    once. *)
Inductive subseq {A : Type} : list A -> list A -> Prop :=
| subseq_nil : subseq [] []
| subseq_skip (x : A) (l1 l2 : list A) : subseq l1 l2 -> subseq l1 (x :: l2)
| subseq_keep (x : A) (l1 l2 : list A) :
    subseq l1 l2 -> subseq (x :: l1) (x :: l2).

(** The caption set in the spec's words: the original segments that overlap
    the record's range, rebased to the record's start, without those whose
    rebased duration is not positive or whose trimmed text is empty. *)
Definition overlaps (segment_data : ClipRecord) (ws : Segment) : bool :=
  Qltb (start ws) (end_ (clip_segment segment_data))
  && Qltb (start (clip_segment segment_data)) (end_ ws).

Definition rebase (segment_data : ClipRecord) (ws : Segment) : Segment :=
  {| text := strip (text ws);
     start := max0 (start ws - start (clip_segment segment_data));
     end_ := end_ ws - start (clip_segment segment_data);
     words := None |}.

Definition caption_set_spec (transcript : list Segment)
    (segment_data : ClipRecord) : list Segment :=
  filter (fun c => truthy (text c) && Qltb (start c) (end_ c))
    (map (rebase segment_data) (filter (overlaps segment_data) transcript)).

(** The stage results of the record at index [i], named for the
    statements below. *)
Definition raw_of (W : World) (i : nat) (seg : Segment) : path :=
  raw_clip_name W i seg.

Definition cut_ok (W : World) (i : nat) (seg : Segment) : Prop :=
  extract_video_segments W (start seg) (end_ seg) (raw_of W i seg)
  = CutReturned true.

Definition raw_ok (W : World) (i : nat) (seg : Segment) : Prop :=
  truthy (raw_of W i seg) = true /\ raw_clip_exists W (raw_of W i seg) = true.

Definition convert_gives (W : World) (i : nat) (seg : Segment)
    (r : result (option path)) : Prop :=
  convert_video_aspect_ratio W (raw_of W i seg)
    (formatted_name W (raw_of W i seg)) (output_aspect_ratio W) = r.

Definition opt_list {X : Type} (o : option X) : list X :=
  match o with
  | Some x => [x]
  | None => []
  end.

(** What the cut of the record at index [i] adds to [extracted_clips_info]. *)
Definition cut_record (W : World) (i : nat) (seg : Segment) : list ClipRecord :=
  match extract_video_segments W (start seg) (end_ seg) (raw_of W i seg) with
  | CutReturned true => [mkClip seg (Some (raw_of W i seg)) None]
  | CutReturned false => []
  | CutRaised => []
  end.

(** What an iteration of stage 6 appends to [processed_clips_info]. *)
Definition kept (W : World) (transcript : list Segment) (r : ClipRecord)
  : list ClipRecord :=
  match stage6_step W transcript r with
  | Ok done => opt_list done
  | Raise _ => []
  end.

(** The list a run leaves when it comes to its end. *)
Definition delivered (run : result (list ClipRecord)) : list ClipRecord :=
  match run with
  | Ok processed => processed
  | Raise _ => []
  end.

(** No exception leaves the iteration of stage 6 on [r]. *)
Definition step_returns (W : World) (transcript : list Segment)
    (r : ClipRecord) : Prop :=
  exists done, stage6_step W transcript r = Ok done.

(** No exception leaves stage 6 on what the cut at index [i] passed on. *)
Definition record_returns (W : World) (transcript : list Segment) (i : nat)
    (seg : Segment) : Prop :=
  forall r, In r (cut_record W i seg) -> step_returns W transcript r.

(** The caption set of the record cut at index [i]. *)
Definition captions_of (W : World) (transcript : list Segment) (i : nat)
    (seg : Segment) : list Segment :=
  adjusted_transcription_segments transcript
    (mkClip seg (Some (raw_of W i seg)) None).

(** The final entry, if any, of the record at index [i] in a run that
    comes to its end: it depends on the stage results of that record
    alone. *)
Definition fate (W : World) (transcript : list Segment) (i : nat)
    (seg : Segment) : list (Segment * path) :=
  final_clips (flat_map (kept W transcript) (cut_record W i seg)).

Fixpoint fates (W : World) (transcript : list Segment) (i : nat)
    (selected : list Segment) : list (Segment * path) :=
  match selected with
  | [] => []
  | seg :: rest => (fate W transcript i seg ++ fates W transcript (S i) rest)%list
  end.

(** Captioning the record at index [i], when it comes to that, returns. *)
Definition captioning_returns (W : World) (transcript : list Segment)
    (i : nat) (seg : Segment) (c : path) : Prop :=
  skip_captioning W = true
  \/ captions_of W transcript i seg = []
  \/ exists output_exists,
       add_captions_to_video W c (captions_of W transcript i seg)
         (captioned_name W (raw_of W i seg))
       = CaptionReturned output_exists.

(** The record at index [i] passes the cut and the conversion, captioning
    returns, and its captioned file name is not empty. *)
Definition goes_through (W : World) (transcript : list Segment) (i : nat)
    (seg : Segment) : Prop :=
  cut_ok W i seg /\ raw_ok W i seg
  /\ exists c, convert_gives W i seg (Ok (Some c)) /\ truthy c = true
               /\ captioning_returns W transcript i seg c
               /\ truthy (captioned_name W (raw_of W i seg)) = true.

(** The record at index [i] is cut, and its conversion returns [None]. *)
Definition conversion_fails (W : World) (i : nat) (seg : Segment) : Prop :=
  cut_ok W i seg /\ raw_ok W i seg /\ convert_gives W i seg (Ok None).

End Main.

(** ** The selection policy shared by both paths

    Both [_find_important_segments_basic] and the spaCy path of
    [find_important_segments] keep some segments, build a scored record,
    rank by score, truncate, and put the rest in chronological order. A
    [Mode] names the five ingredients, so that both paths can be stated as
    one pipeline. *)

Module Policy.

Import PyStr PyList ContentAnalysis.

Record Mode (A : Type) : Type := mkMode
  { m_keep : Q -> Segment -> bool;
    m_make : Segment -> A;
    m_score : A -> nat;
    m_start : A -> Q;
    m_out : A -> Segment }.

Arguments m_keep {A} m.
Arguments m_make {A} m.
Arguments m_score {A} m.
Arguments m_start {A} m.
Arguments m_out {A} m.

Definition by_score {A : Type} (M : Mode A) (x y : A) : bool :=
  (m_score M x <? m_score M y)%nat.

(** The comparison that [list_sort (by_score M) true] inserts with. *)
Definition score_desc {A : Type} (M : Mode A) (x y : A) : bool :=
  by_score M y x.

Definition by_start {A : Type} (M : Mode A) (x y : A) : bool :=
  Qltb (m_start M x) (m_start M y).

Definition candidates {A : Type} (M : Mode A) (d : Q) (segs : list Segment)
  : list A :=
  map (m_make M) (filter (m_keep M d) segs).

Definition ranked {A : Type} (M : Mode A) (d : Q) (segs : list Segment)
  : list A :=
  list_sort (by_score M) true (candidates M d segs).

Definition top {A : Type} (M : Mode A) (n : Z) (d : Q) (segs : list Segment)
  : list A :=
  slice_to n (ranked M d segs).

Definition chronological {A : Type} (M : Mode A) (n : Z) (d : Q)
    (segs : list Segment) : list A :=
  list_sort (by_start M) false (top M n d segs).

Definition run {A : Type} (M : Mode A) (segs : list Segment) (n : Z) (d : Q)
  : list Segment :=
  map (m_out M) (chronological M n d segs).

Definition basic_mode : Mode ValidSegment :=
  {| m_keep := basic_keep;
     m_make := basic_valid;
     m_score := v_text_length;
     m_start := v_start;
     m_out := basic_out |}.

Definition spacy_mode (nlp : Nlp) : Mode ScoredSegment :=
  {| m_keep := fun d seg =>
       spacy_keep seg && Qle_bool d (end_ seg - start seg);
     m_make := spacy_scored nlp;
     m_score := s_original_score;
     m_start := s_start;
     m_out := spacy_out |}.

(** What the proofs need of a mode. *)
Record Lawful {A : Type} (M : Mode A) : Prop := mkLawful
  { law_duration :
      forall d seg, m_keep M d seg = true -> d <= end_ seg - start seg;
    law_start : forall a, start (m_out M a) = m_start M a;
    law_out_start : forall seg, start (m_out M (m_make M seg)) = start seg;
    law_out_end : forall seg, end_ (m_out M (m_make M seg)) = end_ seg;
    law_remake :
      forall seg, m_make M (m_out M (m_make M seg)) = m_make M seg;
    law_rekeep :
      forall d d' seg,
        m_keep M d seg = true -> d' <= end_ seg - start seg ->
        m_keep M d' (m_out M (m_make M seg)) = true }.

(** A scored record made from a segment that passed the filter. *)
Definition from_kept {A : Type} (M : Mode A) (d : Q) (c : A) : Prop :=
  exists seg, c = m_make M seg /\ m_keep M d seg = true.

(** Segments with equal scores stay in transcript order: in the ranking,
    in its truncation (which holds a prefix of them), and, for equal start
    times, in the final chronological order. *)
Definition ties_keep_order {A : Type} (M : Mode A) (n : Z) (d : Q)
    (segs : list Segment) : Prop :=
  (forall v,
      filter (fun c => Nat.eqb (m_score M c) v) (ranked M d segs)
      = map (m_make M)
          (filter (fun seg =>
                     m_keep M d seg && Nat.eqb (m_score M (m_make M seg)) v)
             segs))
  /\ (forall v, exists rest,
        map (m_make M)
          (filter (fun seg =>
                     m_keep M d seg && Nat.eqb (m_score M (m_make M seg)) v)
             segs)
        = (filter (fun c => Nat.eqb (m_score M c) v) (top M n d segs)
           ++ rest)%list)
  /\ (forall t,
        filter (fun c => Qeq_bool (m_start M c) t) (chronological M n d segs)
        = filter (fun c => Qeq_bool (m_start M c) t) (top M n d segs)).

End Policy.

(** ** Sample inputs *)

Module Samples.

Import ContentAnalysis.
Open Scope string_scope.

(** A one-segment transcription result without word timestamps. *)
Definition one_segment_result : Transcription :=
  mkTranscription (Some "hi") (Some [mkSegment "hi" 0 1 None]).

Definition clip_a : Segment := mkSegment "first clip" 0 10 None.
Definition clip_b : Segment := mkSegment "second clip" 20 30 None.
Definition clip_c : Segment := mkSegment "third clip" 40 50 None.

Definition sample_raw_name (i : nat) (seg : Segment) : string :=
  match i with
  | O => "raw_clips/segment_1.mp4"
  | S O => "raw_clips/segment_2.mp4"
  | _ => "raw_clips/segment_3.mp4"
  end.

Definition sample_formatted (raw : string) : string :=
  if String.eqb raw "raw_clips/segment_1.mp4" then "final_clips/segment_1_formatted.mp4"
  else if String.eqb raw "raw_clips/segment_2.mp4" then "final_clips/segment_2_formatted.mp4"
  else "final_clips/segment_3_formatted.mp4".

Definition sample_captioned (raw : string) : string :=
  if String.eqb raw "raw_clips/segment_1.mp4" then "final_clips/segment_1_captioned.mp4"
  else if String.eqb raw "raw_clips/segment_2.mp4" then "final_clips/segment_2_captioned.mp4"
  else "final_clips/segment_3_captioned.mp4".

(** Every cut succeeds; the aspect-ratio conversion fails for the second
    raw clip only; captioning always leaves its output file. *)
Definition middle_conversion_fails : Main.World :=
  Main.mkWorld false "9:16" sample_raw_name sample_formatted sample_captioned
    (fun _ _ _ => Main.CutReturned true)
    (fun _ => true)
    (fun raw out _ =>
       if String.eqb raw "raw_clips/segment_2.mp4" then Ok None
       else Ok (Some out))
    (fun _ _ _ => Main.CaptionReturned true).

(** Every cut and conversion succeeds; captioning returns and never leaves
    its output file. *)
Definition captioning_fails : Main.World :=
  Main.mkWorld false "9:16" sample_raw_name sample_formatted sample_captioned
    (fun _ _ _ => Main.CutReturned true)
    (fun _ => true)
    (fun raw out _ => Ok (Some out))
    (fun _ _ _ => Main.CaptionReturned false).

(** The segments and the mocked tagger of
    [test_find_important_segments_spacy_path_success]. *)
Definition five_segments : list Segment :=
  [ mkSegment "This is important stuff" 0 5 None;
    mkSegment "Less so, not much here" 6 10 None;
    mkSegment "Very important indeed, yes" 11 20 None;
    mkSegment "Short one" 21 22 None;
    mkSegment "Another important segment" 23 30 None ].

Definition mock_nlp : Nlp := fun txt =>
  if String.eqb txt "This is important stuff" then
    ["NOUN"; "VERB"; "PROPN"; "NOUN"]
  else if String.eqb txt "Less so, not much here" then ["ADJ"; "CCONJ"]
  else if String.eqb txt "Very important indeed, yes" then
    ["ADV"; "NOUN"; "VERB"; "PROPN"; "VERB"; "NOUN"]
  else if String.eqb txt "Short one" then ["NOUN"; "NOUN"]
  else if String.eqb txt "Another important segment" then
    ["DET"; "NOUN"; "ADJ"; "PROPN"]
  else [].

(** Two segments, the second with word timestamps. *)
Definition worded_result : Transcription :=
  mkTranscription (Some "Hello big world")
    (Some [ mkSegment "Hello" 0 2 None;
            mkSegment " big world" 40 100
              (Some [mkWord " big" 40 41; mkWord " world" 99 100]) ]).

(** The segments of [test_find_important_segments_basic_logic_direct]. *)
Definition three_segments : list Segment :=
  [ mkSegment "Short" 0 1 None;
    mkSegment "Medium length segment" 2 5 None;
    mkSegment "This is a very long segment indeed" 6 12 None ].

End Samples.

(** ** Names for what both selection paths share *)

Module Selection.

Import PyStr PyList ContentAnalysis.

(** A segment both paths keep: its trimmed text is not empty and it lasts
    at least [min_segment_duration]. *)
Definition eligible (min_segment_duration : Q) (seg : Segment) : bool :=
  truthy (strip (text seg))
  && Qle_bool min_segment_duration (end_ seg - start seg).

(** The dict returned for a kept segment: trimmed text, the two timestamps,
    no ['words']. *)
Definition trimmed (seg : Segment) : Segment :=
  {| text := strip (text seg); start := start seg; end_ := end_ seg;
     words := None |}.

(** The score a path ranks by, read off a returned dict: the count of
    NOUN, PROPN and VERB tokens with spaCy, the text length otherwise. *)
Definition score_in (load : SpacyLoad) (s : Segment) : nat :=
  match load with
  | Loaded nlp => spacy_score nlp (text s)
  | LoadOSError => String.length (text s)
  | LoadOtherError => String.length (text s)
  end.

End Selection.

(** ** main.py: stage 4 and the names of the raw clips *)

Module Workflow.

Import PyStr PyList ContentAnalysis Main.
Open Scope string_scope.

(** [c.isalnum()] on the code points below 256: the ASCII letters and
    digits, the Latin-1 letters, and the superscript digits and vulgar
    fractions. *)
Definition is_alnum (c : ascii) : bool :=
  let n := nat_of_ascii c in
  ((48 <=? n) && (n <=? 57) || (65 <=? n) && (n <=? 90)
   || (97 <=? n) && (n <=? 122)
   || (n =? 170) || (n =? 178) || (n =? 179) || (n =? 181)
   || (n =? 185) || (n =? 186) || (188 <=? n) && (n <=? 190)
   || (192 <=? n) && (n <=? 214) || (216 <=? n) && (n <=? 246)
   || (248 <=? n) && (n <=? 255))%nat.

(** [s[:k]] *)
Fixpoint take_chars (k : nat) (s : string) : string :=
  match k, s with
  | S k', String c s' => String c (take_chars k' s')
  | _, _ => EmptyString
  end.

(** ["".join(f(c) for c in s)] for a character-to-character [f]. *)
Fixpoint map_chars (f : ascii -> ascii) (s : string) : string :=
  match s with
  | EmptyString => EmptyString
  | String c s' => String (f c) (map_chars f s')
  end.

Fixpoint lstrip_char (ch : ascii) (s : string) : string :=
  match s with
  | EmptyString => EmptyString
  | String c s' => if Ascii.eqb c ch then lstrip_char ch s' else s
  end.

Definition rstrip_char (ch : ascii) (s : string) : string :=
  srev (lstrip_char ch (srev s)).

(** [s.strip(ch)] for a single character [ch]. *)
Definition strip_char (ch : ascii) (s : string) : string :=
  lstrip_char ch (rstrip_char ch s).

(** [text_preview_for_filename] of stage 5. *)
Definition text_preview_for_filename (txt : string) : string :=
  strip_char "_"
    (map_chars (fun c => if is_alnum c then c else "_"%char)
       (take_chars 20 txt)).

(** Stage 4: the selection, or nothing when the transcription has no
    segments. *)
Definition stage4 (load : SpacyLoad) (transcription_result : Transcription)
    (num_segments min_segment_length : Z) : list Segment :=
  match tr_segments transcription_result with
  | None => []
  | Some [] => []
  | Some segments =>
      find_important_segments load segments num_segments
        (inject_Z min_segment_length)
  end.

(** [transcription_result.get('segments', [])] *)
Definition transcript_segments (transcription_result : Transcription)
  : list Segment :=
  match tr_segments transcription_result with
  | Some segments => segments
  | None => []
  end.

(** Stages 4 to 6 on a transcription result. *)
Definition stages_4_to_6 (W : World) (load : SpacyLoad)
    (transcription_result : Transcription)
    (num_segments min_segment_length : Z) : result (list ClipRecord) :=
  per_segment_loop W (transcript_segments transcription_result)
    (stage4 load transcription_result num_segments min_segment_length).

(** Names for the statements about file names. *)
Fixpoint all_chars (p : ascii -> bool) (s : string) : bool :=
  match s with
  | EmptyString => true
  | String c s' => p c && all_chars p s'
  end.

Definition first_char (s : string) : option ascii :=
  match s with
  | EmptyString => None
  | String c _ => Some c
  end.

Definition last_char (s : string) : option ascii := first_char (srev s).

End Workflow.

(** ** Paths: the functions of [os.path] the sources call (POSIX) *)

Module PyPath.

Import PyStr Workflow.
Open Scope string_scope.

(** [s[k:]] *)
Fixpoint drop_chars (k : nat) (s : string) : string :=
  match k, s with
  | S k', String _ s' => drop_chars k' s'
  | _, _ => s
  end.

(** Index of the last [ch] at or after index [i], given the one found so
    far. *)
Fixpoint rfind_from (ch : ascii) (s : string) (i : nat) (found : option nat)
  : option nat :=
  match s with
  | EmptyString => found
  | String c s' =>
      rfind_from ch s' (S i) (if Ascii.eqb c ch then Some i else found)
  end.

(** [s.rfind(ch)]; [None] stands for -1. *)
Definition rfind (ch : ascii) (s : string) : option nat :=
  rfind_from ch s 0 None.

(** [s.endswith(suffix)] *)
Definition endswith (s suffix : string) : bool :=
  String.prefix (srev suffix) (srev s).

(** [os.path.dirname(p)] *)
Definition dirname (p : string) : string :=
  match rfind "/" p with
  | None => EmptyString
  | Some k =>
      let head := take_chars (S k) p in
      if truthy head && negb (all_chars (Ascii.eqb "/") head)
      then rstrip_char "/" head
      else head
  end.

(** [os.path.splitext(p)]: the extension starts at the last dot of the last
    component, unless only dots come before it there. *)
Definition splitext (p : string) : string * string :=
  match rfind "." p with
  | None => (p, EmptyString)
  | Some dot_index =>
      let filename_index :=
        match rfind "/" p with
        | None => 0%nat
        | Some sep_index => S sep_index
        end in
      if (filename_index <=? dot_index)%nat
         && negb (all_chars (Ascii.eqb ".")
                    (drop_chars filename_index (take_chars dot_index p)))
      then (take_chars dot_index p, drop_chars dot_index p)
      else (p, EmptyString)
  end.

(** [os.path.join(a, b)] *)
Definition path_join (a b : string) : string :=
  if String.prefix "/" b then b
  else if negb (truthy a) || endswith a "/" then a ++ b
  else a ++ "/" ++ b.

(** [needle in hay] *)
Fixpoint contains (needle hay : string) : bool :=
  String.prefix needle hay
  || match hay with
     | EmptyString => false
     | String _ hay' => contains needle hay'
     end.

End PyPath.

(** ** clipify/core/video_processing.py *)

Module VideoProcessing.

Import PyStr PyList Float64 ContentAnalysis Workflow PyPath.
Open Scope string_scope.

(** The first [try] of [convert_video_aspect_ratio]: unpacking the split,
    the two [int()] calls and the sign test all raise [ValueError]. *)
Definition parse_aspect_ratio (target_aspect_ratio_str : string)
  : result (Z * Z) :=
  match split ":" target_aspect_ratio_str with
  | [ar_w_str; ar_h_str] =>
      ar_w <- py_int ar_w_str ;;
      ar_h <- py_int ar_h_str ;;
      if (ar_w <=? 0)%Z || (ar_h <=? 0)%Z then Raise ValueError
      else Ok (ar_w, ar_h)
  | _ => Raise ValueError
  end.

(** [(new_width, new_height)] for a frame [orig_w] by [orig_h], in float
    arithmetic. [None] stands for an exception, which the second [try]
    catches: a zero height or a zero ratio divides by zero, an [int] too
    large has no float, and [int()] refuses the infinity that a product or
    quotient out of range gives. *)
Definition crop_size (orig_w orig_h : Z) (target_ar : Q) : option (Z * Z) :=
  if (orig_h =? 0)%Z then None
  else
    match fl (inject_Z orig_w / inject_Z orig_h) with
    | None => None
    | Some current_ar =>
        if ltb target_ar current_ar then
          match fl (inject_Z orig_h) with
          | None => None
          | Some h =>
              match fl (h * target_ar) with
              | None => None
              | Some x => Some (int_of_float x, orig_h)
              end
          end
        else
          match fl (inject_Z orig_w) with
          | None => None
          | Some w =>
              if Qeq_bool target_ar 0 then None
              else
                match fl (w / target_ar) with
                | None => None
                | Some x => Some (orig_w, int_of_float x)
                end
          end
    end.

(** What [convert_video_aspect_ratio] needs from outside: the file system,
    [VideoFileClip(path).size] ([None] when opening raises) and the crop
    and write of the output ([false] when anything there raises). *)
Record Moviepy : Type := mkMoviepy
  { input_exists : string -> bool;
    clip_size : string -> option (Z * Z);
    write_cropped : string -> Z -> Z -> string -> bool }.

(** [convert_video_aspect_ratio(input_file_path, output_file_path,
    target_aspect_ratio_str)]. The first [try] catches [ValueError] only:
    when [ar_w / ar_h] is too large for a float the division raises
    [OverflowError], which leaves the function. Every exception of the
    second [try] is caught and gives [None], the unbound name in the
    zero-size message included. (The [close] calls of the [finally]
    block are not modelled.) *)
Definition convert_video_aspect_ratio (E : Moviepy)
    (input_file_path output_file_path target_aspect_ratio_str : string)
  : result (option string) :=
  match parse_aspect_ratio target_aspect_ratio_str with
  | Raise _ => Ok None
  | Ok (ar_w, ar_h) =>
      match fl (inject_Z ar_w / inject_Z ar_h) with
      | None => Raise OverflowError
      | Some target_ar =>
          if negb (input_exists E input_file_path) then Ok None
          else
            match clip_size E input_file_path with
            | None => Ok None
            | Some (orig_w, orig_h) =>
                match crop_size orig_w orig_h target_ar with
                | None => Ok None
                | Some (new_width, new_height) =>
                    if (new_width =? 0)%Z || (new_height =? 0)%Z then Ok None
                    else if write_cropped E input_file_path new_width
                              new_height output_file_path
                    then Ok (Some output_file_path)
                    else Ok None
                end
            end
      end
  end.

(** How [subprocess.run(command, check=True, ...)] ends. *)
Inductive RunOutcome : Type :=
| RunOk
| RunCalledProcessError
| RunOtherError.

(** The file system and ffmpeg as [extract_video_segments] sees them:
    [make_dirs] is [false] when creating the output directory raises; the
    command is identified by the four values it is built from. *)
Record Ffmpeg : Type := mkFfmpeg
  { video_exists : string -> bool;
    out_dir_exists : string -> bool;
    make_dirs : string -> bool;
    run_cut : string -> Q -> Q -> string -> RunOutcome }.

(** [extract_video_segments(video_file_path, start_seconds, end_seconds,
    output_file_path)]: it returns a [bool], unless [os.makedirs], which is
    outside the [try], raises. *)
Definition extract_video_segments (E : Ffmpeg) (video_file_path : string)
    (start_seconds end_seconds : Q) (output_file_path : string)
  : Main.CutOutcome :=
  if negb (video_exists E video_file_path) then Main.CutReturned false
  else
    let output_dir := dirname output_file_path in
    if truthy output_dir && negb (out_dir_exists E output_dir)
       && negb (make_dirs E output_dir)
    then Main.CutRaised
    else
      let duration := (end_seconds - start_seconds)%Q in
      if Qle_bool duration 0 then Main.CutReturned false
      else
        match run_cut E video_file_path start_seconds end_seconds
                output_file_path with
        | RunOk => Main.CutReturned true
        | RunCalledProcessError => Main.CutReturned false
        | RunOtherError => Main.CutReturned false
        end.

(** A caption clip of [add_captions_to_video]: the text shown, when it
    starts and for how long. *)
Record CaptionClip : Type := mkCaption
  { caption_text : string; caption_start : Q; caption_duration : Q }.

(** The loop of [add_captions_to_video] that builds [caption_clips]:
    segments without text or without positive duration are skipped. *)
Fixpoint caption_clips (transcription_segments : list Segment)
  : list CaptionClip :=
  match transcription_segments with
  | [] => []
  | segment :: rest =>
      let txt := strip (text segment) in
      if negb (truthy txt) then caption_clips rest
      else
        let duration := (end_ segment - start segment)%Q in
        if Qle_bool duration 0 then caption_clips rest
        else (mkCaption txt (start segment) duration :: caption_clips rest)%list
  end.

(** What [add_captions_to_video] needs from outside. A constructor or
    [os.makedirs] returns ([None]) or raises ([Some e]). *)
Record CaptionEnv : Type := mkCaptionEnv
  { caption_input_exists : string -> bool;
    (** [VideoFileClip(video_path)] *)
    open_video : string -> option exn;
    (** [TextClip(text, ...)] *)
    make_text_clip : string -> option exn;
    caption_dir_exists : string -> bool;
    (** [os.makedirs(output_dir)] *)
    caption_makedirs : string -> option exn;
    (** [CompositeVideoClip([video_clip] + caption_clips, ...)] *)
    composite : string -> list CaptionClip -> option exn }.

(** The first [TextClip] call of the loop that raises, if any: there is one
    call for each caption clip, in order. *)
Fixpoint text_clip_raises (E : CaptionEnv) (clips : list CaptionClip)
  : option exn :=
  match clips with
  | [] => None
  | clip :: rest =>
      match make_text_clip E (caption_text clip) with
      | Some e => Some e
      | None => text_clip_raises E rest
      end
  end.

(** [add_captions_to_video(video_path, transcription_segments,
    output_path)]. It returns nothing. Only [write_videofile] stands in a
    [try], one that catches everything: whether the file gets written or
    not, the function returns. What [VideoFileClip], [TextClip],
    [os.makedirs] or [CompositeVideoClip] raise leaves the function. *)
Definition add_captions_to_video (E : CaptionEnv) (video_path : string)
    (transcription_segments : list Segment) (output_path : string)
  : result unit :=
  if negb (caption_input_exists E video_path) then Ok tt
  else
    match open_video E video_path with
    | Some e => Raise e
    | None =>
        let clips := caption_clips transcription_segments in
        match text_clip_raises E clips with
        | Some e => Raise e
        | None =>
            match clips with
            | [] => Ok tt
            | _ =>
                let output_dir := dirname output_path in
                let made :=
                  if truthy output_dir
                     && negb (caption_dir_exists E output_dir)
                  then caption_makedirs E output_dir
                  else None in
                match made with
                | Some e => Raise e
                | None =>
                    match composite E video_path clips with
                    | Some e => Raise e
                    | None => Ok tt
                    end
                end
            end
        end
    end.

(** The call of stage 6 and its look at the output file, for a file system
    in which [output_exists_after] tells whether the captioned file is
    there once the call has returned. *)
Definition caption_call (E : CaptionEnv) (output_exists_after : string -> bool)
    (video_path : string) (transcription_segments : list Segment)
    (output_path : string) : Main.CaptionOutcome :=
  match add_captions_to_video E video_path transcription_segments
          output_path with
  | Ok _ => Main.CaptionReturned (output_exists_after output_path)
  | Raise e => Main.CaptionRaised e
  end.

End VideoProcessing.

(** ** clipify/core/audio_processing.py *)

Module AudioProcessing.

Import PyStr Workflow PyPath VideoProcessing.
Open Scope string_scope.

(** [c.lower()] on the code points below 256. *)
Definition lower_char (c : ascii) : ascii :=
  let n := nat_of_ascii c in
  if ((65 <=? n) && (n <=? 90)
      || (192 <=? n) && (n <=? 222) && negb (n =? 215))%nat
  then ascii_of_nat (n + 32)
  else c.

(** [s.lower()] *)
Definition lower (s : string) : string := map_chars lower_char s.

Definition double_quote : ascii := ascii_of_nat 34.

(** [s.replace('"', '\\"')]: a backslash in front of every double quote. *)
Fixpoint escape_quotes (s : string) : string :=
  match s with
  | EmptyString => EmptyString
  | String c s' =>
      if Ascii.eqb c double_quote
      then String "\" (String double_quote (escape_quotes s'))
      else String c (escape_quotes s')
  end.

(** The shell command of [extract_audio_from_video]. *)
Definition audio_command (escaped_video_file escaped_audio_file : string)
  : string :=
  "ffmpeg -i " ++ String double_quote escaped_video_file
  ++ String double_quote " -ab 160k -ac 2 -ar 44100 -vn "
  ++ String double_quote escaped_audio_file
  ++ String double_quote " -y".

(** The file system and the shell as [extract_audio_from_video] sees them:
    [makedirs] is [false] when creating the directory raises. *)
Record AudioWorld : Type := mkAudioWorld
  { dir_exists : string -> bool;
    makedirs : string -> bool;
    run_shell : string -> RunOutcome }.

(** A call returns a value, or an exception it does not catch leaves it. *)
Inductive Returned (A : Type) : Type :=
| Returns (a : A)
| Propagates.

Arguments Returns {A} a.
Arguments Propagates {A}.

(** The output path after the [.wav] check. *)
Definition forced_wav (output_audio_path : string) : string :=
  if negb (endswith (lower output_audio_path) ".wav")
  then fst (splitext output_audio_path) ++ ".wav"
  else output_audio_path.

(** [extract_audio_from_video(video_file_path, output_audio_path)]: only
    [CalledProcessError] is caught. *)
Definition extract_audio_from_video (E : AudioWorld)
    (video_file_path output_audio_path : string)
  : Returned (option string) :=
  let output_dir := dirname output_audio_path in
  if truthy output_dir && negb (dir_exists E output_dir)
     && negb (makedirs E output_dir)
  then Propagates
  else
    let escaped_video_file := escape_quotes video_file_path in
    let output_audio_path := forced_wav output_audio_path in
    let escaped_audio_file := escape_quotes output_audio_path in
    match run_shell E (audio_command escaped_video_file escaped_audio_file) with
    | RunOk => Returns (Some output_audio_path)
    | RunCalledProcessError => Returns None
    | RunOtherError => Propagates
    end.

(** Stage 2 of [main_workflow]: the audio path handed to
    [extract_audio_from_video]. *)
Definition stage2_audio_path (temp_dir original_video_filename : string)
  : string :=
  let audio_file_name := fst (splitext original_video_filename) ++ ".wav" in
  path_join temp_dir audio_file_name.

End AudioProcessing.

(** ** clipify/core/utils.py: download_youtube_video *)

Module Download.

Import PyStr PyPath.
Open Scope string_scope.

(** The keys of [info_dict] the function reads; an entry of
    ['requested_downloads'] may lack ['filepath']. *)
Record InfoDict : Type := mkInfo
  { requested_downloads : option (list (option string));
    info_filename : option string;
    info_title : option string;
    info_ext : option string }.

(** How [ydl.extract_info(url, download=True)] ends; [None] is a falsy
    result. *)
Inductive ExtractOutcome : Type :=
| ExtractReturns (info_dict : option InfoDict)
| ExtractDownloadError
| ExtractOtherError.

(** yt-dlp and the file system; [None] from [prepare_filename] or
    [listdir] is an exception, which the outer [except] turns into
    [None]. *)
Record YoutubeDL : Type := mkYoutubeDL
  { extract_info : string -> ExtractOutcome;
    prepare_filename : InfoDict -> option string;
    path_exists : string -> bool;
    listdir : string -> option (list string) }.

(** The body of the [with] block: the path picked for the downloaded file,
    or [None] when the function returns [None] from inside it. *)
Definition pick_video_file (E : YoutubeDL) (info_dict : InfoDict)
    (output_path : string) : option string :=
  match requested_downloads info_dict with
  | Some (first :: _) => first
  | _ =>
      match info_filename info_dict with
      | Some video_file => Some video_file
      | None =>
          match info_title info_dict, info_ext info_dict with
          | Some generated_title_part, Some _ =>
              match prepare_filename E info_dict with
              | None => None
              | Some video_file =>
                  if negb (path_exists E video_file) then
                    match listdir E output_path with
                    | None => None
                    | Some files =>
                        match filter (contains generated_title_part) files with
                        | f :: _ => Some (path_join output_path f)
                        | [] => None
                        end
                    end
                  else Some video_file
              end
          | _, _ => None
          end
      end
  end.

(** [download_youtube_video(url, output_path)] *)
Definition download_youtube_video (E : YoutubeDL) (url output_path : string)
  : option string :=
  match extract_info E url with
  | ExtractDownloadError => None
  | ExtractOtherError => None
  | ExtractReturns None => None
  | ExtractReturns (Some info_dict) =>
      match pick_video_file E info_dict output_path with
      | None => None
      | Some video_file =>
          if negb (path_exists E video_file) then
            match prepare_filename E info_dict with
            | None => None
            | Some check_path =>
                if path_exists E check_path then Some check_path else None
            end
          else Some video_file
      end
  end.

End Download.

(** ** More sample inputs *)

Module MoreSamples.

Import ContentAnalysis VideoProcessing.
Open Scope string_scope.

(** The source video exists and ffmpeg always succeeds. *)
Definition ffmpeg_works : Ffmpeg :=
  mkFfmpeg (fun _ => true) (fun _ => true) (fun _ => true)
    (fun _ _ _ _ => RunOk).

(** A run whose cuts are [extract_video_segments] on the file
    ["video.mp4"]. *)
Definition world_with_ffmpeg : Main.World :=
  Main.mkWorld false "9:16" Samples.sample_raw_name Samples.sample_formatted
    Samples.sample_captioned
    (fun s e out => extract_video_segments ffmpeg_works "video.mp4" s e out)
    (fun _ => true)
    (fun raw out _ => Ok (Some out))
    (fun _ _ _ => Main.CaptionReturned true).

(** moviepy on a machine where [TextClip] cannot be built for the text of
    the second sample clip (it raises [OSError]) and works otherwise. *)
Definition second_text_clip_raises : CaptionEnv :=
  mkCaptionEnv (fun _ => true) (fun _ => None)
    (fun txt => if String.eqb txt "second clip" then Some OSError else None)
    (fun _ => true) (fun _ => None) (fun _ _ => None).

(** Every cut and every conversion succeeds; captioning is
    [add_captions_to_video] with that moviepy, and leaves its file
    whenever it returns. *)
Definition world_caption_raises : Main.World :=
  Main.mkWorld false "9:16" Samples.sample_raw_name Samples.sample_formatted
    Samples.sample_captioned
    (fun _ _ _ => Main.CutReturned true)
    (fun _ => true)
    (fun raw out _ => Ok (Some out))
    (caption_call second_text_clip_raises (fun _ => true)).

(** A 1920 by 1080 input that moviepy opens and writes. *)
Definition moviepy_works : Moviepy :=
  mkMoviepy (fun _ => true) (fun _ => Some (1920, 1080)%Z)
    (fun _ _ _ _ => true).

(** ffmpeg succeeds and the output directory exists. *)
Definition audio_works : AudioProcessing.AudioWorld :=
  AudioProcessing.mkAudioWorld (fun _ => true) (fun _ => true) (fun _ => RunOk).

(** yt-dlp reports where it put the file, and the file is there. *)
Definition download_works : Download.YoutubeDL :=
  Download.mkYoutubeDL
    (fun _ =>
       Download.ExtractReturns
         (Some (Download.mkInfo (Some [Some "tmp/talk.mp4"]) None
                  (Some "talk") (Some "mp4"))))
    (fun _ => Some "tmp/talk.mp4")
    (fun _ => true)
    (fun _ => Some ["talk.mp4"]).

(** A record cut from seconds 10 to 20 and a transcript around it. *)
Definition clip_10_20 : Main.ClipRecord :=
  Main.mkClip (mkSegment "middle" 10 20 None) (Some "raw.mp4") None.

Definition transcript_around : list Segment :=
  [ mkSegment " before " 0 9 None;
    mkSegment " into the clip " 8 12 None;
    mkSegment "   " 12 13 None;
    mkSegment " out of the clip" 18 25 None;
    mkSegment " after" 20 22 None ].

End MoreSamples.

(* ================================================================== *)
(** * Part II: properties                                              *)
(* ================================================================== *)

(** ** The embedding on the inputs of the test suite *)

Module Conformance.

Import PyStr Utils ContentAnalysis Samples.
Open Scope string_scope.

(** [test_convert_time_to_seconds] *)
Example convert_examples :
  convert_time_to_seconds "1:05" = Ok 65%Z
  /\ convert_time_to_seconds "0:30" = Ok 30%Z
  /\ convert_time_to_seconds "1:00:00" = Ok 3600%Z
  /\ convert_time_to_seconds "invalid" = Raise ValueError
  /\ convert_time_to_seconds "1:2:3:4" = Raise ValueError.
Proof. repeat split; reflexivity. Qed.

(** [format_time]: minutes and seconds below one hour, hours from 3600
    seconds on. *)
Example format_examples :
  format_time (PyInt 65) = "1:05"
  /\ format_time (PyInt 0) = "0:00"
  /\ format_time (PyInt 3599) = "59:59"
  /\ format_time (PyInt 3600) = "1:00:00"
  /\ format_time (PyInt 3665) = "1:01:05"
  /\ format_time (PyFloat (131 # 2)) = "1:05"
  /\ format_time (PyFloat 3665) = "1:01:05".
Proof. repeat split; vm_compute; reflexivity. Qed.

(** Floats: beyond [2^53] the floor division is rounded, and a tiny
    negative float has a remainder that rounds to 60. *)
Example format_float_examples :
  format_time (PyFloat (inject_Z (10 ^ 22))) = "2777777777777777595:44:40"
  /\ format_time (PyInt (10 ^ 22)) = "2777777777777777777:46:40"
  /\ format_time (PyFloat (Float64.round64 (-1 # 100000000000000000000)))
     = "59:60"
  /\ format_time (PyFloat (Float64.round64 (35999999999999995 # 10000000000000)))
     = "59:59".
Proof. repeat split; vm_compute; reflexivity. Qed.

(** The float nearest to a tenth, and a product that is not exact. *)
Example round64_examples :
  Qred (Float64.round64 (1 # 10))
  = (3602879701896397 # 36028797018963968)%Q
  /\ Qred (Float64.round64 (49 * Float64.round64 (1 # 49)))
     = (9007199254740991 # 9007199254740992)%Q
  /\ Float64.fl (inject_Z (10 ^ 400)) = None.
Proof. repeat split; vm_compute; reflexivity. Qed.

(** [int()] skips blanks but not the separators 28 to 31, takes one
    underscore between digits, and wants digits after a sign. *)
Example int_examples :
  py_int " 42 " = Ok 42%Z
  /\ py_int (String (ascii_of_nat 28) "9") = Raise ValueError
  /\ py_int (String (ascii_of_nat 160) "9") = Ok 9%Z
  /\ py_int "1_0" = Ok 10%Z
  /\ py_int "1__0" = Raise ValueError
  /\ py_int "+ 1" = Raise ValueError
  /\ py_int "-07" = Ok (-7)%Z.
Proof. repeat split; vm_compute; reflexivity. Qed.

(** [test_find_important_segments_basic_logic_direct], tests 1 to 4. *)
Example basic_examples :
  map text (_find_important_segments_basic three_segments 1 3)
  = ["This is a very long segment indeed"]
  /\ map text (_find_important_segments_basic three_segments 2 3)
     = ["Medium length segment"; "This is a very long segment indeed"]
  /\ _find_important_segments_basic three_segments 1 7 = []
  /\ _find_important_segments_basic [] 1 1 = [].
Proof. repeat split; reflexivity. Qed.

(** [test_find_important_segments_spacy_path_success] *)
Example spacy_example :
  find_important_segments (Loaded mock_nlp) five_segments 2 4
  = [ mkSegment "This is important stuff" 0 5 None;
      mkSegment "Very important indeed, yes" 11 20 None ].
Proof. reflexivity. Qed.

(** With [format_time] among the module's names the windower closes a
    window at the silence gap and flushes the last one. *)
Example windows_example :
  split_transcript_by_timestamps_in ("format_time" :: module_names)
    (Some worded_result) 60
  = Ok [ mkWindow "0:00 - 0:02" "Hello";
         mkWindow "0:40 - 0:41" " big";
         mkWindow "1:39 - 1:40" " world" ].
Proof. reflexivity. Qed.

End Conformance.

(** ** Facts about the string primitives *)

Module PyStrFacts.

Import PyStr.
Open Scope string_scope.

Lemma append_assoc (a b c : string) : (a ++ b) ++ c = a ++ (b ++ c).
Proof. induction a as [|x a IH]; simpl; [reflexivity | now rewrite IH]. Qed.

Lemma rev_onto_app s acc : rev_onto s acc = srev s ++ acc.
Proof.
  unfold srev. revert acc.
  induction s as [|c s IH]; intros acc; simpl; [reflexivity|].
  rewrite IH, (IH (String c EmptyString)).
  rewrite append_assoc. reflexivity.
Qed.

Lemma append_empty_r s : s ++ EmptyString = s.
Proof. induction s; simpl; congruence. Qed.

Lemma srev_app a b : srev (a ++ b) = srev b ++ srev a.
Proof.
  induction a as [|c a IH]; simpl.
  - now rewrite append_empty_r.
  - unfold srev at 1 3. simpl. rewrite !rev_onto_app, IH.
    now rewrite append_assoc.
Qed.

Lemma srev_involutive s : srev (srev s) = s.
Proof.
  induction s as [|c s IH]; [reflexivity|].
  unfold srev at 2. simpl. rewrite rev_onto_app, srev_app, IH. reflexivity.
Qed.

Lemma digit_not_space c d : digit_val c = Some d -> is_space c = false.
Proof.
  unfold digit_val, is_space. intros H.
  destruct ((48 <=? nat_of_ascii c)%nat && (nat_of_ascii c <=? 57)%nat) eqn:E;
    [|discriminate].
  apply andb_true_iff in E. destruct E as [E1 E2].
  apply Nat.leb_le in E1. apply Nat.leb_le in E2.
  repeat match goal with
         | |- context [(?a <=? ?b)%nat] => destruct (Nat.leb_spec a b); try lia
         | |- context [(?a =? ?b)%nat] => destruct (Nat.eqb_spec a b); try lia
         end; reflexivity.
Qed.

Lemma digit_not_char c d (x : ascii) :
  digit_val c = Some d ->
  ((nat_of_ascii x <? 48) || (57 <? nat_of_ascii x))%nat = true ->
  Ascii.eqb c x = false.
Proof.
  unfold digit_val. intros H Hx.
  destruct (Ascii.eqb_spec c x) as [->|]; [|reflexivity].
  destruct ((48 <=? nat_of_ascii x)%nat && (nat_of_ascii x <=? 57)%nat) eqn:E;
    [|discriminate].
  apply andb_true_iff in E. destruct E as [E1 E2].
  apply Nat.leb_le in E1. apply Nat.leb_le in E2.
  apply orb_true_iff in Hx. destruct Hx as [Hx|Hx]; apply Nat.ltb_lt in Hx; lia.
Qed.

Lemma all_digit_app a b : all_digit (a ++ b) = all_digit a && all_digit b.
Proof.
  induction a as [|c a IH]; simpl; [reflexivity|].
  destruct (digit_val c); [exact IH | reflexivity].
Qed.

Lemma all_digit_srev s : all_digit (srev s) = all_digit s.
Proof.
  induction s as [|c s IH]; [reflexivity|].
  unfold srev. simpl. rewrite rev_onto_app, all_digit_app, IH. simpl.
  destruct (digit_val c); [apply andb_true_r | apply andb_false_r].
Qed.

Lemma lstrip_all_digit s : all_digit s = true -> lstrip s = s.
Proof.
  destruct s as [|c s]; simpl; [reflexivity|].
  destruct (digit_val c) eqn:E; [|discriminate].
  intros _. now rewrite (digit_not_space _ _ E).
Qed.

Lemma digit_not_int_space c d : digit_val c = Some d -> is_int_space c = false.
Proof.
  unfold digit_val, is_int_space. intros H.
  destruct ((48 <=? nat_of_ascii c)%nat && (nat_of_ascii c <=? 57)%nat) eqn:E;
    [|discriminate].
  apply andb_true_iff in E. destruct E as [E1 E2].
  apply Nat.leb_le in E1. apply Nat.leb_le in E2.
  repeat match goal with
         | |- context [(?a <=? ?b)%nat] => destruct (Nat.leb_spec a b); try lia
         | |- context [(?a =? ?b)%nat] => destruct (Nat.eqb_spec a b); try lia
         end; reflexivity.
Qed.

Lemma int_lstrip_all_digit s : all_digit s = true -> int_lstrip s = s.
Proof.
  destruct s as [|c s]; simpl; [reflexivity|].
  destruct (digit_val c) eqn:E; [|discriminate].
  intros _. now rewrite (digit_not_int_space _ _ E).
Qed.

Lemma int_strip_all_digit s : all_digit s = true -> int_strip s = s.
Proof.
  intros H. unfold int_strip.
  rewrite (int_lstrip_all_digit (srev s)) by now rewrite all_digit_srev.
  rewrite srev_involutive. now apply int_lstrip_all_digit.
Qed.

Lemma strip_all_digit s : all_digit s = true -> strip s = s.
Proof.
  intros H. unfold strip, rstrip.
  rewrite (lstrip_all_digit (srev s)) by now rewrite all_digit_srev.
  rewrite srev_involutive. now apply lstrip_all_digit.
Qed.

Lemma lstrip_clean s : starts_clean (lstrip s) = true.
Proof.
  induction s as [|c s IH]; simpl; [reflexivity|].
  destruct (is_space c) eqn:E; [exact IH|]. simpl. now rewrite E.
Qed.

Lemma lstrip_id s : starts_clean s = true -> lstrip s = s.
Proof.
  destruct s as [|c s]; simpl; [reflexivity|].
  intros H. apply negb_true_iff in H. now rewrite H.
Qed.

Lemma rstrip_id s : ends_clean s = true -> rstrip s = s.
Proof.
  intros H. unfold rstrip. rewrite (lstrip_id _ H). apply srev_involutive.
Qed.

Lemma rstrip_ends_clean s : ends_clean (rstrip s) = true.
Proof. unfold ends_clean, rstrip. rewrite srev_involutive. apply lstrip_clean. Qed.

Lemma starts_clean_app x y :
  x <> EmptyString -> starts_clean (x ++ y) = starts_clean x.
Proof. destruct x; [congruence | reflexivity]. Qed.

Lemma srev_cons c s : srev (String c s) = srev s ++ String c EmptyString.
Proof. unfold srev at 1. simpl. apply rev_onto_app. Qed.

Lemma srev_nonempty c s : srev (String c s) <> EmptyString.
Proof. rewrite srev_cons. destruct (srev s); discriminate. Qed.

Lemma lstrip_ends_clean s : ends_clean s = true -> ends_clean (lstrip s) = true.
Proof.
  induction s as [|c s IH]; simpl; [trivial|].
  destruct (is_space c); [|trivial].
  intros H. destruct s as [|d t]; [reflexivity|].
  apply IH. unfold ends_clean in *.
  rewrite (srev_cons c) in H.
  now rewrite starts_clean_app in H by apply srev_nonempty.
Qed.

(** [strip] is idempotent. *)
Lemma strip_idem s : strip (strip s) = strip s.
Proof.
  unfold strip at 1.
  assert (ends_clean (strip s) = true) as H
    by (apply lstrip_ends_clean, rstrip_ends_clean).
  rewrite (rstrip_id _ H). apply lstrip_id, lstrip_clean.
Qed.

Lemma digit_val_char d : (0 <= d < 10)%Z -> digit_val (digit_char d) = Some d.
Proof.
  intros H.
  assert (d = 0 \/ d = 1 \/ d = 2 \/ d = 3 \/ d = 4 \/ d = 5 \/ d = 6
          \/ d = 7 \/ d = 8 \/ d = 9)%Z as C by lia.
  repeat (destruct C as [->|C]; [reflexivity|]). subst. reflexivity.
Qed.

Lemma all_digit_fuel fuel n acc :
  (0 <= n)%Z -> all_digit acc = true -> all_digit (digits_fuel fuel n acc) = true.
Proof.
  revert n acc. induction fuel as [|fuel IH]; intros n acc Hn Hacc;
    cbn [digits_fuel].
  - exact Hacc.
  - assert (all_digit (String (digit_char (n mod 10)) acc) = true) as H.
    { cbn [all_digit].
      rewrite digit_val_char by (apply Z.mod_pos_bound; lia). exact Hacc. }
    destruct (n <? 10)%Z; [exact H|].
    apply IH; [apply Z.div_pos; lia | exact H].
Qed.

Lemma all_digit_digits n : (0 <= n)%Z -> all_digit (digits n) = true.
Proof. intros H. now apply all_digit_fuel. Qed.

Lemma digits_fuel_nonempty fuel n acc :
  digits_fuel (S fuel) n acc <> EmptyString.
Proof.
  revert n acc. induction fuel as [|fuel IH]; intros n acc.
  - cbn [digits_fuel]. destruct (n <? 10)%Z; discriminate.
  - change (digits_fuel (S (S fuel)) n acc)
      with (if (n <? 10)%Z then String (digit_char (n mod 10)) acc
            else digits_fuel (S fuel) (n / 10)
                   (String (digit_char (n mod 10)) acc)).
    destruct (n <? 10)%Z; [discriminate | apply IH].
Qed.

Lemma digits_nonempty n : digits n <> EmptyString.
Proof. apply digits_fuel_nonempty. Qed.

(** Reading back the digits written in front of [acc]. *)
Lemma int_digits_fuel fuel : forall n acc,
  (0 <= n < 2 ^ Z.of_nat (S fuel))%Z ->
  exists k : Z, forall a p,
    int_digits (digits_fuel (S fuel) n acc) a p
    = int_digits acc (a * 10 ^ k + n)%Z true /\ (0 <= k)%Z.
Proof.
  induction fuel as [|fuel IH]; intros n acc Hn.
  - exists 1%Z. intros a p. cbn [digits_fuel].
    assert (n < 10)%Z as Hlt by (change (2 ^ Z.of_nat 1)%Z with 2%Z in Hn; lia).
    destruct (Z.ltb_spec n 10); [|lia]. cbn [int_digits].
    rewrite Z.mod_small by lia.
    rewrite digit_val_char by lia.
    split; [f_equal; lia | lia].
  - change (digits_fuel (S (S fuel)) n acc)
      with (if (n <? 10)%Z then String (digit_char (n mod 10)) acc
            else digits_fuel (S fuel) (n / 10)
                   (String (digit_char (n mod 10)) acc)).
    destruct (Z.ltb_spec n 10) as [Hlt|Hge].
    + exists 1%Z. intros a p. cbn [int_digits].
      rewrite Z.mod_small by lia. rewrite digit_val_char by lia.
      split; [f_equal; lia | lia].
    + destruct (IH (n / 10)%Z (String (digit_char (n mod 10)) acc)) as [k Hk].
      { split; [apply Z.div_pos; lia|].
        apply Z.div_lt_upper_bound; [lia|].
        rewrite (Nat2Z.inj_succ (S fuel)), Z.pow_succ_r in Hn by lia. lia. }
      exists (k + 1)%Z. intros a p. destruct (Hk a p) as [E Hk0].
      rewrite E. cbn [int_digits].
      rewrite digit_val_char by (apply Z.mod_pos_bound; lia).
      split; [|lia]. f_equal.
      rewrite Z.pow_add_r by lia.
      pose proof (Z.div_mod n 10). lia.
Qed.

Lemma int_digits_digits n a p : (0 <= n)%Z ->
  exists k : Z, int_digits (digits n) a p = Some (a * 10 ^ k + n)%Z.
Proof.
  intros Hn. unfold digits.
  destruct (@int_digits_fuel (Z.to_nat (Z.log2 n)) n EmptyString) as [k Hk].
  { split; [exact Hn|].
    rewrite Nat2Z.inj_succ, Z2Nat.id by apply Z.log2_nonneg.
    destruct (Z.eq_dec n 0) as [->|Hne]; [reflexivity|].
    apply Z.log2_spec. lia. }
  exists k. destruct (Hk a p) as [E _]. rewrite E. reflexivity.
Qed.

(** [int(s)] of a non-empty run of digits skips the sign and whitespace
    handling. *)
Lemma py_int_all_digit s :
  all_digit s = true -> s <> EmptyString ->
  py_int s = match int_digits s 0%Z false with
             | Some n => Ok n
             | None => Raise ValueError
             end.
Proof.
  intros H Hne. unfold py_int. rewrite (int_strip_all_digit _ H).
  destruct s as [|c r]; [congruence|].
  simpl in H. destruct (digit_val c) eqn:E; [|discriminate].
  rewrite (@digit_not_char c z "+" E eq_refl).
  rewrite (@digit_not_char c z "-" E eq_refl). reflexivity.
Qed.

Lemma py_int_digits n : (0 <= n)%Z -> py_int (digits n) = Ok n.
Proof.
  intros Hn.
  rewrite py_int_all_digit by (auto using all_digit_digits, digits_nonempty).
  destruct (@int_digits_digits n 0%Z false Hn) as [k ->]. f_equal; lia.
Qed.

Lemma all_digit_format_02d n : (0 <= n)%Z -> all_digit (format_02d n) = true.
Proof.
  intros Hn. unfold format_02d, str_of_int.
  destruct (Z.ltb_spec n 0); [lia|].
  destruct (String.length (digits n) <? 2)%nat; simpl;
    now apply all_digit_digits.
Qed.

Lemma py_int_format_02d n : (0 <= n)%Z -> py_int (format_02d n) = Ok n.
Proof.
  intros Hn.
  rewrite py_int_all_digit.
  - unfold format_02d, str_of_int.
    destruct (Z.ltb_spec n 0); [lia|].
    destruct (String.length (digits n) <? 2)%nat.
    + simpl. destruct (@int_digits_digits n 0%Z true Hn) as [k ->]. f_equal; lia.
    + destruct (@int_digits_digits n 0%Z false Hn) as [k ->]. f_equal; lia.
  - now apply all_digit_format_02d.
  - unfold format_02d, str_of_int.
    destruct (Z.ltb_spec n 0); [lia|].
    destruct (String.length (digits n) <? 2)%nat;
      [discriminate | apply digits_nonempty].
Qed.

Lemma split_no_sep sep a :
  (forall c d, digit_val c = Some d -> Ascii.eqb c sep = false) ->
  all_digit a = true -> split sep a = [a].
Proof.
  intros Hsep. induction a as [|c a IH]; simpl; [reflexivity|].
  destruct (digit_val c) eqn:E; [|discriminate]. intros H.
  rewrite (Hsep _ _ E), (IH H). reflexivity.
Qed.

Lemma split_digits_then sep a b :
  (forall c d, digit_val c = Some d -> Ascii.eqb c sep = false) ->
  all_digit a = true ->
  split sep (a ++ String sep b) = a :: split sep b.
Proof.
  intros Hsep. induction a as [|c a IH]; simpl.
  - intros _. now rewrite Ascii.eqb_refl.
  - destruct (digit_val c) eqn:E; [|discriminate]. intros H.
    rewrite (Hsep _ _ E), (IH H). reflexivity.
Qed.

Lemma colon_not_digit c d : digit_val c = Some d -> Ascii.eqb c ":" = false.
Proof. intros E. exact (@digit_not_char c d ":" E eq_refl). Qed.

End PyStrFacts.

(** ** Facts about float rounding *)

Module Float64Facts.
Import Float64.

Lemma two_neq_0 : ~ (2 == 0)%Q.
Proof. discriminate. Qed.

Lemma pow2_pos e : (0 < pow2 e)%Q.
Proof. apply Qpower_0_lt. reflexivity. Qed.

Lemma pow2_add a b : (pow2 (a + b) == pow2 a * pow2 b)%Q.
Proof. apply Qpower_plus, two_neq_0. Qed.

Lemma pow2_sub a b : (pow2 (a - b) == pow2 a / pow2 b)%Q.
Proof. apply Qpower_minus, two_neq_0. Qed.

Lemma pow2_le a b : (a <= b)%Z -> (pow2 a <= pow2 b)%Q.
Proof. intros H. apply Qpower_le_compat_l; [exact H | discriminate]. Qed.

Lemma pow2_lt a b : (a < b)%Z -> (pow2 a < pow2 b)%Q.
Proof. intros H. apply Qpower_lt_compat_l; [exact H | reflexivity]. Qed.

Lemma pow2_lt_inv a b : (pow2 a < pow2 b)%Q -> (a < b)%Z.
Proof. intros H. apply (Qpower_lt_compat_l_inv 2); [exact H | reflexivity]. Qed.

Lemma pow2_Z e : (0 <= e)%Z -> (pow2 e == inject_Z (2 ^ e))%Q.
Proof. intros H. unfold pow2. now rewrite Zpower_Qpower. Qed.

Lemma pow2_0 : (pow2 0 == 1)%Q.
Proof. reflexivity. Qed.

Lemma pow2_mul_cancel a b : (pow2 a * pow2 (b - a) == pow2 b)%Q.
Proof. rewrite <- pow2_add. now replace (a + (b - a))%Z with b by lia. Qed.


(** [ilog2 q] is the exponent of the power of two at or below [q]. *)
Lemma ilog2_spec q :
  (0 < q)%Q -> (pow2 (ilog2 q) <= q)%Q /\ (q < pow2 (ilog2 q + 1))%Q.
Proof.
  intros Hq. destruct q as [n d]. unfold ilog2. cbn [Qnum Qden].
  assert (0 < n)%Z as Hn by (unfold Qlt in Hq; simpl in Hq; lia).
  set (a := Z.log2 n). set (b := Z.log2 (Z.pos d)).
  destruct (Z.log2_spec n Hn) as [Ha1 Ha2]. fold a in Ha1, Ha2.
  destruct (Z.log2_spec (Z.pos d) ltac:(lia)) as [Hb1 Hb2]. fold b in Hb1, Hb2.
  assert (0 <= a)%Z as Ha0 by apply Z.log2_nonneg.
  assert (0 <= b)%Z as Hb0 by apply Z.log2_nonneg.
  assert (n # d == inject_Z n / inject_Z (Z.pos d))%Q as E by apply Qmake_Qdiv.
  assert (0 < inject_Z (Z.pos d))%Q as HD by (rewrite <- (Zlt_Qlt 0); lia).
  assert (0 < inject_Z n)%Q as HN by (rewrite <- (Zlt_Qlt 0); lia).
  unfold Z.succ in Ha2, Hb2.
  rewrite Zle_Qle in Ha1, Hb1. rewrite Zlt_Qlt in Ha2, Hb2.
  rewrite <- pow2_Z in Ha1, Ha2, Hb1, Hb2 by lia.
  pose proof (pow2_pos a) as Pa. pose proof (pow2_pos b) as Pb.
  (* between pow2 (a - b - 1) and pow2 (a - b + 1) *)
  assert (pow2 (a - b - 1) <= n # d)%Q as Lo.
  { rewrite E. replace (a - b - 1)%Z with (a - (b + 1))%Z by lia.
    rewrite pow2_sub. apply Qle_shift_div_l; [exact HD|].
    unfold Qdiv. rewrite <- Qmult_assoc.
    assert (/ pow2 (b + 1) * inject_Z (Z.pos d) <= 1)%Q as H1.
    { rewrite Qmult_comm. apply Qle_shift_div_r; [apply pow2_pos|]. lra. }
    assert (0 <= / pow2 (b + 1) * inject_Z (Z.pos d))%Q as H0.
    { apply Qmult_le_0_compat; [|lra].
      apply Qlt_le_weak, Qinv_lt_0_compat, pow2_pos. }
    revert H0 H1. generalize (/ pow2 (b + 1) * inject_Z (Z.pos d))%Q.
    intros u H0 H1. nra. }
  assert (n # d < pow2 (a - b + 1))%Q as Hi.
  { rewrite E. replace (a - b + 1)%Z with (a + 1 - b)%Z by lia.
    rewrite pow2_sub. apply Qlt_shift_div_r; [exact HD|].
    unfold Qdiv. rewrite <- Qmult_assoc.
    assert (1 <= / pow2 b * inject_Z (Z.pos d))%Q as H1.
    { rewrite Qmult_comm. apply Qle_shift_div_l; [exact Pb|]. lra. }
    revert H1. generalize (/ pow2 b * inject_Z (Z.pos d))%Q.
    intros u H1. pose proof (pow2_pos (a + 1)). nra. }
  destruct (Qle_bool (pow2 (a - b)) (n # d)) eqn:C.
  - apply Qle_bool_iff in C. split; assumption.
  - assert (~ (pow2 (a - b) <= n # d)%Q) as C'
      by (intros H; apply Qle_bool_iff in H; congruence).
    apply Qnot_le_lt in C'. split; [exact Lo|].
    now replace (a - b - 1 + 1)%Z with (a - b)%Z by lia.
Qed.

Lemma ilog2_unique q k :
  (pow2 k <= q)%Q -> (q < pow2 (k + 1))%Q -> ilog2 q = k.
Proof.
  intros H1 H2.
  assert (0 < q)%Q as Hq by (pose proof (pow2_pos k); lra).
  destruct (ilog2_spec q Hq) as [S1 S2].
  assert (ilog2 q < k + 1)%Z by (apply pow2_lt_inv; lra).
  assert (k < ilog2 q + 1)%Z by (apply pow2_lt_inv; lra).
  lia.
Qed.

Lemma ilog2_comp q q' : (0 < q)%Q -> (q == q')%Q -> ilog2 q = ilog2 q'.
Proof.
  intros Hq E. symmetry. destruct (ilog2_spec q Hq) as [S1 S2].
  apply ilog2_unique; rewrite <- E; assumption.
Qed.

Lemma ilog2_mono x y : (0 < x)%Q -> (x <= y)%Q -> (ilog2 x <= ilog2 y)%Z.
Proof.
  intros Hx Hxy.
  destruct (ilog2_spec x Hx) as [X1 X2].
  destruct (ilog2_spec y ltac:(lra)) as [Y1 Y2].
  assert (ilog2 x < ilog2 y + 1)%Z by (apply pow2_lt_inv; lra). lia.
Qed.


(** *** Rounding to the nearest integer *)

Lemma round_half_even_comp t t' :
  (t == t')%Q -> round_half_even t = round_half_even t'.
Proof.
  intros E. unfold round_half_even.
  rewrite (Qfloor_comp _ _ E).
  assert ((t - inject_Z (Qfloor t') ?= 1 # 2)
          = (t' - inject_Z (Qfloor t') ?= 1 # 2))%Q as ->; [|reflexivity].
  apply Qcompare_comp; [|reflexivity]. now rewrite E.
Qed.

(** The two candidates and when each is taken. *)
Lemma round_half_even_cases t :
  let f := Qfloor t in
  (round_half_even t = f /\ (t - inject_Z f <= 1 # 2)%Q
   /\ ((t - inject_Z f == 1 # 2)%Q -> Z.even f = true))
  \/ (round_half_even t = (f + 1)%Z /\ (1 # 2 <= t - inject_Z f)%Q
      /\ ((t - inject_Z f == 1 # 2)%Q -> Z.even f = false)).
Proof.
  cbv zeta. unfold round_half_even.
  destruct (t - inject_Z (Qfloor t) ?= 1 # 2)%Q eqn:C.
  - apply Qeq_alt in C. destruct (Z.even (Qfloor t)) eqn:Ev.
    + left. split; [reflexivity|]. split; [lra | trivial].
    + right. split; [reflexivity|]. split; [lra | trivial].
  - apply Qlt_alt in C. left. split; [reflexivity|]. split; [lra|].
    intros E. lra.
  - apply Qgt_alt in C. right. split; [reflexivity|]. split; [lra|].
    intros E. lra.
Qed.

Lemma floor_bounds t :
  (0 <= t - inject_Z (Qfloor t))%Q /\ (t - inject_Z (Qfloor t) < 1)%Q.
Proof.
  pose proof (Qfloor_le t). pose proof (Qlt_floor t) as H1.
  rewrite inject_Z_plus in H1. change (inject_Z 1) with 1%Q in H1.
  split; lra.
Qed.

Lemma round_half_even_Z n : round_half_even (inject_Z n) = n.
Proof.
  destruct (round_half_even_cases (inject_Z n)) as [(E & _) | (E & H & _)];
    rewrite Qfloor_Z in *; [exact E|]. lra.
Qed.

Lemma round_half_even_near t :
  (inject_Z (round_half_even t) - (1 # 2) <= t)%Q
  /\ (t <= inject_Z (round_half_even t) + (1 # 2))%Q.
Proof.
  destruct (floor_bounds t) as [H0 H1].
  destruct (round_half_even_cases t) as [(E & H & _) | (E & H & _)];
    rewrite E; rewrite ?inject_Z_plus; change (inject_Z 1) with 1%Q;
    split; lra.
Qed.

Lemma round_half_even_mono x y :
  (x <= y)%Q -> (round_half_even x <= round_half_even y)%Z.
Proof.
  intros Hxy. pose proof (Qfloor_resp_le x y Hxy) as Hf.
  destruct (floor_bounds x) as [X0 X1]. destruct (floor_bounds y) as [Y0 Y1].
  destruct (round_half_even_cases x) as [(Ex & Hx & Tx) | (Ex & Hx & Tx)];
    destruct (round_half_even_cases y) as [(Ey & Hy & Ty) | (Ey & Hy & Ty)];
    rewrite Ex, Ey; try lia.
  destruct (Z.eq_dec (Qfloor x) (Qfloor y)) as [F|F]; [|lia].
  exfalso. rewrite F in *.
  assert (x - inject_Z (Qfloor y) == 1 # 2)%Q as Rx by lra.
  assert (y - inject_Z (Qfloor y) == 1 # 2)%Q as Ry by lra.
  specialize (Tx Rx). specialize (Ty Ry). congruence.
Qed.

Lemma round_half_even_le_Z t n :
  (t <= inject_Z n)%Q -> (round_half_even t <= n)%Z.
Proof.
  intros H. rewrite <- (round_half_even_Z n). now apply round_half_even_mono.
Qed.

Lemma round_half_even_ge_Z t n :
  (inject_Z n <= t)%Q -> (n <= round_half_even t)%Z.
Proof.
  intros H. rewrite <- (round_half_even_Z n). now apply round_half_even_mono.
Qed.


(** *** Rounding a positive number to 53 bits *)

Lemma ulp_exponent_comp q q' :
  (0 < q)%Q -> (q == q')%Q -> ulp_exponent q = ulp_exponent q'.
Proof. intros H E. unfold ulp_exponent. now rewrite (ilog2_comp q q'). Qed.

Lemma ulp_exponent_mono x y :
  (0 < x)%Q -> (x <= y)%Q -> (ulp_exponent x <= ulp_exponent y)%Z.
Proof.
  intros H Hxy. unfold ulp_exponent. pose proof (ilog2_mono x y H Hxy). lia.
Qed.

Lemma ulp_exponent_min q : (-1074 <= ulp_exponent q)%Z.
Proof. unfold ulp_exponent. lia. Qed.

Lemma div_pow2 q e : (q / pow2 e == q * pow2 (- e))%Q.
Proof.
  unfold Qdiv. apply Qmult_comp; [reflexivity|].
  unfold pow2. now rewrite Qpower_opp.
Qed.

Lemma scale_back q e : (q / pow2 e * pow2 e == q)%Q.
Proof. pose proof (pow2_pos e). field. lra. Qed.

Lemma div_pow2_le x y e : (x <= y)%Q -> (x / pow2 e <= y / pow2 e)%Q.
Proof.
  intros H. rewrite !div_pow2. pose proof (pow2_pos (- e)).
  apply Qmult_le_compat_r; lra.
Qed.

(** The scaled value has at most 53 bits in front of the point, and exactly
    53 above the subnormal range. *)
Lemma scaled_lt q :
  (0 < q)%Q -> (q / pow2 (ulp_exponent q) < inject_Z (2 ^ 53))%Q.
Proof.
  intros Hq. destruct (ilog2_spec q Hq) as [_ H].
  apply Qlt_shift_div_r; [apply pow2_pos|].
  rewrite <- pow2_Z, <- pow2_add by lia.
  eapply Qlt_le_trans; [exact H|]. apply pow2_le. unfold ulp_exponent. lia.
Qed.

Lemma scaled_ge q :
  (0 < q)%Q -> (-1074 <= ilog2 q - 52)%Z ->
  (inject_Z (2 ^ 52) <= q / pow2 (ulp_exponent q))%Q.
Proof.
  intros Hq Hn. destruct (ilog2_spec q Hq) as [H _].
  apply Qle_shift_div_l; [apply pow2_pos|].
  rewrite <- pow2_Z, <- pow2_add by lia.
  eapply Qle_trans; [|exact H]. apply pow2_le. unfold ulp_exponent. lia.
Qed.

Lemma round_pos_comp q q' :
  (0 < q)%Q -> (q == q')%Q -> (round_pos q == round_pos q')%Q.
Proof.
  intros H E. unfold round_pos. rewrite (ulp_exponent_comp q q' H E).
  rewrite (round_half_even_comp (q / pow2 (ulp_exponent q'))
             (q' / pow2 (ulp_exponent q'))); [reflexivity|].
  now rewrite E.
Qed.

Lemma round_pos_nonneg q : (0 < q)%Q -> (0 <= round_pos q)%Q.
Proof.
  intros Hq. unfold round_pos. pose proof (pow2_pos (ulp_exponent q)) as P.
  apply Qmult_le_0_compat; [|lra].
  rewrite <- (Zle_Qle 0). apply round_half_even_ge_Z.
  change (inject_Z 0) with 0%Q.
  apply Qle_shift_div_l; [exact P|]. lra.
Qed.

Lemma round_pos_mono x y :
  (0 < x)%Q -> (x <= y)%Q -> (round_pos x <= round_pos y)%Q.
Proof.
  intros Hx Hxy. assert (0 < y)%Q as Hy by lra.
  pose proof (ulp_exponent_mono x y Hx Hxy) as He.
  unfold round_pos.
  set (ex := ulp_exponent x) in *. set (ey := ulp_exponent y) in *.
  pose proof (pow2_pos ex) as Px. pose proof (pow2_pos ey) as Py.
  destruct (Z.eq_dec ex ey) as [E|E].
  - rewrite E. apply Qmult_le_compat_r; [|lra].
    rewrite <- Zle_Qle. apply round_half_even_mono. now apply div_pow2_le.
  - assert (ex < ey)%Z as Hlt by lia.
    assert (-1074 <= ilog2 y - 52)%Z as Hn.
    { unfold ey, ulp_exponent in Hlt. pose proof (ulp_exponent_min x).
      fold ex in H. lia. }
    pose proof (scaled_ge y Hy Hn) as Gy. fold ey in Gy.
    pose proof (scaled_lt x Hx) as Lx. fold ex in Lx.
    apply round_half_even_ge_Z in Gy.
    apply Qlt_le_weak, round_half_even_le_Z in Lx.
    rewrite Zle_Qle in Gy, Lx.
    apply Qle_trans with (inject_Z (2 ^ 53) * pow2 ex)%Q;
      [apply Qmult_le_compat_r; lra|].
    apply Qle_trans with (inject_Z (2 ^ 52) * pow2 ey)%Q;
      [|apply Qmult_le_compat_r; lra].
    rewrite <- !pow2_Z, <- !pow2_add by lia. apply pow2_le. lia.
Qed.

(** A number with at most 53 significant bits, not finer than the
    subnormal grid, is a float: rounding leaves it alone. *)
Lemma round_pos_exact q m e :
  (0 < m < 2 ^ 53)%Z -> (-1074 <= e)%Z ->
  (q == inject_Z m * pow2 e)%Q -> (round_pos q == q)%Q.
Proof.
  intros [Hm0 Hm1] He E.
  assert (0 < inject_Z m)%Q as M0
    by (change 0%Q with (inject_Z 0); now rewrite <- Zlt_Qlt).
  assert (inject_Z m < inject_Z (2 ^ 53))%Q as M1 by (now rewrite <- Zlt_Qlt).
  pose proof (pow2_pos e) as Pe.
  assert (0 < q)%Q as Hq by (rewrite E; nra).
  destruct (ilog2_spec q Hq) as [S1 _].
  assert (q < pow2 (53 + e))%Q as Hlt.
  { rewrite E, pow2_add, (pow2_Z 53) by lia. apply Qmult_lt_compat_r; lra. }
  assert (ilog2 q < 53 + e)%Z as Hl by (apply pow2_lt_inv; lra).
  assert (ulp_exponent q <= e)%Z as Hu by (unfold ulp_exponent; lia).
  unfold round_pos. set (u := ulp_exponent q) in *.
  assert (q / pow2 u == inject_Z (m * 2 ^ (e - u)))%Q as Es.
  { rewrite inject_Z_mult, <- pow2_Z by lia. rewrite E.
    rewrite <- (pow2_mul_cancel u e). pose proof (pow2_pos u). field. lra. }
  rewrite (round_half_even_comp _ _ Es), round_half_even_Z.
  rewrite <- Es. apply scale_back.
Qed.

(** The rounding error is at most half a unit in the last place. *)
Lemma round_pos_error q :
  (0 < q)%Q ->
  (Qabs (round_pos q - q) <= pow2 (ulp_exponent q) / 2)%Q.
Proof.
  intros Hq. unfold round_pos. set (u := ulp_exponent q).
  pose proof (pow2_pos u) as P.
  destruct (round_half_even_near (q / pow2 u)) as [H1 H2].
  pose proof (scale_back q u) as B. fold u in B.
  revert H1 H2 B. generalize (inject_Z (round_half_even (q / pow2 u))).
  generalize (q / pow2 u)%Q. intros t r H1 H2 B.
  assert (pow2 u / 2 == (1 # 2) * pow2 u)%Q as -> by field.
  assert (r * pow2 u - q == (r - t) * pow2 u)%Q as -> by (rewrite <- B; ring).
  revert P. generalize (pow2 u). intros p P.
  apply Qabs_Qle_condition. split; nra.
Qed.


(** *** Rounding any number *)

Lemma round64_pos q : (0 < q)%Q -> round64 q = round_pos q.
Proof.
  intros H. unfold round64. destruct (q ?= 0)%Q eqn:C; [| |reflexivity].
  - apply Qeq_alt in C. lra.
  - apply Qlt_alt in C. lra.
Qed.

Lemma round64_neg q : (q < 0)%Q -> round64 q = (- round_pos (- q))%Q.
Proof.
  intros H. unfold round64. destruct (q ?= 0)%Q eqn:C; [|reflexivity|].
  - apply Qeq_alt in C. lra.
  - apply Qgt_alt in C. lra.
Qed.

Lemma round64_zero q : (q == 0)%Q -> round64 q = 0%Q.
Proof.
  intros H. unfold round64. destruct (q ?= 0)%Q eqn:C; [reflexivity| |].
  - apply Qlt_alt in C. lra.
  - apply Qgt_alt in C. lra.
Qed.

Lemma sign_cases q : (q < 0)%Q \/ (q == 0)%Q \/ (0 < q)%Q.
Proof.
  destruct (Qlt_le_dec q 0) as [H|H]; [now left|].
  destruct (Qlt_le_dec 0 q) as [H'|H']; [now right; right|].
  right; left. lra.
Qed.

Lemma round64_comp q q' : (q == q')%Q -> (round64 q == round64 q')%Q.
Proof.
  intros E. destruct (sign_cases q) as [H | [H | H]].
  - rewrite (round64_neg q H), (round64_neg q') by lra.
    apply Qopp_comp, round_pos_comp; [lra | now rewrite E].
  - rewrite (round64_zero q H), (round64_zero q') by lra. reflexivity.
  - rewrite (round64_pos q H), (round64_pos q') by lra.
    now apply round_pos_comp.
Qed.

#[export] Instance round64_proper : Proper (Qeq ==> Qeq) round64.
Proof. intros q q' E. now apply round64_comp. Qed.

Lemma round64_opp q : (round64 (- q) == - round64 q)%Q.
Proof.
  destruct (sign_cases q) as [H | [H | H]].
  - rewrite (round64_neg q H), (round64_pos (- q)) by lra. ring.
  - rewrite (round64_zero q H), (round64_zero (- q)) by lra. reflexivity.
  - rewrite (round64_pos q H), (round64_neg (- q)) by lra.
    apply Qopp_comp, round_pos_comp; [lra | ring].
Qed.

Lemma round64_nonneg q : (0 <= q)%Q -> (0 <= round64 q)%Q.
Proof.
  intros H. destruct (sign_cases q) as [H' | [H' | H']]; [lra| |].
  - rewrite (round64_zero q H'). lra.
  - rewrite (round64_pos q H'). now apply round_pos_nonneg.
Qed.

Lemma round64_nonpos q : (q <= 0)%Q -> (round64 q <= 0)%Q.
Proof.
  intros H. pose proof (round64_nonneg (- q) ltac:(lra)) as H'.
  rewrite round64_opp in H'. lra.
Qed.

(** Rounding keeps the order. *)
Lemma round64_mono x y : (x <= y)%Q -> (round64 x <= round64 y)%Q.
Proof.
  intros Hxy. destruct (sign_cases x) as [Hx | [Hx | Hx]].
  - destruct (Qlt_le_dec y 0) as [Hy|Hy].
    + rewrite (round64_neg x Hx), (round64_neg y Hy).
      apply Qopp_le_compat, round_pos_mono; lra.
    + pose proof (round64_nonpos x ltac:(lra)).
      pose proof (round64_nonneg y Hy). lra.
  - rewrite (round64_zero x Hx). apply round64_nonneg. lra.
  - rewrite (round64_pos x Hx), (round64_pos y) by lra.
    now apply round_pos_mono.
Qed.

Lemma round64_exact q : representable q -> (round64 q == q)%Q.
Proof.
  intros (m & e & Hm & He & E). pose proof (pow2_pos e) as P.
  destruct (Z.lt_trichotomy m 0) as [H | [H | H]].
  - assert (inject_Z m < 0)%Q
      by (change 0%Q with (inject_Z 0); now rewrite <- Zlt_Qlt).
    assert (q < 0)%Q as Hq by (rewrite E; nra).
    rewrite (round64_neg q Hq).
    rewrite (round_pos_exact (- q) (- m) e); [ring | lia | exact He |].
    rewrite E, inject_Z_opp. ring.
  - subst m. rewrite round64_zero; rewrite E; ring.
  - assert (0 < inject_Z m)%Q
      by (change 0%Q with (inject_Z 0); now rewrite <- Zlt_Qlt).
    assert (0 < q)%Q as Hq by (rewrite E; nra).
    rewrite (round64_pos q Hq).
    apply (round_pos_exact q m e); [lia | exact He | exact E].
Qed.

Lemma representable_int n : (Z.abs n <= 2 ^ 53)%Z -> representable (inject_Z n).
Proof.
  intros H. destruct (Z.eq_dec (Z.abs n) (2 ^ 53)) as [E|E].
  - exists (n / 2)%Z, 1%Z. split; [|split; [lia|]].
    + destruct (Z.abs_spec n) as [[_ A]|[_ A]]; rewrite A in E.
      * rewrite E. vm_compute. reflexivity.
      * assert (n = - 2 ^ 53)%Z as -> by lia. vm_compute. reflexivity.
    + assert (n = 2 * (n / 2))%Z as E2.
      { destruct (Z.abs_spec n) as [[_ A]|[_ A]]; rewrite A in E.
        - rewrite E. reflexivity.
        - assert (n = - 2 ^ 53)%Z as -> by lia. reflexivity. }
      rewrite E2 at 1. rewrite inject_Z_mult.
      change (pow2 1) with 2%Q. change (inject_Z 2) with 2%Q. ring.
  - exists n, 0%Z. split; [lia|]. split; [lia|]. rewrite pow2_0. ring.
Qed.

(** Integers up to [2^53] in size are floats. *)
Lemma round64_int n :
  (Z.abs n <= 2 ^ 53)%Z -> (round64 (inject_Z n) == inject_Z n)%Q.
Proof. intros H. now apply round64_exact, representable_int. Qed.

Lemma representable_round_pos q : (0 < q)%Q -> representable (round_pos q).
Proof.
  intros Hq. unfold round_pos. set (u := ulp_exponent q).
  pose proof (scaled_lt q Hq) as L. fold u in L.
  apply Qlt_le_weak, round_half_even_le_Z in L.
  assert (0 <= round_half_even (q / pow2 u))%Z as G.
  { apply round_half_even_ge_Z. change (inject_Z 0) with 0%Q.
    apply Qle_shift_div_l; [apply pow2_pos | lra]. }
  set (m := round_half_even (q / pow2 u)) in *.
  destruct (Z.eq_dec m (2 ^ 53)) as [E|E].
  - exists (2 ^ 52)%Z, (u + 1)%Z. split; [reflexivity|].
    split; [pose proof (ulp_exponent_min q); fold u in H; lia|].
    rewrite E, pow2_add. change (pow2 1) with 2%Q.
    change (inject_Z (2 ^ 53)) with (2 * inject_Z (2 ^ 52))%Q at 1.
    ring_simplify. reflexivity.
  - exists m, u. split; [lia|]. split; [apply ulp_exponent_min | reflexivity].
Qed.

Lemma representable_opp q : representable q -> representable (- q).
Proof.
  intros (m & e & Hm & He & E). exists (- m)%Z, e.
  split; [lia|]. split; [exact He|]. rewrite E, inject_Z_opp. ring.
Qed.

Lemma representable_comp q q' : (q == q')%Q -> representable q -> representable q'.
Proof. intros E (m & e & Hm & He & E'). exists m, e. now rewrite <- E. Qed.

Lemma representable_round64 q : representable (round64 q).
Proof.
  destruct (sign_cases q) as [H | [H | H]].
  - rewrite (round64_neg q H). apply representable_opp, representable_round_pos.
    lra.
  - rewrite (round64_zero q H). exists 0%Z, 0%Z. split; [reflexivity|].
    split; [lia | reflexivity].
  - rewrite (round64_pos q H). now apply representable_round_pos.
Qed.

(** Rounding twice is rounding once. *)
Lemma round64_idem q : (round64 (round64 q) == round64 q)%Q.
Proof. apply round64_exact, representable_round64. Qed.

(** No float lies strictly between a number and its rounding. *)
Lemma round64_nearest_below f q :
  representable f -> (f < round64 q)%Q -> (f <= q)%Q.
Proof.
  intros Hf H. destruct (Qlt_le_dec q f) as [C|C]; [|exact C].
  pose proof (round64_mono q f ltac:(lra)) as M.
  rewrite (round64_exact f Hf) in M. lra.
Qed.

Lemma round64_nearest_above f q :
  representable f -> (round64 q < f)%Q -> (q <= f)%Q.
Proof.
  intros Hf H. destruct (Qlt_le_dec f q) as [C|C]; [|exact C].
  pose proof (round64_mono f q ltac:(lra)) as M.
  rewrite (round64_exact f Hf) in M. lra.
Qed.

Lemma round64_le_float q f :
  representable f -> (q <= f)%Q -> (round64 q <= f)%Q.
Proof.
  intros Hf H. rewrite <- (round64_exact f Hf). now apply round64_mono.
Qed.

Lemma round64_ge_float q f :
  representable f -> (f <= q)%Q -> (f <= round64 q)%Q.
Proof.
  intros Hf H. rewrite <- (round64_exact f Hf). now apply round64_mono.
Qed.

(** Above the subnormal range the error is at most [2^-53] of the value. *)
Lemma round64_relative q :
  (pow2 (-1022) <= q)%Q ->
  (Qabs (round64 q - q) <= q * pow2 (-53))%Q.
Proof.
  intros Hq. pose proof (pow2_pos (-1022)) as P.
  assert (0 < q)%Q as H0 by lra.
  rewrite (round64_pos q H0).
  eapply Qle_trans; [apply round_pos_error; exact H0|].
  destruct (ilog2_spec q H0) as [S1 _].
  assert (-1022 <= ilog2 q)%Z as Hl.
  { assert (-1022 < ilog2 q + 1)%Z; [|lia]. apply pow2_lt_inv.
    destruct (ilog2_spec q H0) as [_ S2]. lra. }
  assert (ulp_exponent q = ilog2 q - 52)%Z as -> by (unfold ulp_exponent; lia).
  replace (ilog2 q - 52)%Z with (ilog2 q + (-52))%Z by lia.
  rewrite pow2_add.
  assert (pow2 (-52) / 2 == pow2 (-53))%Q as E by reflexivity.
  assert (pow2 (ilog2 q) * pow2 (-52) / 2 == pow2 (ilog2 q) * pow2 (-53))%Q
    as -> by (rewrite <- E; field).
  pose proof (pow2_pos (-53)). apply Qmult_le_compat_r; lra.
Qed.

Lemma Qfloor_nonneg (y : Q) : (0 <= y)%Q -> (0 <= Qfloor y)%Z.
Proof. intros H. rewrite <- (Qfloor_Z 0). now apply Qfloor_resp_le. Qed.

Lemma Qfloor_le_Z (y : Q) (k : Z) : (y <= inject_Z k)%Q -> (Qfloor y <= k)%Z.
Proof. intros H. rewrite <- (Qfloor_Z k). now apply Qfloor_resp_le. Qed.

Lemma int_of_float_nonneg (y : Q) : (0 <= y)%Q -> int_of_float y = Qfloor y.
Proof.
  intros H. unfold int_of_float. apply Qle_bool_iff in H. now rewrite H.
Qed.

Lemma ltb_true x y : ltb x y = true <-> (x < y)%Q.
Proof.
  unfold ltb. rewrite negb_true_iff. split.
  - intros H. apply Qnot_le_lt. intros C. apply Qle_bool_iff in C. congruence.
  - intros H. destruct (Qle_bool y x) eqn:C; [|reflexivity].
    apply Qle_bool_iff in C. lra.
Qed.

Lemma ltb_false x y : ltb x y = false <-> (y <= x)%Q.
Proof.
  unfold ltb. rewrite negb_false_iff. apply Qle_bool_iff.
Qed.

Lemma fl_inv q r :
  fl q = Some r -> r = round64 q /\ (Qabs (round64 q) < pow2 1024)%Q.
Proof.
  unfold fl. destruct (Qle_bool (pow2 1024) (Qabs (round64 q))) eqn:C;
    [discriminate|].
  intros H. inversion H; subst. split; [reflexivity|].
  apply Qnot_le_lt. intros L. apply Qle_bool_iff in L. congruence.
Qed.

(** Between two floats of finite size the rounded value is a float. *)
Lemma fl_between q lo hi :
  representable lo -> representable hi ->
  (- pow2 1024 < lo)%Q -> (hi < pow2 1024)%Q ->
  (lo <= q)%Q -> (q <= hi)%Q ->
  fl q = Some (round64 q) /\ (lo <= round64 q)%Q /\ (round64 q <= hi)%Q.
Proof.
  intros Rl Rh Bl Bh Hl Hh.
  pose proof (round64_ge_float q lo Rl Hl) as G.
  pose proof (round64_le_float q hi Rh Hh) as L.
  split; [|now split]. unfold fl.
  destruct (Qle_bool (pow2 1024) (Qabs (round64 q))) eqn:C; [|reflexivity].
  apply Qle_bool_iff in C. exfalso.
  assert (Qabs (round64 q) < pow2 1024)%Q; [|lra].
  apply Qabs_case; intros; lra.
Qed.

Lemma int_of_float_comp (x y : Q) :
  (x == y)%Q -> int_of_float x = int_of_float y.
Proof.
  intros E. unfold int_of_float.
  assert (Qle_bool 0 x = Qle_bool 0 y) as ->.
  { destruct (Qle_bool 0 x) eqn:Cx; destruct (Qle_bool 0 y) eqn:Cy; trivial.
    - apply Qle_bool_iff in Cx. rewrite E in Cx. apply Qle_bool_iff in Cx.
      congruence.
    - apply Qle_bool_iff in Cy. rewrite <- E in Cy. apply Qle_bool_iff in Cy.
      congruence. }
  now rewrite (Qfloor_comp _ _ E), (Qceiling_comp _ _ E).
Qed.

End Float64Facts.

(** ** utils.py: clock strings *)

Module UtilsFacts.

Import PyStr PyStrFacts Utils.
Open Scope string_scope.

(** On an [int] the arithmetic of [format_time] is integer division. *)
Lemma format_time_int (s : Z) :
  format_time (PyInt s)
  = if (0 <? s / 60 / 60)%Z then
      str_of_int (s / 60 / 60) ++ ":" ++ format_02d (s / 60 mod 60)
        ++ ":" ++ format_02d (s mod 60)
    else str_of_int (s / 60 mod 60) ++ ":" ++ format_02d (s mod 60).
Proof. reflexivity. Qed.

Lemma str_of_int_nonneg n : (0 <= n)%Z -> str_of_int n = digits n.
Proof. intros H. unfold str_of_int. destruct (Z.ltb_spec n 0); [lia|reflexivity]. Qed.

Lemma colon_app (x : string) : ":" ++ x = String ":" x.
Proof. reflexivity. Qed.

(** The round trip holds for every non-negative [int], whatever the hour. *)
Lemma convert_format_nonneg (s : Z) :
  (0 <= s)%Z -> convert_time_to_seconds (format_time (PyInt s)) = Ok s.
Proof.
  intros Hs. rewrite format_time_int, !colon_app.
  assert (0 <= s / 60)%Z as Hm by (apply Z.div_pos; lia).
  assert (0 <= s / 60 / 60)%Z as Hh by (apply Z.div_pos; lia).
  pose proof (Z.mod_pos_bound s 60 ltac:(lia)) as Hsec.
  pose proof (Z.mod_pos_bound (s / 60) 60 ltac:(lia)) as Hmin.
  unfold convert_time_to_seconds.
  destruct (Z.ltb_spec 0 (s / 60 / 60)) as [Hpos|Hzero].
  - rewrite str_of_int_nonneg by lia.
    rewrite (@split_digits_then ":" _ _ colon_not_digit (all_digit_digits _ Hh)).
    rewrite (@split_digits_then ":" _ _ colon_not_digit)
      by (apply all_digit_format_02d; lia).
    rewrite (@split_no_sep ":" _ colon_not_digit)
      by (apply all_digit_format_02d; lia).
    cbn [List.length Nat.eqb].
    rewrite py_int_digits by lia. cbn [bind].
    rewrite !py_int_format_02d by lia. cbn [bind].
    f_equal. pose proof (Z.div_mod s 60). pose proof (Z.div_mod (s / 60) 60). lia.
  - rewrite str_of_int_nonneg by lia.
    rewrite (@split_digits_then ":" _ _ colon_not_digit)
      by (apply all_digit_digits; lia).
    rewrite (@split_no_sep ":" _ colon_not_digit)
      by (apply all_digit_format_02d; lia).
    cbn [List.length Nat.eqb].
    rewrite py_int_digits by lia. cbn [bind].
    rewrite py_int_format_02d by lia. cbn [bind].
    f_equal. pose proof (Z.div_mod s 60). pose proof (Z.div_mod (s / 60) 60). lia.
Qed.

(** C7. For every non-negative integer [s] below 24 hours (86400 seconds),
    [convert_time_to_seconds(format_time(s))] returns [s]. *)
Theorem convert_format_roundtrip (s : Z) :
  (0 <= s < 86400)%Z ->
  convert_time_to_seconds (format_time (PyInt s)) = Ok s.
Proof. intros [H _]. now apply convert_format_nonneg. Qed.

Lemma convert_format_roundtrip_witness :
  (0 <= 3661 < 86400)%Z
  /\ format_time (PyInt 3661) = "1:01:01"
  /\ convert_time_to_seconds (format_time (PyInt 3661)) = Ok 3661%Z.
Proof.
  split; [lia|]. split; [reflexivity|].
  apply (convert_format_roundtrip 3661). lia.
Defined.

(** C10. Whenever splitting the input on [':'] gives neither exactly two
    nor exactly three parts, [convert_time_to_seconds] raises [ValueError];
    it returns no number. *)
Theorem convert_rejects_other_part_counts (time_str : string) :
  List.length (split ":" time_str) <> 2%nat ->
  List.length (split ":" time_str) <> 3%nat ->
  convert_time_to_seconds time_str = Raise ValueError.
Proof.
  intros H2 H3. unfold convert_time_to_seconds.
  destruct (Nat.eqb_spec (List.length (split ":" time_str)) 3); [contradiction|].
  destruct (Nat.eqb_spec (List.length (split ":" time_str)) 2); [contradiction|].
  reflexivity.
Qed.

Lemma convert_rejects_other_part_counts_witness :
  split ":" "1:2:3:4" = ["1"; "2"; "3"; "4"]
  /\ convert_time_to_seconds "1:2:3:4" = Raise ValueError.
Proof.
  split; [reflexivity|].
  apply (@convert_rejects_other_part_counts "1:2:3:4"); vm_compute; discriminate.
Defined.

End UtilsFacts.

(** ** Facts about the stable sort and the slice *)

Module PyListFacts.

Import PyList.

Section StableSort.
Variable A : Type.
Variable lt : A -> A -> bool.
Hypothesis lt_asym : forall x y, lt x y = true -> lt y x = false.
Hypothesis lt_negtrans :
  forall x y z, lt x y = false -> lt y z = false -> lt x z = false.

Lemma lt_trans x y z : lt x y = true -> lt y z = true -> lt x z = true.
Proof.
  intros Hxy Hyz. destruct (lt x z) eqn:E; [reflexivity|].
  pose proof (lt_asym _ _ Hyz) as Hzy.
  rewrite (lt_negtrans _ _ _ E Hzy) in Hxy. discriminate.
Qed.

Lemma le_trans x y z : le lt x y -> le lt y z -> le lt x z.
Proof. unfold le. intros Hxy Hyz. exact (lt_negtrans _ _ _ Hyz Hxy). Qed.

Lemma insert_perm x l : Permutation (insert lt x l) (x :: l).
Proof.
  induction l as [|y l IH]; simpl; [reflexivity|].
  destruct (lt y x); [|reflexivity].
  rewrite IH. apply perm_swap.
Qed.

Lemma sort_perm l : Permutation (sort_asc lt l) l.
Proof.
  induction l as [|x l IH]; simpl; [reflexivity|].
  rewrite insert_perm. now constructor.
Qed.

Lemma sort_length l : List.length (sort_asc lt l) = List.length l.
Proof. apply Permutation_length, sort_perm. Qed.

Lemma sort_Forall (P : A -> Prop) l : Forall P l -> Forall P (sort_asc lt l).
Proof. apply Permutation_Forall, Permutation_sym, sort_perm. Qed.

Lemma insert_sorted x l :
  StronglySorted (le lt) l -> StronglySorted (le lt) (insert lt x l).
Proof.
  induction 1 as [|y l Hs IH Hy]; simpl.
  - repeat constructor.
  - destruct (lt y x) eqn:E.
    + constructor; [exact IH|].
      apply (Permutation_Forall (Permutation_sym (insert_perm x l))).
      constructor; [exact (lt_asym _ _ E) | exact Hy].
    + constructor; [now constructor|].
      constructor; [exact E|].
      eapply Forall_impl; [|exact Hy].
      intros z Hz. exact (le_trans _ _ _ E Hz).
Qed.

Lemma sort_sorted l : StronglySorted (le lt) (sort_asc lt l).
Proof.
  induction l as [|x l IH]; simpl; [constructor | now apply insert_sorted].
Qed.

Lemma insert_front x l : Forall (le lt x) l -> insert lt x l = x :: l.
Proof.
  destruct l as [|y l]; simpl; [reflexivity|].
  intros H. inversion H as [|? ? Hy _]; subst.
  unfold le in Hy. now rewrite Hy.
Qed.

(** Sorting a list that is already in order changes nothing. *)
Lemma sort_of_sorted l : StronglySorted (le lt) l -> sort_asc lt l = l.
Proof.
  induction 1 as [|x l Hs IH Hx]; simpl; [reflexivity|].
  rewrite IH. now apply insert_front.
Qed.

Lemma insert_comm x a l :
  lt x a = true ->
  insert lt a (insert lt x l) = insert lt x (insert lt a l).
Proof.
  intros Hxa. pose proof (lt_asym _ _ Hxa) as Hax.
  induction l as [|y l IH]; simpl.
  - now rewrite Hxa, Hax.
  - destruct (lt y x) eqn:Eyx.
    + rewrite (lt_trans _ _ _ Eyx Hxa). simpl.
      rewrite (lt_trans _ _ _ Eyx Hxa), Eyx. now rewrite IH.
    + simpl. rewrite Hxa.
      destruct (lt y a) eqn:Eya; simpl.
      * now rewrite Eyx.
      * now rewrite Hax.
Qed.

(** An item smaller than everything in front of it can be inserted last. *)
Lemma sort_insert_middle front x back :
  Forall (fun a => lt x a = true) front ->
  sort_asc lt (front ++ x :: back) = insert lt x (sort_asc lt (front ++ back)).
Proof.
  induction 1 as [|a front Ha _ IH]; simpl; [reflexivity|].
  rewrite IH. now apply insert_comm.
Qed.

Lemma insert_split x l :
  exists front back,
    l = front ++ back /\ insert lt x l = front ++ x :: back
    /\ Forall (fun y => lt y x = true) front.
Proof.
  induction l as [|y l (front & back & E1 & E2 & HF)]; simpl.
  - exists [], []. repeat split. constructor.
  - destruct (lt y x) eqn:E.
    + exists (y :: front), back. simpl. rewrite E2, <- E1.
      repeat split. now constructor.
    + exists [], (y :: l). repeat split. constructor.
Qed.

Lemma filter_insert (p : A -> bool) a l :
  (forall y, lt y a = true -> p a = true -> p y = false) ->
  filter p (insert lt a l) = if p a then a :: filter p l else filter p l.
Proof.
  intros Hp. induction l as [|y l IH]; simpl.
  - destruct (p a); reflexivity.
  - destruct (lt y a) eqn:E; simpl.
    + rewrite IH. destruct (p a) eqn:Ea.
      * now rewrite (Hp _ E eq_refl).
      * reflexivity.
    + destruct (p a); reflexivity.
Qed.

(** Stability: the items that share the key of [x] come out of the sort
    in the order they went in. *)
Lemma sort_stable x l :
  filter (same lt x) (sort_asc lt l) = filter (same lt x) l.
Proof.
  induction l as [|a l IH]; simpl; [reflexivity|].
  rewrite filter_insert, IH; [reflexivity|].
  intros y Hya Hxa. unfold same in *.
  apply andb_true_iff in Hxa. destruct Hxa as [Hxa Hax].
  apply negb_true_iff in Hxa. apply negb_true_iff in Hax.
  assert (lt y x = true) as Hyx.
  { destruct (lt y x) eqn:E; [reflexivity|].
    rewrite (lt_negtrans _ _ _ E Hxa) in Hya. discriminate. }
  rewrite Hyx. apply andb_false_r.
Qed.
End StableSort.


Section TwoKeys.
Variable A : Type.
(** [lt1] ranks, [lt2] then puts in final order. *)
Variables lt1 lt2 : A -> A -> bool.
Hypothesis lt2_asym : forall x y, lt2 x y = true -> lt2 y x = false.
Hypothesis lt2_negtrans :
  forall x y z, lt2 x y = false -> lt2 y z = false -> lt2 x z = false.

Lemma insert_lex x l :
  Forall (le lt1 x) l -> StronglySorted (lexle lt1 lt2) l ->
  StronglySorted (lexle lt1 lt2) (insert lt2 x l).
Proof.
  intros Hx Hs. induction Hs as [|y l Hs IH Hy]; simpl.
  - repeat constructor.
  - inversion Hx as [|? ? Hxy Hxl]; subst.
    destruct (lt2 y x) eqn:E.
    + constructor; [now apply IH|].
      apply (Permutation_Forall (Permutation_sym (insert_perm _ lt2 x l))).
      constructor; [|exact Hy].
      split; [exact (lt2_asym _ _ E) | congruence].
    + constructor; [now constructor|].
      constructor; [split; [exact E | now intros _]|].
      rewrite Forall_forall in *. intros z Hz. split.
      * exact (le_trans _ lt2 lt2_negtrans _ _ _ E (proj1 (Hy z Hz))).
      * intros _. now apply Hxl.
Qed.

(** Sorting by the second key a list ranked by the first. *)
Lemma sort_lex l :
  StronglySorted (le lt1) l -> StronglySorted (lexle lt1 lt2) (sort_asc lt2 l).
Proof.
  induction 1 as [|x l Hs IH Hx]; simpl; [constructor|].
  apply insert_lex; [|exact IH]. now apply sort_Forall.
Qed.

(** Ranking and re-ordering a list that is already in that double order
    gives it back. *)
Lemma sort_sort_lex l :
  StronglySorted (lexle lt1 lt2) l -> sort_asc lt2 (sort_asc lt1 l) = l.
Proof.
  induction 1 as [|x l Hs IH Hx]; simpl; [reflexivity|].
  destruct (insert_split _ lt1 x (sort_asc lt1 l))
    as (front & back & E1 & E2 & HF).
  rewrite E2.
  assert (Forall (lexle lt1 lt2 x) (front ++ back)) as Hall
    by (rewrite <- E1; now apply sort_Forall).
  rewrite (sort_insert_middle _ lt2 lt2_asym lt2_negtrans).
  - rewrite <- E1, IH. apply insert_front.
    eapply Forall_impl; [|exact Hx]. intros z [Hz _]. exact Hz.
  - apply Forall_app in Hall. destruct Hall as [Hfront _].
    rewrite Forall_forall in *. intros y Hy.
    destruct (Hfront y Hy) as [_ H2]. specialize (HF y Hy).
    destruct (lt2 x y) eqn:E; [reflexivity|].
    unfold le in H2. rewrite (H2 eq_refl) in HF. discriminate.
Qed.
End TwoKeys.

Lemma sort_stable_on {A : Type} (lt : A -> A -> bool) (p : A -> bool) l :
  (forall a y, p a = true -> p y = true -> lt y a = false) ->
  filter p (sort_asc lt l) = filter p l.
Proof.
  intros Hp. induction l as [|a l IH]; simpl; [reflexivity|].
  rewrite filter_insert, IH; [reflexivity|].
  intros y Hya Ha. destruct (p y) eqn:Ey; [|reflexivity].
  rewrite (Hp _ _ Ha Ey) in Hya. discriminate.
Qed.

Lemma filter_all {A : Type} (p : A -> bool) l :
  Forall (fun x => p x = true) l -> filter p l = l.
Proof.
  induction 1 as [|x l Hx _ IH]; simpl; [reflexivity|]. now rewrite Hx, IH.
Qed.

Lemma filter_map_comm {A B : Type} (f : A -> B) (p : B -> bool) l :
  filter p (map f l) = map f (filter (fun x => p (f x)) l).
Proof.
  induction l as [|x l IH]; simpl; [reflexivity|].
  destruct (p (f x)); simpl; now rewrite IH.
Qed.

Lemma filter_filter {A : Type} (p q : A -> bool) l :
  filter q (filter p l) = filter (fun x => p x && q x) l.
Proof.
  induction l as [|x l IH]; simpl; [reflexivity|].
  destruct (p x); simpl; [destruct (q x); now rewrite IH | exact IH].
Qed.

Lemma map_id_on {A : Type} (f : A -> A) l :
  Forall (fun x => f x = x) l -> map f l = l.
Proof.
  induction 1 as [|x l Hx _ IH]; simpl; [reflexivity|]. now rewrite Hx, IH.
Qed.

Lemma slice_to_length {A : Type} (n : Z) (l : list A) :
  (0 <= n)%Z -> (Z.of_nat (List.length (slice_to n l)) <= n)%Z.
Proof.
  intros Hn. unfold slice_to. destruct (Z.leb_spec 0 n); [|lia].
  pose proof (firstn_le_length (Z.to_nat n) l). rewrite length_firstn. lia.
Qed.

Lemma slice_to_prefix {A : Type} (n : Z) (l : list A) :
  exists rest, l = slice_to n l ++ rest.
Proof.
  unfold slice_to. destruct (0 <=? n)%Z.
  - exists (skipn (Z.to_nat n) l). now rewrite firstn_skipn.
  - exists (skipn (List.length l - Z.to_nat (- n)) l). now rewrite firstn_skipn.
Qed.

Lemma slice_to_all {A : Type} (n : Z) (l : list A) :
  (Z.of_nat (List.length l) <= n)%Z -> slice_to n l = l.
Proof.
  intros H. unfold slice_to. destruct (Z.leb_spec 0 n); [|lia].
  apply firstn_all2. lia.
Qed.

Lemma slice_to_Forall {A : Type} (P : A -> Prop) (n : Z) (l : list A) :
  Forall P l -> Forall P (slice_to n l).
Proof.
  intros H. destruct (slice_to_prefix n l) as [rest E].
  rewrite E in H. now apply Forall_app in H.
Qed.

Lemma slice_to_sorted {A : Type} (R : A -> A -> Prop) (n : Z) (l : list A) :
  StronglySorted R l -> StronglySorted R (slice_to n l).
Proof.
  intros H. destruct (slice_to_prefix n l) as [rest E].
  rewrite E in H. clear E. induction (slice_to n l) as [|x p IH].
  - constructor.
  - simpl in H. inversion H as [|? ? Hs Hx]; subst.
    constructor; [now apply IH|]. now apply Forall_app in Hx.
Qed.

End PyListFacts.

(** ** Comparison of seconds *)

Module QFacts.

Import ContentAnalysis.
Open Scope Q_scope.

Lemma Qltb_true x y : Qltb x y = true <-> x < y.
Proof.
  unfold Qltb. rewrite negb_true_iff. split; intros H.
  - apply Qnot_le_lt. intros Hle. apply Qle_bool_iff in Hle. congruence.
  - destruct (Qle_bool y x) eqn:E; [|reflexivity].
    apply Qle_bool_iff in E. lra.
Qed.

Lemma Qltb_false x y : Qltb x y = false <-> y <= x.
Proof.
  unfold Qltb. rewrite negb_false_iff. apply Qle_bool_iff.
Qed.

End QFacts.

(** ** The segment selector *)

Module SelectorFacts.

Import PyStr PyList ContentAnalysis Policy PyStrFacts PyListFacts QFacts.
Open Scope Q_scope.

Lemma StronglySorted_map {A B : Type} (R : A -> A -> Prop) (R' : B -> B -> Prop)
    (f : A -> B) l :
  (forall x y, R x y -> R' (f x) (f y)) ->
  StronglySorted R l -> StronglySorted R' (map f l).
Proof.
  intros HR. induction 1 as [|x l Hs IH Hx]; simpl; constructor; [exact IH|].
  apply Forall_map. eapply Forall_impl; [|exact Hx]. intros y. apply HR.
Qed.

Section AnyMode.
Variable A : Type.
Variable M : Mode A.

Lemma score_desc_asym x y : score_desc M x y = true -> score_desc M y x = false.
Proof.
  unfold score_desc, by_score. intros H. apply Nat.ltb_lt in H.
  apply Nat.ltb_ge. lia.
Qed.

Lemma score_desc_negtrans x y z :
  score_desc M x y = false -> score_desc M y z = false -> score_desc M x z = false.
Proof.
  unfold score_desc, by_score. rewrite !Nat.ltb_ge. lia.
Qed.

Lemma by_start_asym x y : by_start M x y = true -> by_start M y x = false.
Proof.
  unfold by_start. rewrite Qltb_true, Qltb_false. lra.
Qed.

Lemma by_start_negtrans x y z :
  by_start M x y = false -> by_start M y z = false -> by_start M x z = false.
Proof.
  unfold by_start. rewrite !Qltb_false. lra.
Qed.

Lemma run_nil n d : run M [] n d = [].
Proof.
  unfold run, chronological, top, ranked, candidates, slice_to. simpl.
  destruct (0 <=? n)%Z; rewrite ?firstn_nil; reflexivity.
Qed.

Lemma run_zero segs d : run M segs 0 d = [].
Proof. reflexivity. Qed.

Lemma run_length segs n d :
  (0 <= n)%Z -> (Z.of_nat (List.length (run M segs n d)) <= n)%Z.
Proof.
  intros Hn. unfold run, chronological. rewrite length_map. simpl.
  rewrite sort_length. now apply slice_to_length.
Qed.

Lemma candidates_from_kept d segs :
  Forall (from_kept M d) (candidates M d segs).
Proof.
  unfold candidates. apply Forall_forall. intros c Hc.
  apply in_map_iff in Hc. destruct Hc as (seg & <- & Hseg).
  apply filter_In in Hseg. now exists seg.
Qed.

Lemma chronological_from_kept segs n d :
  Forall (from_kept M d) (chronological M n d segs).
Proof.
  unfold chronological, top, ranked. simpl.
  apply sort_Forall, slice_to_Forall, sort_Forall, candidates_from_kept.
Qed.

Lemma ranked_sorted d segs :
  StronglySorted (le (score_desc M)) (ranked M d segs).
Proof.
  apply (sort_sorted _ (score_desc M) score_desc_asym score_desc_negtrans).
Qed.

Lemma chronological_sorted segs n d :
  StronglySorted (le (by_start M)) (chronological M n d segs).
Proof.
  apply (sort_sorted _ (by_start M) by_start_asym by_start_negtrans).
Qed.

Lemma chronological_lex segs n d :
  StronglySorted (lexle (score_desc M) (by_start M)) (chronological M n d segs).
Proof.
  apply (sort_lex _ (score_desc M) (by_start M) by_start_asym by_start_negtrans).
  apply slice_to_sorted, ranked_sorted.
Qed.

(** Ties in score keep the input order in the ranking, and the truncated
    ranking holds a prefix of them. *)
Lemma ranked_ties v d segs :
  filter (fun c => Nat.eqb (m_score M c) v) (ranked M d segs)
  = filter (fun c => Nat.eqb (m_score M c) v) (candidates M d segs).
Proof.
  apply sort_stable_on. intros a y Ha Hy.
  apply Nat.eqb_eq in Ha. apply Nat.eqb_eq in Hy.
  unfold by_score. apply Nat.ltb_ge. lia.
Qed.

Lemma top_ties v n d segs :
  exists rest,
    filter (fun c => Nat.eqb (m_score M c) v) (candidates M d segs)
    = (filter (fun c => Nat.eqb (m_score M c) v) (top M n d segs) ++ rest)%list.
Proof.
  rewrite <- ranked_ties. unfold top.
  destruct (slice_to_prefix n (ranked M d segs)) as [rest E].
  exists (filter (fun c => Nat.eqb (m_score M c) v) rest).
  rewrite E at 1. apply filter_app.
Qed.

(** Ties in start time keep, in the final order, the order of the ranking. *)
Lemma chronological_ties t n d segs :
  filter (fun c => Qeq_bool (m_start M c) t) (chronological M n d segs)
  = filter (fun c => Qeq_bool (m_start M c) t) (top M n d segs).
Proof.
  apply sort_stable_on. intros a y Ha Hy.
  apply Qeq_bool_iff in Ha. apply Qeq_bool_iff in Hy.
  unfold by_start. apply Qltb_false. lra.
Qed.

Hypothesis HL : Lawful M.

Lemma run_durations segs n d :
  Forall (fun s => d <= end_ s - start s) (run M segs n d).
Proof.
  unfold run. apply Forall_map.
  eapply Forall_impl; [|apply chronological_from_kept].
  intros c (seg & -> & Hk).
  rewrite (law_out_start M HL), (law_out_end M HL).
  exact (law_duration M HL _ _ Hk).
Qed.

Lemma run_sorted segs n d :
  StronglySorted (fun a b => start a <= start b) (run M segs n d).
Proof.
  unfold run.
  apply (StronglySorted_map (le (by_start M))); [|apply chronological_sorted].
  intros x y H. unfold le, by_start in H. apply Qltb_false in H.
  now rewrite !(law_start M HL).
Qed.

(** Run on its own output, the selector rebuilds the scored records it had
    and finds them already in their final order. *)
Lemma run_idempotent segs n d d' :
  (0 <= n)%Z ->
  Forall (fun s => d' <= end_ s - start s) (run M segs n d) ->
  run M (run M segs n d) n d' = run M segs n d.
Proof.
  intros Hn Hd'.
  assert (candidates M d' (run M segs n d) = chronological M n d segs) as EC.
  { unfold candidates, run at 1.
    rewrite filter_all.
    - unfold run. rewrite map_map. apply map_id_on.
      eapply Forall_impl; [|apply chronological_from_kept].
      intros c (seg & -> & _). apply (law_remake M HL).
    - unfold run in *. rewrite Forall_map in *.
      pose proof (chronological_from_kept segs n d) as HK.
      rewrite Forall_forall in *. intros c Hc.
      destruct (HK c Hc) as (seg & -> & Hk).
      specialize (Hd' _ Hc).
      rewrite (law_out_start M HL), (law_out_end M HL) in Hd'.
      exact (law_rekeep M HL _ _ _ Hk Hd'). }
  unfold run at 1. unfold run at 2. f_equal.
  unfold chronological at 1, top, ranked. rewrite EC. simpl.
  rewrite slice_to_all.
  - apply (sort_sort_lex _ (score_desc M) (by_start M)
             by_start_asym by_start_negtrans).
    apply chronological_lex.
  - rewrite sort_length.
    pose proof (run_length segs n d Hn) as H.
    unfold run in H. now rewrite length_map in H.
Qed.

End AnyMode.

Lemma basic_lawful : Lawful basic_mode.
Proof.
  constructor; simpl; try reflexivity.
  - intros d seg H. unfold basic_keep in H.
    apply andb_true_iff in H. now apply Qle_bool_iff.
  - intros seg. unfold basic_valid, basic_out. simpl.
    now rewrite strip_idem.
  - intros d d' seg H Hd. unfold basic_keep in *. simpl.
    apply andb_true_iff in H. destruct H as [_ Ht].
    rewrite strip_idem, Ht. apply andb_true_iff. split; [|reflexivity].
    now apply Qle_bool_iff.
Qed.

Lemma spacy_lawful nlp : Lawful (spacy_mode nlp).
Proof.
  constructor; simpl; try reflexivity.
  - intros d seg H. apply andb_true_iff in H. now apply Qle_bool_iff.
  - intros seg. unfold spacy_scored, spacy_out. simpl.
    now rewrite strip_idem.
  - intros d d' seg H Hd. unfold spacy_keep in *. simpl.
    apply andb_true_iff in H. destruct H as [Ht _].
    rewrite strip_idem, Ht. now apply Qle_bool_iff.
Qed.

(** The fallback path is the shared pipeline in [basic_mode]. *)
Lemma basic_is_run segs n d :
  _find_important_segments_basic segs n d = run basic_mode segs n d.
Proof.
  destruct segs as [|s0 segs]; [now rewrite run_nil | reflexivity].
Qed.

(** The spaCy path is the shared pipeline in [spacy_mode]. *)
Lemma spacy_is_run nlp segs n d :
  find_important_segments (Loaded nlp) segs n d = run (spacy_mode nlp) segs n d.
Proof.
  destruct segs as [|s0 segs]; [now rewrite run_nil|].
  unfold find_important_segments, run, chronological, top, ranked, candidates.
  rewrite filter_map_comm, filter_filter.
  change (fun x : Segment =>
            spacy_keep x && Qle_bool d (s_duration (spacy_scored nlp x)))
    with (m_keep (spacy_mode nlp) d).
  change (spacy_scored nlp) with (m_make (spacy_mode nlp)).
  destruct (map (m_make (spacy_mode nlp))
              (filter (m_keep (spacy_mode nlp) d) (s0 :: segs))) eqn:E.
  - unfold slice_to. simpl. destruct (0 <=? n)%Z; rewrite ?firstn_nil; reflexivity.
  - reflexivity.
Qed.

(** Every way [spacy.load] can end leads to one of the two modes. *)
Lemma find_cases load segs n d :
  find_important_segments load segs n d = run basic_mode segs n d
  \/ exists nlp,
       find_important_segments load segs n d = run (spacy_mode nlp) segs n d.
Proof.
  destruct load as [nlp| |].
  - right. exists nlp. apply spacy_is_run.
  - left. apply basic_is_run.
  - left. apply basic_is_run.
Qed.

Lemma ties_keep_order_holds {A : Type} (M : Mode A) n d segs :
  ties_keep_order M n d segs.
Proof.
  assert (forall v,
    filter (fun c => Nat.eqb (m_score M c) v) (candidates M d segs)
    = map (m_make M)
        (filter (fun seg =>
                   m_keep M d seg && Nat.eqb (m_score M (m_make M seg)) v)
           segs)) as E.
  { intros v. unfold candidates. now rewrite filter_map_comm, filter_filter. }
  split; [|split].
  - intros v. now rewrite ranked_ties.
  - intros v. rewrite <- E. apply top_ties.
  - intros t. apply chronological_ties.
Qed.

(** C1 (amended). For every list of transcript segments, every
    [num_segments] and [min_segment_duration], in spaCy mode and in the
    text-length fallback alike: when [num_segments >= 0] the returned list
    has at most [num_segments] items; and, for every [num_segments], each
    returned segment has [end - start >= min_segment_duration] and the list
    is sorted by [start] ascending. *)
Theorem selection_bounded_filtered_sorted load segs n d :
  ((0 <= n)%Z ->
   (Z.of_nat (List.length (find_important_segments load segs n d)) <= n)%Z)
  /\ Forall (fun s => d <= end_ s - start s)
       (find_important_segments load segs n d)
  /\ StronglySorted (fun a b => start a <= start b)
       (find_important_segments load segs n d).
Proof.
  destruct load as [nlp| |];
    rewrite ?spacy_is_run, ?basic_is_run;
    (split; [apply run_length | split]);
    solve [ apply run_durations; auto using spacy_lawful, basic_lawful
          | apply run_sorted; auto using spacy_lawful, basic_lawful ].
Qed.

Lemma selection_bounded_filtered_sorted_witness :
  (0 <= 2)%Z
  /\ (Z.of_nat
        (List.length
           (find_important_segments LoadOSError Samples.three_segments 2 3))
      <= 2)%Z.
Proof.
  split; [lia|].
  apply (proj1 (selection_bounded_filtered_sorted
                  LoadOSError Samples.three_segments 2 3)). lia.
Defined.

(** C1 as stated fails for a negative [num_segments]: with [-1] the slice
    drops the last ranked segment and one segment is returned, which is
    more than [-1]. *)
Lemma selection_exceeds_negative_count :
  find_important_segments LoadOSError Samples.three_segments (-1) 3
  = [mkSegment "This is a very long segment indeed" 6 12 None]
  /\ ~ (Z.of_nat
          (List.length
             (find_important_segments LoadOSError Samples.three_segments (-1) 3))
        <= -1)%Z.
Proof. split; [reflexivity | vm_compute; congruence]. Qed.

(** C2 (amended). For every list of transcript segments and every
    [min_segment_duration], [num_segments = 0] gives the empty list; and for
    every [num_segments] the empty input gives the empty list. The function
    is total, so nothing is name_error. *)
Theorem selection_empty load segs n d :
  n = 0%Z \/ segs = [] -> find_important_segments load segs n d = [].
Proof.
  intros [-> | ->];
    destruct load as [nlp| |];
    rewrite ?spacy_is_run, ?basic_is_run;
    auto using run_nil, run_zero.
Qed.

Lemma selection_empty_witness :
  find_important_segments LoadOSError Samples.three_segments 0 3 = []
  /\ find_important_segments (Loaded (fun _ => ["NOUN"%string])) [] 2 3 = [].
Proof.
  split; apply selection_empty; [left | right]; reflexivity.
Defined.

(** C2 as stated fails for a negative [num_segments]: [-1 <= 0], yet a
    segment is returned. *)
Lemma selection_nonempty_negative_count :
  (-1 <= 0)%Z
  /\ find_important_segments LoadOSError Samples.three_segments (-1) 3 <> [].
Proof. split; [lia | vm_compute; discriminate]. Qed.

(** C8 (amended). For every output list [L] of the selector obtained with a
    [num_segments >= 0], re-running the selector (same mode) on [L] with the
    same [num_segments] and any [min_segment_duration] that is at most every
    duration present in [L] returns [L] unchanged. *)
Theorem selection_idempotent load segs n d d' :
  (0 <= n)%Z ->
  Forall (fun s => d' <= end_ s - start s)
    (find_important_segments load segs n d) ->
  find_important_segments load (find_important_segments load segs n d) n d'
  = find_important_segments load segs n d.
Proof.
  intros Hn. destruct load as [nlp| |];
    rewrite ?spacy_is_run, ?basic_is_run; intros H;
    apply run_idempotent; auto using spacy_lawful, basic_lawful.
Qed.

Lemma selection_idempotent_witness :
  find_important_segments LoadOSError
    (find_important_segments LoadOSError Samples.three_segments 2 3) 2 1
  = find_important_segments LoadOSError Samples.three_segments 2 3.
Proof.
  apply selection_idempotent; [lia|].
  repeat constructor; vm_compute; discriminate.
Defined.

(** C8 as stated fails for a negative [num_segments]: the output obtained
    with [-1] holds one segment of duration 6, and re-running on it with
    [-1] and minimum duration 1 returns the empty list. *)
Lemma selection_not_idempotent_negative_count :
  find_important_segments LoadOSError Samples.three_segments (-1) 3
  = [mkSegment "This is a very long segment indeed" 6 12 None]
  /\ Forall (fun s => 1 <= end_ s - start s)
       (find_important_segments LoadOSError Samples.three_segments (-1) 3)
  /\ find_important_segments LoadOSError
       (find_important_segments LoadOSError Samples.three_segments (-1) 3)
       (-1) 1
     <> find_important_segments LoadOSError Samples.three_segments (-1) 3.
Proof.
  split; [reflexivity|]. split.
  - repeat constructor; vm_compute; discriminate.
  - vm_compute. discriminate.
Qed.

(** C9. In both modes the selector is the pipeline rank, truncate, order by
    start; and whenever candidate segments have equal score (trimmed-text
    length in the fallback, POS-tag count with spaCy) they stand in the
    score-ranked list in their input order, the truncated selection holds a
    prefix of them in that order, and the final sort by start keeps the
    ranked order among equal start times: both sorts are stable. *)
Theorem ties_keep_input_order segs n d :
  (_find_important_segments_basic segs n d
   = map basic_out (chronological basic_mode n d segs)
   /\ find_important_segments LoadOSError segs n d
     = _find_important_segments_basic segs n d
   /\ find_important_segments LoadOtherError segs n d
     = _find_important_segments_basic segs n d
   /\ ties_keep_order basic_mode n d segs)
  /\ (forall nlp,
        find_important_segments (Loaded nlp) segs n d
        = map spacy_out (chronological (spacy_mode nlp) n d segs)
        /\ ties_keep_order (spacy_mode nlp) n d segs).
Proof.
  split.
  - split; [apply basic_is_run|]. split; [reflexivity|]. split; [reflexivity|].
    apply ties_keep_order_holds.
  - intros nlp. split; [apply spacy_is_run | apply ties_keep_order_holds].
Qed.

End SelectorFacts.

(** ** The transcript windower *)

Module WindowerFacts.

Import PyStr PyList ContentAnalysis PyStrFacts.
Open Scope string_scope.

Lemma join_app (l1 l2 : list string) :
  join (l1 ++ l2)%list = join l1 ++ join l2.
Proof.
  induction l1 as [|x l1 IH]; simpl; [reflexivity|].
  unfold join in *. simpl. now rewrite IH, append_assoc.
Qed.

Lemma join_append (l : list string) (x : string) :
  join (list_append l x) = join l ++ x.
Proof.
  unfold list_append. rewrite join_app. simpl. now rewrite append_empty_r.
Qed.

Lemma for_each_app {S X : Type} (body : S -> X -> result S) xs ys st :
  for_each body (xs ++ ys)%list st
  = (st' <- for_each body xs st ;; for_each body ys st').
Proof.
  revert st. induction xs as [|x xs IH]; intros st; simpl; [reflexivity|].
  destruct (body st x); simpl; [apply IH | reflexivity].
Qed.

(** *** As the module stands: [format_time] is not bound *)

Section Unbound.
Variable names : list string.
Hypothesis unbound : existsb (String.eqb "format_time") names = false.
Variable interval : Q.

Lemma call_unbound arg : call_format_time names arg = name_error.
Proof. unfold call_format_time. now rewrite unbound. Qed.

Lemma list_append_nonempty {X : Type} (l : list X) (x : X) : list_append l x <> [].
Proof. unfold list_append. destruct l; discriminate. Qed.

Lemma word_step_unbound st w :
  word_step names interval st w = name_error
  \/ exists st', word_step names interval st w = Ok st' /\ buffered st'.
Proof.
  unfold word_step.
  destruct (_ || _).
  - destruct (current_segment_texts st) as [|t ts].
    + right. eexists. split; [reflexivity|]. apply list_append_nonempty.
    + left. now rewrite call_unbound.
  - right. eexists. split; [reflexivity|]. apply list_append_nonempty.
Qed.

Lemma words_unbound ws : forall st,
  for_each (word_step names interval) ws st = name_error
  \/ exists st', for_each (word_step names interval) ws st = Ok st'
                 /\ (ws <> [] \/ buffered st -> buffered st').
Proof.
  induction ws as [|w ws IH]; intros st; simpl.
  - right. exists st. split; [reflexivity|]. intros [H|H]; [congruence|exact H].
  - destruct (word_step_unbound st w) as [E | (st1 & E & B1)]; rewrite E; simpl.
    + now left.
    + destruct (IH st1) as [E' | (st2 & E' & B2)]; [now left|].
      right. exists st2. split; [exact E'|]. intros _. apply B2. now right.
Qed.

Lemma segment_step_unbound st seg :
  segment_step names interval st seg = name_error
  \/ exists st', segment_step names interval st seg = Ok st'
                 /\ (fragments seg <> [] \/ buffered st -> buffered st').
Proof.
  unfold segment_step, fragments.
  destruct (words seg) as [ws|].
  - destruct (words_unbound ws
                (mkState (segments_text_time st) (current_segment_texts st)
                   (Some (start_or st (start seg))) (last_word_end_time st)))
      as [E | (st' & E & B)]; [now left|].
    right. exists st'. split; [exact E|]. intros [H|H]; apply B.
    + left. intros ->. now apply H.
    + now right.
  - cbn [segments_text_time current_segment_texts last_word_end_time].
    destruct (_ || _).
    + destruct (current_segment_texts st) as [|t ts].
      * right. eexists. split; [reflexivity|]. intros _.
        apply list_append_nonempty.
      * left. now rewrite call_unbound.
    + right. eexists. split; [reflexivity|]. intros _.
      apply list_append_nonempty.
Qed.

Lemma segments_unbound segs : forall st,
  for_each (segment_step names interval) segs st = name_error
  \/ exists st', for_each (segment_step names interval) segs st = Ok st'
                 /\ (flat_map fragments segs <> [] \/ buffered st -> buffered st').
Proof.
  induction segs as [|seg segs IH]; intros st; simpl.
  - right. exists st. split; [reflexivity|]. intros [H|H]; [congruence|exact H].
  - destruct (segment_step_unbound st seg) as [E | (st1 & E & B1)];
      rewrite E; simpl; [now left|].
    destruct (IH st1) as [E' | (st2 & E' & B2)]; [now left|].
    right. exists st2. split; [exact E'|]. intros H. apply B2.
    destruct H as [H|H].
    + destruct (fragments seg) eqn:F.
      * left. exact H.
      * right. apply B1. left. discriminate.
    + right. apply B1. now right.
Qed.

(** Whenever there is any text to window, the run ends in [NameError]. *)
Lemma split_unbound tr segs :
  tr_segments tr = Some segs ->
  flat_map fragments segs <> [] ->
  split_transcript_by_timestamps_in names (Some tr) interval = name_error.
Proof.
  intros Hs Hf. unfold split_transcript_by_timestamps_in. rewrite Hs.
  destruct (segments_unbound segs (mkState [] [] None 0))
    as [E | (st & E & B)]; rewrite E; simpl; [reflexivity|].
  assert (buffered st) as Hb by (apply B; now left).
  unfold buffered in Hb.
  destruct (current_segment_texts st); [congruence|].
  now rewrite call_unbound.
Qed.

End Unbound.

(** C6 (the code departs from it). For every transcription result whose
    segment list carries at least one text fragment, and every interval,
    [split_transcript_by_timestamps] as the module defines it raises
    [NameError]: [format_time] is called to label a window but
    content_analysis.py does not import it. No window list is returned. *)
Theorem split_raises_name_error tr segs interval :
  tr_segments tr = Some segs ->
  flat_map fragments segs <> [] ->
  split_transcript_by_timestamps (Some tr) interval
  = Raise (NameError "format_time").
Proof.
  intros Hs Hf. unfold split_transcript_by_timestamps.
  now apply split_unbound with (segs := segs).
Qed.

Lemma split_raises_name_error_witness :
  split_transcript_by_timestamps (Some Samples.one_segment_result) 60
  = Raise (NameError "format_time").
Proof.
  apply (split_raises_name_error Samples.one_segment_result
           [mkSegment "hi" 0 1 None] 60).
  - reflexivity.
  - simpl. discriminate.
Defined.

(** *** With the import restored: [format_time] bound *)

Section Bound.
Variable names : list string.
Hypothesis bound : existsb (String.eqb "format_time") names = true.
Variable interval : Q.

Lemma call_bound x :
  call_format_time names (Some x) = Ok (Utils.format_time (Utils.PyFloat x)).
Proof. unfold call_format_time. now rewrite bound. Qed.

Lemma text_close out texts w t :
  join (map window_text (list_append out (mkWindow t (join texts)))) ++ w
  = (join (map window_text out) ++ join texts) ++ w.
Proof.
  unfold list_append. rewrite map_app, join_app. simpl.
  now rewrite append_empty_r.
Qed.

Lemma text_reopen out texts w t :
  join (map window_text (list_append out (mkWindow t (join texts))))
  ++ join (list_append [] w)
  = (join (map window_text out) ++ join texts) ++ w.
Proof. rewrite join_append. apply text_close. Qed.

Lemma word_step_bound st w :
  exists st', word_step names interval st w = Ok st'
              /\ text_so_far st' = text_so_far st ++ word_text w
              /\ opened st'.
Proof.
  unfold word_step, text_so_far, opened.
  destruct (_ || _).
  - destruct (current_segment_texts st) as [|t ts] eqn:E.
    + eexists. split; [reflexivity|]. simpl. split; [|discriminate].
      now rewrite !append_empty_r.
    + rewrite !call_bound. cbn [bind]. eexists. split; [reflexivity|].
      cbn [segments_text_time current_segment_texts current_segment_start_time
           fst snd]. split; [|discriminate].
      apply text_reopen.
  - eexists. split; [reflexivity|]. simpl. split; [|discriminate].
    now rewrite join_append, append_assoc.
Qed.

Lemma words_bound ws : forall st,
  opened st ->
  exists st', for_each (word_step names interval) ws st = Ok st'
              /\ text_so_far st' = text_so_far st ++ join (map word_text ws)
              /\ opened st'.
Proof.
  induction ws as [|w ws IH]; intros st Ho; simpl.
  - exists st. split; [reflexivity|]. split; [now rewrite append_empty_r|exact Ho].
  - destruct (word_step_bound st w) as (st1 & E & T1 & O1). rewrite E. simpl.
    destruct (IH st1 O1) as (st2 & E2 & T2 & O2).
    exists st2. split; [exact E2|]. split; [|exact O2].
    rewrite T2, T1. apply append_assoc.
Qed.

Lemma segment_step_bound st seg :
  exists st', segment_step names interval st seg = Ok st'
              /\ text_so_far st' = text_so_far st ++ join (fragments seg)
              /\ opened st'.
Proof.
  unfold segment_step, fragments.
  destruct (words seg) as [ws|].
  - apply (words_bound ws
             (mkState (segments_text_time st) (current_segment_texts st)
                (Some (start_or st (start seg))) (last_word_end_time st))).
    discriminate.
  - cbn [segments_text_time current_segment_texts last_word_end_time].
    unfold text_so_far, opened.
    destruct (_ || _).
    + destruct (current_segment_texts st) as [|t ts] eqn:E.
      * eexists. split; [reflexivity|]. simpl. split; [|discriminate].
        now rewrite !append_empty_r.
      * rewrite !call_bound. cbn [bind]. eexists. split; [reflexivity|].
        cbn [segments_text_time current_segment_texts
             current_segment_start_time fst snd]. split; [|discriminate].
        change (join [text seg]) with (text seg ++ "").
        rewrite (append_empty_r (text seg)). apply text_reopen.
    + eexists. split; [reflexivity|]. simpl. split; [|discriminate].
      now rewrite join_append, append_empty_r, append_assoc.
Qed.

Lemma segments_bound segs : forall st,
  exists st', for_each (segment_step names interval) segs st = Ok st'
              /\ text_so_far st'
                 = text_so_far st ++ join (flat_map fragments segs)
              /\ (segs <> [] -> opened st').
Proof.
  induction segs as [|seg segs IH]; intros st; simpl.
  - exists st. split; [reflexivity|].
    split; [now rewrite append_empty_r | congruence].
  - destruct (segment_step_bound st seg) as (st1 & E & T1 & O1).
    rewrite E. simpl.
    destruct (IH st1) as (st2 & E2 & T2 & O2).
    exists st2. split; [exact E2|]. split.
    + rewrite T2, T1, join_app. now rewrite append_assoc.
    + intros _. destruct segs; [|apply O2; discriminate].
      simpl in E2. now inversion E2; subst.
Qed.

(** Had the module imported [format_time], the windows would carry exactly
    the input text: nothing dropped, nothing repeated, the last buffer
    flushed. *)
Lemma split_bound_text tr segs :
  tr_segments tr = Some segs ->
  exists ws,
    split_transcript_by_timestamps_in names (Some tr) interval = Ok ws
    /\ join (map window_text ws) = join (flat_map fragments segs).
Proof.
  intros Hs. unfold split_transcript_by_timestamps_in. rewrite Hs.
  destruct (segments_bound segs (mkState [] [] None 0)) as (st & E & T & O).
  rewrite E. simpl bind. unfold text_so_far in T. simpl in T.
  destruct (current_segment_texts st) as [|t ts] eqn:Et.
  - eexists. split; [reflexivity|]. rewrite <- T. simpl.
    now rewrite append_empty_r.
  - assert (opened st) as Ho.
    { apply O. intros ->. simpl in E. inversion E; subst. discriminate. }
    unfold opened in Ho.
    destruct (current_segment_start_time st) as [c|]; [|congruence].
    rewrite !call_bound. simpl bind. eexists. split; [reflexivity|].
    rewrite <- T.
    pose proof (text_close (segments_text_time st) (t :: ts)
                  EmptyString
                  (Utils.format_time (Utils.PyFloat c) ++ " - "
                   ++ Utils.format_time
                        (Utils.PyFloat (last_word_end_time st)))) as H.
    now rewrite !append_empty_r in H.
Qed.

End Bound.

End WindowerFacts.

(** ** The per-segment loop of the orchestrator *)

Module MainFacts.

Import PyStr PyList ContentAnalysis Main PyStrFacts PyListFacts.
Open Scope list_scope.

Lemma stage5_loop_acc W sel : forall i acc,
  stage5_loop W i sel acc = acc ++ stage5_loop W i sel [].
Proof.
  induction sel as [|seg sel IH]; intros i acc; simpl.
  - now rewrite app_nil_r.
  - rewrite IH. symmetry. rewrite IH. unfold list_append.
    destruct (extract_video_segments W _ _ _) as [[|]|]; simpl;
      now rewrite ?app_nil_r, <- ?app_assoc.
Qed.

Lemma stage5_loop_cons W i seg sel :
  stage5_loop W i (seg :: sel) []
  = cut_record W i seg ++ stage5_loop W (S i) sel [].
Proof.
  simpl. rewrite stage5_loop_acc. unfold cut_record, raw_of, list_append.
  destruct (extract_video_segments W _ _ _) as [[|]|]; reflexivity.
Qed.

Lemma stage5_unfold W sel : stage5 W sel = stage5_loop W 0 sel [].
Proof. destruct sel; reflexivity. Qed.

Lemma stage6_unfold W transcript recs :
  stage6 W transcript recs = stage6_loop W transcript recs [].
Proof. destruct recs; reflexivity. Qed.

(** When no iteration raises, the loop appends what each one keeps. *)
Lemma stage6_loop_ok W transcript recs : forall acc,
  (forall r, In r recs -> step_returns W transcript r) ->
  stage6_loop W transcript recs acc
  = Ok (acc ++ flat_map (kept W transcript) recs).
Proof.
  induction recs as [|r recs IH]; intros acc H; simpl.
  - now rewrite app_nil_r.
  - destruct (H r (or_introl eq_refl)) as [done E].
    unfold kept at 1. rewrite E. cbn [bind].
    rewrite IH by (intros r' Hr'; apply H; now right).
    unfold list_append. destruct done; simpl; now rewrite <- ?app_assoc.
Qed.

(** A loop that comes to its end met no exception. *)
Lemma stage6_loop_inv W transcript recs : forall acc l,
  stage6_loop W transcript recs acc = Ok l ->
  (forall r, In r recs -> step_returns W transcript r)
  /\ l = acc ++ flat_map (kept W transcript) recs.
Proof.
  induction recs as [|r recs IH]; intros acc l H; simpl in H.
  - inversion H; subst. split; [intros r []|now rewrite app_nil_r].
  - destruct (stage6_step W transcript r) as [done|e] eqn:E; [|discriminate].
    cbn [bind] in H. apply IH in H. destruct H as [H1 H2]. split.
    + intros r' [<-|Hr]; [now exists done | now apply H1].
    + rewrite H2. simpl. unfold kept at 2. rewrite E.
      unfold list_append. destruct done; simpl; now rewrite <- ?app_assoc.
Qed.

(** The first iteration that raises ends the loop, whatever came before
    and whatever would come after. *)
Lemma stage6_loop_raise W transcript before r after e : forall acc,
  (forall r', In r' before -> step_returns W transcript r') ->
  stage6_step W transcript r = Raise e ->
  stage6_loop W transcript (before ++ r :: after) acc = Raise e.
Proof.
  induction before as [|r0 before IH]; intros acc H E; simpl.
  - now rewrite E.
  - destruct (H r0 (or_introl eq_refl)) as [done E0]. rewrite E0. cbn [bind].
    apply IH; [|exact E]. intros r' Hr'. apply H. now right.
Qed.

Lemma final_clips_app l1 l2 :
  final_clips (l1 ++ l2) = final_clips l1 ++ final_clips l2.
Proof. unfold final_clips. apply flat_map_app. Qed.

Lemma kept_fates W transcript sel : forall i,
  final_clips (flat_map (kept W transcript) (stage5_loop W i sel []))
  = fates W transcript i sel.
Proof.
  induction sel as [|seg sel IH]; intros i; [reflexivity|].
  rewrite stage5_loop_cons, flat_map_app, final_clips_app, IH. reflexivity.
Qed.

(** Failure isolation in a run that comes to its end: the final list is the
    concatenation, in the order of the selected segments, of what each
    record yields on its own. *)
Lemma final_clips_fates W transcript sel processed :
  per_segment_loop W transcript sel = Ok processed ->
  final_clips processed = fates W transcript 0 sel.
Proof.
  unfold per_segment_loop. rewrite stage6_unfold, stage5_unfold. intros H.
  apply stage6_loop_inv in H. destruct H as [_ ->]. apply kept_fates.
Qed.

(** Where the records of stage 5 come from. *)
Lemma stage5_member W sel : forall i r,
  In r (stage5_loop W i sel []) ->
  exists j seg, nth_error sel j = Some seg /\ In r (cut_record W (i + j) seg).
Proof.
  induction sel as [|s0 sel IH]; intros i r H; [contradiction|].
  rewrite stage5_loop_cons in H. apply in_app_or in H. destruct H as [H|H].
  - exists 0%nat, s0. rewrite Nat.add_0_r. now split.
  - destruct (IH _ _ H) as (j & seg & Hj & Hin).
    exists (S j), seg. rewrite Nat.add_succ_r. now split.
Qed.

(** A run in which no record raises comes to its end. *)
Lemma run_returns W transcript sel :
  (forall j seg, nth_error sel j = Some seg ->
     record_returns W transcript j seg) ->
  exists processed, per_segment_loop W transcript sel = Ok processed.
Proof.
  intros H. unfold per_segment_loop. rewrite stage6_unfold, stage5_unfold.
  eexists. apply stage6_loop_ok. intros r Hr.
  destruct (stage5_member _ _ _ _ Hr) as (j & seg & Hj & Hin).
  exact (H j seg Hj r Hin).
Qed.

Lemma stage6_step_segment W transcript r r' :
  stage6_step W transcript r = Ok (Some r') -> clip_segment r' = clip_segment r.
Proof.
  unfold stage6_step. intros H.
  destruct (raw_clip_path r); [|discriminate].
  destruct (_ || _); [discriminate|].
  destruct (convert_video_aspect_ratio W _ _ _) as [[c|]|]; try discriminate.
  cbn [bind] in H.
  destruct (negb (truthy c)); [discriminate|].
  match type of H with
  | (x <- ?m ;; _) = _ => destruct m as [q|]; [|discriminate]
  end.
  cbn [bind] in H. now inversion H.
Qed.

(** A record yields nothing, or itself with one path. *)
Lemma fate_cases W transcript i seg :
  fate W transcript i seg = []
  \/ exists p, fate W transcript i seg = [(seg, p)].
Proof.
  unfold fate, cut_record.
  destruct (extract_video_segments W _ _ _) as [[|]|]; try (now left).
  simpl. unfold kept.
  destruct (stage6_step W transcript _) as [[r'|]|] eqn:E; try (now left).
  apply stage6_step_segment in E. simpl in E.
  unfold final_clips. simpl. rewrite E.
  destruct (final_clip_path r') as [p|]; [|now left].
  destruct (truthy p); [right; now exists p | now left].
Qed.

Lemma subseq_refl_nil {X : Type} (l : list X) : subseq [] l.
Proof. induction l; constructor; assumption. Qed.

Lemma fates_subseq W transcript sel : forall i,
  subseq (map fst (fates W transcript i sel)) sel.
Proof.
  induction sel as [|seg sel IH]; intros i; simpl; [constructor|].
  destruct (fate_cases W transcript i seg) as [-> | [p ->]]; simpl.
  - apply subseq_skip, IH.
  - apply subseq_keep, IH.
Qed.

(** The caption loop is the filter of the rebased overlapping segments. *)
Lemma adjust_loop_spec r rel : forall acc,
  adjust_loop r rel acc
  = acc ++ filter (fun c => truthy (text c) && Qltb (start c) (end_ c))
             (map (rebase r) rel).
Proof.
  induction rel as [|ws rel IH]; intros acc; simpl.
  - now rewrite app_nil_r.
  - destruct (truthy (strip (text ws))); simpl.
    + destruct (Qltb _ _); rewrite IH; [|reflexivity].
      unfold list_append, rebase. now rewrite <- app_assoc.
    + apply IH.
Qed.

(** The iteration of stage 6 on a record whose cut succeeded. *)
Lemma step_convert_fails W transcript i seg :
  raw_ok W i seg -> convert_gives W i seg (Ok None) ->
  stage6_step W transcript (mkClip seg (Some (raw_of W i seg)) None) = Ok None.
Proof.
  unfold raw_ok, convert_gives. intros [Ht He] Hc.
  unfold stage6_step. simpl. now rewrite Ht, He, Hc.
Qed.

Lemma step_success W transcript i seg c :
  raw_ok W i seg -> convert_gives W i seg (Ok (Some c)) -> truthy c = true ->
  captioning_returns W transcript i seg c ->
  exists p,
    stage6_step W transcript (mkClip seg (Some (raw_of W i seg)) None)
    = Ok (Some (mkClip seg (Some (raw_of W i seg)) (Some p)))
    /\ (p = c \/ p = captioned_name W (raw_of W i seg)).
Proof.
  unfold raw_ok, convert_gives, captioning_returns, captions_of.
  intros [Ht He] Hc Hcv Hcap.
  unfold stage6_step. simpl. rewrite Ht, He, Hc. simpl. rewrite Hcv. simpl.
  destruct (skip_captioning W); simpl;
    [exists c; split; [reflexivity | now left]|].
  destruct Hcap as [Hcap | [Hcap | [b Hcap]]]; [discriminate| |].
  - rewrite Hcap. exists c. split; [reflexivity | now left].
  - destruct (adjusted_transcription_segments transcript _) as [|a l];
      [exists c; split; [reflexivity | now left]|].
    rewrite Hcap. destruct b; eexists; split; try reflexivity; auto.
Qed.

Lemma step_caption_raises W transcript i seg c e :
  raw_ok W i seg -> convert_gives W i seg (Ok (Some c)) -> truthy c = true ->
  skip_captioning W = false ->
  captions_of W transcript i seg <> [] ->
  add_captions_to_video W c (captions_of W transcript i seg)
    (captioned_name W (raw_of W i seg)) = CaptionRaised e ->
  stage6_step W transcript (mkClip seg (Some (raw_of W i seg)) None) = Raise e.
Proof.
  unfold raw_ok, convert_gives, captions_of.
  intros [Ht He] Hc Hcv Hskip Hne Hcap.
  unfold stage6_step. simpl. rewrite Ht, He, Hc. simpl. rewrite Hcv, Hskip.
  simpl.
  destruct (adjusted_transcription_segments transcript _) as [|a l];
    [congruence|].
  now rewrite Hcap.
Qed.

Lemma fate_convert_fails W transcript i seg :
  cut_ok W i seg -> raw_ok W i seg -> convert_gives W i seg (Ok None) ->
  fate W transcript i seg = [].
Proof.
  intros Hcut Hraw Hc. unfold fate, cut_record. unfold cut_ok in Hcut.
  rewrite Hcut. simpl. unfold kept.
  now rewrite (step_convert_fails W transcript i seg Hraw Hc).
Qed.

Lemma fate_success W transcript i seg c :
  cut_ok W i seg -> raw_ok W i seg ->
  convert_gives W i seg (Ok (Some c)) -> truthy c = true ->
  captioning_returns W transcript i seg c ->
  truthy (captioned_name W (raw_of W i seg)) = true ->
  exists p, fate W transcript i seg = [(seg, p)].
Proof.
  intros Hcut Hraw Hc Hcv Hret Hcap. unfold fate, cut_record.
  unfold cut_ok in Hcut. rewrite Hcut. simpl. unfold kept.
  destruct (step_success W transcript i seg c Hraw Hc Hcv Hret)
    as (p & -> & Hp).
  unfold final_clips. simpl.
  destruct Hp as [-> | ->]; [rewrite Hcv | rewrite Hcap]; now eexists.
Qed.

Lemma fate_through W transcript i seg :
  goes_through W transcript i seg ->
  exists p, fate W transcript i seg = [(seg, p)].
Proof.
  intros (K & R & c & C & T & A & N). now apply fate_success with (c := c).
Qed.

Lemma fate_failed W transcript i seg :
  conversion_fails W i seg -> fate W transcript i seg = [].
Proof. intros (K & R & C). now apply fate_convert_fails. Qed.

Lemma through_returns W transcript i seg :
  goes_through W transcript i seg -> record_returns W transcript i seg.
Proof.
  intros (K & R & c & C & T & A & N) r Hr. unfold cut_record in Hr.
  unfold cut_ok in K. rewrite K in Hr. destruct Hr as [<-|[]].
  destruct (step_success W transcript i seg c R C T A) as (p & E & _).
  eexists. exact E.
Qed.

Lemma failed_returns W transcript i seg :
  conversion_fails W i seg -> record_returns W transcript i seg.
Proof.
  intros (K & R & C) r Hr. unfold cut_record in Hr.
  unfold cut_ok in K. rewrite K in Hr. destruct Hr as [<-|[]].
  eexists. now apply step_convert_fails.
Qed.

Lemma fates_all_through W transcript sel : forall i,
  (forall j seg, nth_error sel j = Some seg ->
     goes_through W transcript (i + j) seg) ->
  map fst (fates W transcript i sel) = sel.
Proof.
  induction sel as [|s0 sel IH]; intros i H; simpl; [reflexivity|].
  destruct (fate_through W transcript i s0) as [p ->].
  { specialize (H 0%nat s0 eq_refl). now rewrite Nat.add_0_r in H. }
  simpl. f_equal. apply IH. intros j seg Hj.
  specialize (H (S j) seg Hj). now rewrite Nat.add_succ_r in H.
Qed.

(** When the record at position [k] fails at the conversion and all others
    go through, the output holds the others, in order. *)
Lemma fates_one_fails W transcript sel : forall i k,
  (forall j seg, nth_error sel j = Some seg ->
     if Nat.eqb j k then conversion_fails W (i + j) seg
     else goes_through W transcript (i + j) seg) ->
  map fst (fates W transcript i sel) = firstn k sel ++ skipn (S k) sel.
Proof.
  induction sel as [|s0 sel IH]; intros i k H.
  - now destruct k.
  - pose proof (H 0%nat s0 eq_refl) as H0. rewrite Nat.add_0_r in H0.
    destruct k as [|k]; simpl in *.
    + rewrite (fate_failed _ transcript _ _ H0). simpl.
      apply fates_all_through. intros j seg Hj.
      specialize (H (S j) seg Hj). now rewrite Nat.add_succ_r in H.
    + destruct (fate_through _ transcript _ _ H0) as [p ->]. simpl. f_equal.
      apply IH. intros j seg Hj.
      specialize (H (S j) seg Hj). now rewrite Nat.add_succ_r in H.
Qed.

(** What holds of every run of stages 5 and 6 that comes to its end: the
    records behind the final paths are a subsequence of the selected
    segments, in their order, each with one path, and each record's fate
    depends on its own stage results only. *)
Lemma completed_run_follows_selection W transcript selected processed :
  per_segment_loop W transcript selected = Ok processed ->
  subseq (map fst (final_clips processed)) selected
  /\ final_segment_paths processed = map snd (final_clips processed)
  /\ final_clips processed = fates W transcript 0 selected.
Proof.
  intros H. rewrite (final_clips_fates _ _ _ _ H).
  split; [apply fates_subseq|]. split; [|reflexivity].
  unfold final_segment_paths. now rewrite (final_clips_fates _ _ _ _ H).
Qed.

(** The scenario of the specification: one record fails at the aspect-ratio
    conversion, the others go through and no captioning raises. The run
    comes to its end and delivers exactly the others' paths, in order. *)
Lemma one_conversion_failure_is_isolated W transcript selected k :
  (k < List.length selected)%nat ->
  (forall j seg, nth_error selected j = Some seg ->
     if Nat.eqb j k then conversion_fails W j seg
     else goes_through W transcript j seg) ->
  exists processed,
    per_segment_loop W transcript selected = Ok processed
    /\ map fst (final_clips processed)
       = firstn k selected ++ skipn (S k) selected
    /\ List.length (final_segment_paths processed)
       = (List.length selected - 1)%nat.
Proof.
  intros Hk H.
  destruct (run_returns W transcript selected) as [processed E].
  { intros j seg Hj. specialize (H j seg Hj).
    destruct (Nat.eqb j k);
      [now apply failed_returns | now apply through_returns]. }
  exists processed. split; [exact E|].
  assert (map fst (final_clips processed)
          = firstn k selected ++ skipn (S k) selected) as F.
  { rewrite (final_clips_fates _ _ _ _ E). now apply fates_one_fails. }
  split; [exact F|].
  unfold final_segment_paths. rewrite length_map.
  rewrite <- (length_map fst), F, length_app, length_firstn, length_skipn. lia.
Qed.

Example middle_conversion_failure :
  exists processed,
    per_segment_loop Samples.middle_conversion_fails
      [Samples.clip_a; Samples.clip_b; Samples.clip_c]
      [Samples.clip_a; Samples.clip_b; Samples.clip_c] = Ok processed
    /\ map fst (final_clips processed) = [Samples.clip_a; Samples.clip_c]
    /\ final_segment_paths processed
       = ["final_clips/segment_1_captioned.mp4"%string;
          "final_clips/segment_3_captioned.mp4"%string].
Proof. eexists. repeat split. Qed.

(** Stage 5 up to the record at position [k]. *)
Lemma stage5_split W sel : forall i k seg,
  nth_error sel k = Some seg ->
  stage5_loop W i sel []
  = stage5_loop W i (firstn k sel) []
    ++ cut_record W (i + k) seg
    ++ stage5_loop W (i + S k) (skipn (S k) sel) [].
Proof.
  induction sel as [|s0 sel IH]; intros i k seg H; [now destruct k|].
  destruct k as [|k]; simpl in H.
  - inversion H; subst. rewrite stage5_loop_cons.
    now rewrite Nat.add_0_r, Nat.add_1_r.
  - cbn [firstn skipn]. rewrite !stage5_loop_cons, (IH (S i) k seg H).
    rewrite <- app_assoc. now rewrite !Nat.add_succ_r.
Qed.

Lemma stage5_prefix_member W sel k : forall i r,
  In r (stage5_loop W i (firstn k sel) []) ->
  exists j s, (j < k)%nat /\ nth_error sel j = Some s
              /\ In r (cut_record W (i + j) s).
Proof.
  intros i r H. destruct (stage5_member _ _ _ _ H) as (j & s & Hj & Hin).
  exists j, s.
  assert (j < List.length (firstn k sel))%nat as Hlt
    by (apply nth_error_Some; congruence).
  rewrite length_firstn in Hlt.
  split; [lia|]. split; [|exact Hin].
  rewrite nth_error_firstn in Hj.
  destruct (Nat.ltb_spec j k); [exact Hj | lia].
Qed.

(** C3 (the code departs from it). Stage 6 calls [add_captions_to_video]
    outside any [try], and that function raises what moviepy raises while
    it opens the clip and builds the caption clips. So when captioning
    raises for one record, [main_workflow] ends there with the exception:
    there is no final list, the records already processed are lost with
    it, and the records after it are never looked at. The failure of one
    record is not confined to that record. *)
Theorem caption_exception_aborts_run W transcript selected k seg c e :
  nth_error selected k = Some seg ->
  (forall j s, (j < k)%nat -> nth_error selected j = Some s ->
     record_returns W transcript j s) ->
  cut_ok W k seg -> raw_ok W k seg ->
  convert_gives W k seg (Ok (Some c)) -> truthy c = true ->
  skip_captioning W = false ->
  captions_of W transcript k seg <> [] ->
  add_captions_to_video W c (captions_of W transcript k seg)
    (captioned_name W (raw_of W k seg)) = CaptionRaised e ->
  per_segment_loop W transcript selected = Raise e.
Proof.
  intros Hk Hbefore Hcut Hraw Hc Hcv Hskip Hne Hcap.
  unfold per_segment_loop. rewrite stage6_unfold, stage5_unfold.
  rewrite (stage5_split W selected 0 k seg Hk). simpl.
  unfold cut_record at 1. unfold cut_ok in Hcut. rewrite Hcut. simpl.
  apply stage6_loop_raise.
  - intros r Hr.
    destruct (stage5_prefix_member _ _ _ _ _ Hr) as (j & s & Hj & Hs & Hin).
    exact (Hbefore j s Hj Hs r Hin).
  - now apply step_caption_raises with (c := c).
Qed.

Lemma caption_exception_aborts_run_witness :
  per_segment_loop MoreSamples.world_caption_raises
    [Samples.clip_a; Samples.clip_b; Samples.clip_c]
    [Samples.clip_a; Samples.clip_b; Samples.clip_c]
  = Raise OSError.
Proof.
  apply (caption_exception_aborts_run MoreSamples.world_caption_raises
           [Samples.clip_a; Samples.clip_b; Samples.clip_c]
           [Samples.clip_a; Samples.clip_b; Samples.clip_c]
           1 Samples.clip_b "final_clips/segment_2_formatted.mp4"%string
           OSError); try reflexivity.
  - intros j s Hj Hs r Hr. destruct j as [|j]; [|lia].
    inversion Hs; subst. destruct Hr as [<-|[]]. eexists. reflexivity.
  - split; reflexivity.
  - discriminate.
Defined.

(** C4 (amended). For every record that reaches the captioning stage (its
    raw clip exists, the aspect-ratio conversion returned a path and
    captioning is not skipped), if the caption set is empty, or
    [add_captions_to_video] returns and leaves no output file, the record
    stays in the working set and its final path is the
    aspect-ratio-converted, uncaptioned file; and in every run of stage 6
    that comes to its end, that path is in the final output list. *)
Theorem caption_failure_keeps_uncaptioned W transcript r raw converted :
  raw_clip_path r = Some raw ->
  truthy raw = true -> raw_clip_exists W raw = true ->
  convert_video_aspect_ratio W raw (formatted_name W raw)
    (output_aspect_ratio W) = Ok (Some converted) ->
  truthy converted = true ->
  skip_captioning W = false ->
  adjusted_transcription_segments transcript r = []
  \/ add_captions_to_video W converted
       (adjusted_transcription_segments transcript r) (captioned_name W raw)
     = CaptionReturned false ->
  stage6_step W transcript r
  = Ok (Some (mkClip (clip_segment r) (Some raw) (Some converted)))
  /\ forall recs processed,
       In r recs -> stage6 W transcript recs = Ok processed ->
       In (mkClip (clip_segment r) (Some raw) (Some converted)) processed
       /\ In (clip_segment r, converted) (final_clips processed)
       /\ In converted (final_segment_paths processed).
Proof.
  intros Hraw Ht He Hc Hcv Hskip Hcap.
  assert (stage6_step W transcript r
          = Ok (Some (mkClip (clip_segment r) (Some raw) (Some converted))))
    as E.
  { unfold stage6_step. rewrite Hraw, Ht, He, Hc. simpl.
    rewrite Hcv, Hskip. simpl.
    destruct Hcap as [-> | Hcap]; [reflexivity|].
    rewrite Hcap. now destruct (adjusted_transcription_segments transcript r). }
  split; [exact E|]. intros recs processed Hin Hrun.
  rewrite stage6_unfold in Hrun. apply stage6_loop_inv in Hrun.
  destruct Hrun as [_ ->]. simpl.
  assert (In (mkClip (clip_segment r) (Some raw) (Some converted))
            (flat_map (kept W transcript) recs)) as Hp.
  { apply in_flat_map. exists r. split; [exact Hin|].
    unfold kept. rewrite E. now left. }
  split; [exact Hp|].
  assert (In (clip_segment r, converted)
            (final_clips (flat_map (kept W transcript) recs))) as Hf.
  { unfold final_clips. apply in_flat_map.
    exists (mkClip (clip_segment r) (Some raw) (Some converted)).
    split; [exact Hp|]. simpl. rewrite Hcv. now left. }
  split; [exact Hf|].
  unfold final_segment_paths. apply in_map_iff.
  exists (clip_segment r, converted). now split.
Qed.

Lemma caption_failure_keeps_uncaptioned_witness :
  stage6_step Samples.captioning_fails [Samples.clip_a]
    (mkClip Samples.clip_a (Some "raw_clips/segment_1.mp4"%string) None)
  = Ok (Some (mkClip Samples.clip_a (Some "raw_clips/segment_1.mp4"%string)
                (Some "final_clips/segment_1_formatted.mp4"%string))).
Proof.
  apply (proj1 (caption_failure_keeps_uncaptioned Samples.captioning_fails
           [Samples.clip_a]
           (mkClip Samples.clip_a (Some "raw_clips/segment_1.mp4"%string) None)
           "raw_clips/segment_1.mp4"%string
           "final_clips/segment_1_formatted.mp4"%string
           eq_refl eq_refl eq_refl eq_refl eq_refl eq_refl
           (or_intror eq_refl))).
Defined.

(** C4 as stated fails: here captioning is attempted on a non-empty caption
    set, returns and leaves no file, and with an empty transcript the
    caption set is empty; both times the run comes to its end, the record
    stays and its formatted path is the final output. *)
Lemma failed_captioning_still_yields_path :
  adjusted_transcription_segments [Samples.clip_a]
    (mkClip Samples.clip_a (Some "raw_clips/segment_1.mp4"%string) None)
  = [mkSegment "first clip" 0 10 None]
  /\ (exists processed,
        per_segment_loop Samples.captioning_fails [Samples.clip_a]
          [Samples.clip_a] = Ok processed
        /\ final_segment_paths processed
           = ["final_clips/segment_1_formatted.mp4"%string])
  /\ (exists processed,
        per_segment_loop Samples.captioning_fails [] [Samples.clip_a]
        = Ok processed
        /\ final_segment_paths processed
           = ["final_clips/segment_1_formatted.mp4"%string]).
Proof.
  split; [reflexivity|]. split; eexists; split; reflexivity.
Qed.

(** C5. For every record and every list of original transcript segments,
    the caption set handed to captioning consists exactly, in transcript
    order, of the original segments whose time range overlaps the record's
    range ([orig_start < record.end] and [orig_end > record.start]), each
    with trimmed text and timestamps rebased as
    [new_start = max(0, orig_start - record.start)] and
    [new_end = orig_end - record.start], without those whose rebased
    duration is not positive or whose trimmed text is empty. *)
Theorem caption_set_rebased_overlap transcript r :
  adjusted_transcription_segments transcript r = caption_set_spec transcript r
  /\ (forall c,
        In c (adjusted_transcription_segments transcript r) <->
        exists ws,
          In ws transcript
          /\ (start ws < end_ (clip_segment r)
              /\ start (clip_segment r) < end_ ws)%Q
          /\ truthy (strip (text ws)) = true
          /\ (max0 (start ws - start (clip_segment r))
              < end_ ws - start (clip_segment r))%Q
          /\ c = mkSegment (strip (text ws))
                  (max0 (start ws - start (clip_segment r)))
                  (end_ ws - start (clip_segment r)) None).
Proof.
  assert (adjusted_transcription_segments transcript r
          = caption_set_spec transcript r) as E.
  { unfold adjusted_transcription_segments, caption_set_spec.
    now rewrite adjust_loop_spec. }
  split; [exact E|]. intros c. rewrite E. unfold caption_set_spec.
  rewrite filter_In, in_map_iff. split.
  - intros [(ws & <- & Hin) Hc]. apply filter_In in Hin.
    destruct Hin as [Hin Ho]. unfold overlaps in Ho.
    apply andb_true_iff in Ho. destruct Ho as [Ho1 Ho2].
    apply andb_true_iff in Hc. destruct Hc as [Hc1 Hc2].
    exists ws. repeat split; try assumption;
      now apply QFacts.Qltb_true.
  - intros (ws & Hin & [Ho1 Ho2] & Ht & Hd & ->). split.
    + exists ws. split; [reflexivity|]. apply filter_In. split; [exact Hin|].
      unfold overlaps. apply andb_true_iff.
      split; now apply QFacts.Qltb_true.
    + simpl. rewrite Ht. now apply QFacts.Qltb_true.
Qed.

End MainFacts.

(** ** More on the segment selector *)

Module SelectionFacts.

Import PyStr PyList ContentAnalysis Policy Selection.
Import PyStrFacts PyListFacts QFacts SelectorFacts.
Open Scope list_scope.

Section AnyMode.
Variable A : Type.
Variable M : Mode A.

Lemma ranked_perm d segs : Permutation (ranked M d segs) (candidates M d segs).
Proof. apply sort_perm. Qed.

Lemma chronological_perm n d segs :
  Permutation (chronological M n d segs) (top M n d segs).
Proof. apply sort_perm. Qed.

(** The ranking splits into the selection and a remainder that nothing of
    the selection ranks below. *)
Lemma selection_split n d segs :
  exists rest,
    Permutation (candidates M d segs) (chronological M n d segs ++ rest)
    /\ forall x y, In x (chronological M n d segs) -> In y rest ->
                   (m_score M y <= m_score M x)%nat.
Proof.
  destruct (slice_to_prefix n (ranked M d segs)) as [rest E].
  exists rest. split.
  - rewrite <- ranked_perm, E at 1.
    apply Permutation_app_tail. symmetry. apply chronological_perm.
  - intros x y Hx Hy.
    apply (Permutation_in _ (chronological_perm n d segs)) in Hx.
    unfold top in Hx.
    pose proof (ranked_sorted A M d segs) as HS. rewrite E in HS.
    revert Hx HS. generalize (slice_to n (ranked M d segs)) as l.
    induction l as [|a l IH]; intros Hx HS; [contradiction|].
    simpl in HS. inversion HS as [|? ? HS' Ha]; subst.
    destruct Hx as [->|Hx]; [|now apply IH].
    rewrite Forall_forall in Ha.
    specialize (Ha y (in_or_app _ _ _ (or_intror Hy))).
    unfold le, score_desc, by_score in Ha. now apply Nat.ltb_ge in Ha.
Qed.

Lemma run_exact_length segs n d :
  Z.of_nat (List.length (run M segs n d))
  = (if (0 <=? n)%Z
     then Z.min n (Z.of_nat (List.length (filter (m_keep M d) segs)))
     else Z.max 0 (Z.of_nat (List.length (filter (m_keep M d) segs)) + n))%Z.
Proof.
  unfold run, chronological, top, ranked, candidates. rewrite length_map. simpl.
  rewrite sort_length. unfold slice_to.
  destruct (Z.leb_spec 0 n); rewrite length_firstn, sort_length, length_map; lia.
Qed.

End AnyMode.

Lemma basic_keep_eligible d seg : m_keep basic_mode d seg = eligible d seg.
Proof. apply andb_comm. Qed.

Lemma spacy_keep_eligible nlp d seg :
  m_keep (spacy_mode nlp) d seg = eligible d seg.
Proof. reflexivity. Qed.

Lemma candidates_out {A : Type} (M : Mode A) d segs :
  (forall seg, m_keep M d seg = eligible d seg) ->
  (forall seg, m_out M (m_make M seg) = trimmed seg) ->
  map (m_out M) (candidates M d segs) = map trimmed (filter (eligible d) segs).
Proof.
  intros Hk Ho. unfold candidates. rewrite map_map.
  rewrite (filter_ext _ _ Hk). now apply map_ext.
Qed.

(** In either mode the selector is [run] of a mode whose filter is
    [eligible], whose output is [trimmed], and whose score can be read off
    the output. *)
Lemma find_as_run load segs n d :
  exists (A : Type) (M : Mode A),
    find_important_segments load segs n d = run M segs n d
    /\ (forall seg, m_keep M d seg = eligible d seg)
    /\ (forall seg, m_out M (m_make M seg) = trimmed seg)
    /\ (forall seg, m_score M (m_make M seg)
                    = score_in load (m_out M (m_make M seg))).
Proof.
  destruct load as [nlp| |].
  - exists ScoredSegment, (spacy_mode nlp).
    split; [apply spacy_is_run|]. repeat split.
  - exists ValidSegment, basic_mode.
    split; [apply basic_is_run|]. split; [apply basic_keep_eligible|].
    repeat split.
  - exists ValidSegment, basic_mode.
    split; [apply basic_is_run|]. split; [apply basic_keep_eligible|].
    repeat split.
Qed.

(** X1. What is returned and what is left out: in either mode and for
    every [num_segments], the eligible segments (trimmed) are, up to order,
    the returned list plus a remainder, and no segment of the remainder
    scores higher than a returned one. Nothing is returned twice and
    nothing is returned that was not an eligible input segment. *)
Theorem selection_takes_the_best load segs n d :
  exists rest,
    Permutation (map trimmed (filter (eligible d) segs))
      (find_important_segments load segs n d ++ rest)
    /\ forall x y,
         In x (find_important_segments load segs n d) -> In y rest ->
         (score_in load y <= score_in load x)%nat.
Proof.
  destruct (find_as_run load segs n d) as (A & M & -> & Hk & Ho & Hs).
  destruct (selection_split A M n d segs) as (rest & HP & Hbest).
  exists (map (m_out M) rest). split.
  - rewrite <- (candidates_out M d segs Hk Ho). unfold run.
    rewrite <- map_app. now apply Permutation_map.
  - assert (forall c, In c (candidates M d segs) ->
                      m_score M c = score_in load (m_out M c)) as Hc.
    { intros c Hin. unfold candidates in Hin. apply in_map_iff in Hin.
      destruct Hin as (seg & <- & _). apply Hs. }
    intros x y Hx Hy. unfold run in Hx.
    apply in_map_iff in Hx. destruct Hx as (cx & <- & Hcx).
    apply in_map_iff in Hy. destruct Hy as (cy & <- & Hcy).
    rewrite <- !Hc.
    + now apply Hbest.
    + apply (Permutation_in _ (Permutation_sym HP)), in_or_app. now left.
    + apply (Permutation_in _ (Permutation_sym HP)), in_or_app. now right.
Qed.

(** X2. The exact size of the result, in either mode: with
    [num_segments >= 0] it is the smaller of [num_segments] and the number
    of eligible segments; with a negative [num_segments] it is the number of
    eligible segments less [|num_segments|], and never below zero. *)
Theorem selection_exact_length load segs n d :
  Z.of_nat (List.length (find_important_segments load segs n d))
  = (if (0 <=? n)%Z
     then Z.min n (Z.of_nat (List.length (filter (eligible d) segs)))
     else Z.max 0 (Z.of_nat (List.length (filter (eligible d) segs)) + n))%Z.
Proof.
  destruct (find_as_run load segs n d) as (A & M & -> & Hk & _).
  rewrite run_exact_length. now rewrite (filter_ext _ _ Hk).
Qed.

(** X3. Asking for at least as many segments as are eligible returns every
    eligible segment: the result is, up to order, the trimmed eligible
    segments, so that the spaCy path and the fallback return the same
    segments. *)
Theorem selection_returns_all_eligible load load' segs n d :
  (Z.of_nat (List.length (filter (eligible d) segs)) <= n)%Z ->
  Permutation (find_important_segments load segs n d)
    (map trimmed (filter (eligible d) segs))
  /\ Permutation (find_important_segments load segs n d)
       (find_important_segments load' segs n d).
Proof.
  intros Hn.
  assert (forall l, Permutation (find_important_segments l segs n d)
                      (map trimmed (filter (eligible d) segs))) as H.
  { intros l.
    destruct (find_as_run l segs n d) as (A & M & -> & Hk & Ho & _).
    rewrite <- (candidates_out M d segs Hk Ho). unfold run.
    apply Permutation_map. unfold chronological, top. simpl.
    rewrite slice_to_all.
    - rewrite sort_perm. apply sort_perm.
    - unfold ranked. simpl. rewrite sort_length. unfold candidates.
      rewrite length_map, (filter_ext _ _ Hk). exact Hn. }
  split; [apply H|]. rewrite (H load). symmetry. apply H.
Qed.

Lemma selection_returns_all_eligible_witness :
  Permutation
    (find_important_segments (Loaded Samples.mock_nlp) Samples.five_segments 4 4)
    (find_important_segments LoadOSError Samples.five_segments 4 4).
Proof.
  apply (selection_returns_all_eligible (Loaded Samples.mock_nlp) LoadOSError
           Samples.five_segments 4 4).
  vm_compute. discriminate.
Defined.

End SelectionFacts.

(** ** More on the clock strings of utils.py *)

Module TimeFacts.

Import PyStr PyStrFacts Float64 Float64Facts Utils UtilsFacts.
Open Scope string_scope.

Lemma convert_mm_ss m sec :
  (0 <= m)%Z -> (0 <= sec)%Z ->
  convert_time_to_seconds (str_of_int m ++ ":" ++ format_02d sec)
  = Ok (m * 60 + sec)%Z.
Proof.
  intros Hm Hs. rewrite !colon_app, str_of_int_nonneg by lia.
  unfold convert_time_to_seconds.
  rewrite (split_digits_then ":" _ _ colon_not_digit)
    by (apply all_digit_digits; lia).
  rewrite (split_no_sep ":" _ colon_not_digit)
    by (apply all_digit_format_02d; lia).
  cbn [List.length Nat.eqb].
  rewrite py_int_digits by lia. cbn [bind].
  rewrite py_int_format_02d by lia. reflexivity.
Qed.

Lemma convert_h_mm_ss h m sec :
  (0 <= h)%Z -> (0 <= m)%Z -> (0 <= sec)%Z ->
  convert_time_to_seconds
    (str_of_int h ++ ":" ++ format_02d m ++ ":" ++ format_02d sec)
  = Ok (h * 3600 + m * 60 + sec)%Z.
Proof.
  intros Hh Hm Hs. rewrite !colon_app, str_of_int_nonneg by lia.
  unfold convert_time_to_seconds.
  rewrite (split_digits_then ":" _ _ colon_not_digit)
    by (apply all_digit_digits; lia).
  rewrite (split_digits_then ":" _ _ colon_not_digit)
    by (apply all_digit_format_02d; lia).
  rewrite (split_no_sep ":" _ colon_not_digit)
    by (apply all_digit_format_02d; lia).
  cbn [List.length Nat.eqb].
  rewrite py_int_digits by lia. cbn [bind].
  rewrite !py_int_format_02d by lia. reflexivity.
Qed.

Lemma format_02d_two_chars n :
  (0 <= n < 100)%Z -> String.length (format_02d n) = 2%nat.
Proof.
  intros [H0 H1]. destruct n as [|p|p]; [reflexivity| |lia].
  repeat (destruct p as [p|p|]; try lia; try reflexivity).
Qed.

Lemma div60 (x : Q) : (x == 60 * (x / 60))%Q.
Proof. field. Qed.

Lemma Qfloor_sub_Z (x : Q) (k : Z) :
  Qfloor (x - inject_Z k) = (Qfloor x - k)%Z.
Proof.
  apply Z.le_antisymm.
  - assert (Qfloor (x - inject_Z k) < Qfloor x - k + 1)%Z; [|lia].
    rewrite Zlt_Qlt. eapply Qle_lt_trans; [apply Qfloor_le|].
    pose proof (Qlt_floor x) as H. unfold Z.sub.
    rewrite !inject_Z_plus, inject_Z_opp.
    rewrite inject_Z_plus in H. simpl in *. lra.
  - rewrite <- (Qfloor_Z (Qfloor x - k)). apply Qfloor_resp_le.
    unfold Z.sub. rewrite inject_Z_plus, inject_Z_opp.
    pose proof (Qfloor_le x). lra.
Qed.

(** Whole minutes and the seconds left, in exact arithmetic: bounds and
    how they add up. *)
Lemma floor_minutes_seconds (x : Q) :
  (0 <= x - 60 * inject_Z (Qfloor (x / 60)))%Q
  /\ (x - 60 * inject_Z (Qfloor (x / 60)) < 60)%Q
  /\ (0 <= Qfloor (x - 60 * inject_Z (Qfloor (x / 60))) < 60)%Z
  /\ (60 * Qfloor (x / 60) + Qfloor (x - 60 * inject_Z (Qfloor (x / 60)))
      = Qfloor x)%Z
  /\ ((0 <= x)%Q -> (0 <= Qfloor (x / 60))%Z)
  /\ ((x < 3600)%Q -> (Qfloor (x / 60) < 60)%Z)
  /\ ((3600 <= x)%Q -> (60 <= Qfloor (x / 60))%Z).
Proof.
  pose proof (Qfloor_le (x / 60)) as Hlo.
  pose proof (Qlt_floor (x / 60)) as Hhi.
  rewrite inject_Z_plus in Hhi. change (inject_Z 1) with 1%Q in Hhi.
  pose proof (div60 x) as Hx.
  set (M := Qfloor (x / 60)) in *.
  assert ((x - 60 * inject_Z M == x - inject_Z (60 * M))%Q) as E
    by (rewrite inject_Z_mult; reflexivity).
  assert (inject_Z (60 * M) <= x)%Q as H1.
  { rewrite inject_Z_mult. change (inject_Z 60) with 60%Q.
    generalize dependent (x / 60)%Q. intros. lra. }
  assert (x < inject_Z (60 * M + 60))%Q as H2.
  { rewrite inject_Z_plus, inject_Z_mult. change (inject_Z 60) with 60%Q.
    generalize dependent (x / 60)%Q. intros. lra. }
  assert (60 * M <= Qfloor x)%Z as H3.
  { rewrite <- (Qfloor_Z (60 * M)). now apply Qfloor_resp_le. }
  assert (Qfloor x < 60 * M + 60)%Z as H4.
  { rewrite Zlt_Qlt. eapply Qle_lt_trans; [apply Qfloor_le | exact H2]. }
  split; [rewrite E; lra|].
  split; [rewrite E; rewrite inject_Z_plus in H2;
          change (inject_Z 60) with 60%Q in H2; lra|].
  rewrite (Qfloor_comp _ _ E), Qfloor_sub_Z.
  split; [lia|]. split; [lia|]. split; [|split]; intros Hb.
  - assert (0 <= Qfloor x)%Z
      by (rewrite <- (Qfloor_Z 0); now apply Qfloor_resp_le).
    lia.
  - assert (Qfloor x < 3600)%Z; [|lia].
    rewrite Zlt_Qlt. eapply Qle_lt_trans; [apply Qfloor_le | exact Hb].
  - assert (3600 <= Qfloor x)%Z; [|lia].
    rewrite <- (Qfloor_Z 3600). now apply Qfloor_resp_le.
Qed.

(** [seconds // 60] and [seconds % 60] on a float that is not negative:
    the remainder is exact; the quotient is exact below [2^53] and never
    falls under 60 from 3600 seconds on. *)
Lemma float_divmod_60 (x : Q) :
  (0 <= x)%Q ->
  (snd (float_divmod x 60) == x - 60 * inject_Z (Qfloor (x / 60)))%Q
  /\ (0 <= fst (float_divmod x 60))%Q
  /\ ((x < inject_Z (2 ^ 53))%Q ->
      (fst (float_divmod x 60) == inject_Z (Qfloor (x / 60)))%Q)
  /\ ((3600 <= x)%Q -> (60 <= fst (float_divmod x 60))%Q).
Proof.
  intros Hx.
  destruct (floor_minutes_seconds x) as (R0 & R1 & _ & _ & K0 & _ & K60).
  specialize (K0 Hx).
  assert (0 <= x / 60)%Q as Hq by (apply Qle_shift_div_l; lra).
  unfold float_divmod.
  assert (fmod x 60 == x - 60 * inject_Z (Qfloor (x / 60)))%Q as Em.
  { unfold fmod. now rewrite (int_of_float_nonneg _ Hq). }
  set (k := Qfloor (x / 60)) in *.
  set (m0 := fmod x 60) in *.
  set (d0 := round64 (round64 (x - m0) / 60)).
  assert (x - m0 == inject_Z (60 * k))%Q as Ek.
  { rewrite Em, inject_Z_mult. change (inject_Z 60) with 60%Q. ring. }
  assert (0 <= inject_Z k)%Q as Kq by (now rewrite <- (Zle_Qle 0)).
  assert (0 <= d0)%Q as D0.
  { unfold d0. apply round64_nonneg. apply Qle_shift_div_l; [lra|].
    rewrite Qmult_0_l. apply round64_nonneg. rewrite Ek, inject_Z_mult.
    change (inject_Z 60) with 60%Q. lra. }
  assert ((x < inject_Z (2 ^ 53))%Q -> (d0 == inject_Z k)%Q) as Dk.
  { intros Hb. unfold d0.
    assert (60 * k < 2 ^ 53)%Z as B.
    { rewrite Zlt_Qlt. rewrite <- Ek. lra. }
    assert (round64 (x - m0) == inject_Z (60 * k))%Q as ->.
    { rewrite Ek. apply round64_int. lia. }
    assert (inject_Z (60 * k) / 60 == inject_Z k)%Q as ->.
    { rewrite inject_Z_mult. change (inject_Z 60) with 60%Q. field. }
    apply round64_int. lia. }
  assert ((3600 <= x)%Q -> (60 <= d0)%Q) as D60.
  { intros Hb. specialize (K60 Hb). unfold d0.
    apply round64_ge_float; [apply (representable_int 60); vm_compute; discriminate|].
    apply Qle_shift_div_l; [lra|].
    apply round64_ge_float;
      [apply (representable_int 3600); vm_compute; discriminate|].
    rewrite Ek, <- (Zle_Qle 3600). lia. }
  assert (ltb 60 0 = false) as L60 by reflexivity.
  assert (ltb m0 0 = false) as Lm by (apply ltb_false; lra).
  assert ((if negb (Qeq_bool m0 0)
           then if xorb (ltb 60 0) (ltb m0 0)
                then (round64 (m0 + 60), round64 (d0 - 1))
                else (m0, d0)
           else (0%Q, d0))
          = ((if negb (Qeq_bool m0 0) then m0 else 0%Q), d0)) as ->.
  { rewrite L60, Lm. simpl. now destruct (Qeq_bool m0 0). }
  clear L60 Lm. cbn [fst snd]. split; [|split; [|split]].
  - destruct (Qeq_bool m0 0) eqn:C; simpl; [|exact Em].
    apply Qeq_bool_iff in C. rewrite <- Em, C. reflexivity.
  - destruct (Qeq_bool d0 0); simpl; [lra|].
    destruct (ltb _ _).
    + apply round64_nonneg.
      assert (0 <= Qfloor d0)%Z as F
        by (rewrite <- (Qfloor_Z 0); now apply Qfloor_resp_le).
      rewrite Zle_Qle in F. change (inject_Z 0) with 0%Q in F. lra.
    + rewrite <- (Zle_Qle 0). rewrite <- (Qfloor_Z 0).
      now apply Qfloor_resp_le.
  - intros Hb. specialize (Dk Hb).
    destruct (Qeq_bool d0 0) eqn:C; simpl.
    + apply Qeq_bool_iff in C. rewrite <- Dk, C. reflexivity.
    + assert (Qfloor d0 = k) as Fk by (rewrite (Qfloor_comp _ _ Dk); apply Qfloor_Z).
      rewrite Fk.
      assert (round64 (d0 - inject_Z k) == 0)%Q as E0.
      { assert (d0 - inject_Z k == 0)%Q as -> by lra. reflexivity. }
      assert (ltb (1 # 2) (round64 (d0 - inject_Z k)) = false) as ->
        by (apply ltb_false; rewrite E0; lra).
      reflexivity.
  - intros Hb. specialize (D60 Hb).
    assert (60 <= Qfloor d0)%Z as F
      by (rewrite <- (Qfloor_Z 60); now apply Qfloor_resp_le).
    rewrite Zle_Qle in F. change (inject_Z 60) with 60%Q in F.
    destruct (Qeq_bool d0 0) eqn:C; simpl.
    + apply Qeq_bool_iff in C. lra.
    + destruct (ltb _ _); [|exact F].
      apply round64_ge_float;
        [apply (representable_int 60); vm_compute; discriminate | lra].
Qed.

(** The two numbers [format_time] starts from, for a float that is not
    negative. *)
Lemma minutes_seconds (x : Q) :
  (0 <= x)%Q ->
  (0 <= to_int (pymod (PyFloat x) 60) < 60)%Z
  /\ (0 <= to_int (floordiv (PyFloat x) 60))%Z
  /\ ((x < inject_Z (2 ^ 53))%Q ->
      (60 * to_int (floordiv (PyFloat x) 60) + to_int (pymod (PyFloat x) 60)
       = Qfloor x)%Z)
  /\ ((x < 3600)%Q -> (to_int (floordiv (PyFloat x) 60) < 60)%Z)
  /\ ((3600 <= x)%Q -> (60 <= to_int (floordiv (PyFloat x) 60))%Z).
Proof.
  intros Hx. cbn [to_int floordiv pymod].
  destruct (float_divmod_60 x Hx) as (EM & F0 & Fk & F60).
  destruct (floor_minutes_seconds x) as (R0 & R1 & S & Sum & _ & Klt & _).
  change (inject_Z 60) with 60%Q.
  rewrite (int_of_float_comp _ _ EM), (int_of_float_nonneg _ R0).
  rewrite (int_of_float_nonneg _ F0).
  split; [exact S|]. split; [now apply Qfloor_nonneg|].
  split; [|split]; intros Hb.
  - rewrite (Qfloor_comp _ _ (Fk Hb)), Qfloor_Z. exact Sum.
  - assert (x < inject_Z (2 ^ 53))%Q as Hb'.
    { eapply Qlt_trans; [exact Hb|]. reflexivity. }
    rewrite (Qfloor_comp _ _ (Fk Hb')), Qfloor_Z. now apply Klt.
  - rewrite <- (Qfloor_Z 60). apply Qfloor_resp_le. now apply F60.
Qed.

(** X4. For every number of seconds [t] from 0 up to [2^53], an [int] or a
    float, whole or not, [convert_time_to_seconds(format_time(t))] returns
    [t] rounded down: the clock string drops the fraction and nothing
    else. (From [2^53] on the floor division of a float is rounded, and
    the round trip of a float is lost.) *)
Theorem convert_format_floor (t : number) :
  (0 <= value t)%Q -> (value t < inject_Z (2 ^ 53))%Q ->
  convert_time_to_seconds (format_time t) = Ok (Qfloor (value t)).
Proof.
  destruct t as [s|x]; cbn [value]; intros Hx Hb.
  - rewrite Qfloor_Z. apply convert_format_nonneg.
    change 0%Q with (inject_Z 0) in Hx. now rewrite <- Zle_Qle in Hx.
  - destruct (minutes_seconds x Hx) as (Hs & Hm & Hsum & _).
    specialize (Hsum Hb). unfold format_time.
    set (M := to_int (floordiv (PyFloat x) 60)) in *.
    set (S := to_int (pymod (PyFloat x) 60)) in *.
    pose proof (Z.mod_pos_bound M 60 ltac:(lia)).
    pose proof (Z.div_mod M 60 ltac:(lia)).
    destruct (Z.ltb_spec 0 (M / 60)).
    + rewrite convert_h_mm_ss by lia. f_equal. lia.
    + rewrite convert_mm_ss by lia. f_equal.
      assert (0 <= M / 60)%Z by (apply Z.div_pos; lia). lia.
Qed.

Lemma convert_format_floor_witness :
  format_time (PyFloat (131 # 2)) = "1:05"
  /\ convert_time_to_seconds (format_time (PyFloat (131 # 2))) = Ok 65%Z.
Proof.
  split; [vm_compute; reflexivity|].
  apply (convert_format_floor (PyFloat (131 # 2))); vm_compute;
    [discriminate | reflexivity].
Defined.

(** The round trip of a float is lost beyond [2^53]: [1e22] comes back as
    another number. *)
Example convert_format_large_float :
  convert_time_to_seconds (format_time (PyFloat (inject_Z (10 ^ 22))))
  = Ok 9999999999999999344680%Z.
Proof. vm_compute. reflexivity. Qed.

(** X5. For a negative whole number of seconds [s], [format_time] writes
    no sign: it yields the MM:SS string of [s mod 3600], which
    [convert_time_to_seconds] reads back as [s mod 3600], a number between
    0 and 3599. *)
Theorem convert_format_negative (s : Z) :
  (s < 0)%Z ->
  convert_time_to_seconds (format_time (PyInt s)) = Ok (s mod 3600)%Z.
Proof.
  intros Hs. rewrite format_time_int.
  assert (s / 60 < 0)%Z as Hm by (apply Z.div_lt_upper_bound; lia).
  assert (s / 60 / 60 < 0)%Z as Hh by (apply Z.div_lt_upper_bound; lia).
  destruct (Z.ltb_spec 0 (s / 60 / 60)); [lia|].
  pose proof (Z.mod_pos_bound s 60 ltac:(lia)).
  pose proof (Z.mod_pos_bound (s / 60) 60 ltac:(lia)).
  rewrite convert_mm_ss by lia. f_equal.
  apply (Z.mod_unique s 3600 (s / 60 / 60)); [lia|].
  pose proof (Z.div_mod s 60 ltac:(lia)).
  pose proof (Z.div_mod (s / 60) 60 ltac:(lia)). lia.
Qed.

Lemma convert_format_negative_witness :
  format_time (PyInt (-5)) = "59:55"
  /\ convert_time_to_seconds (format_time (PyInt (-5))) = Ok 3595%Z.
Proof.
  split; [reflexivity|]. apply (convert_format_negative (-5)). lia.
Defined.

(** The shape of the string, from the whole minutes and the seconds. *)
Lemma shape_of_fields (t : number) :
  (0 <= to_int (pymod t 60) < 60)%Z ->
  (0 <= to_int (floordiv t 60))%Z ->
  ((to_int (floordiv t 60) < 60)%Z ->
   exists m ss, split ":" (format_time t) = [m; ss]
                /\ String.length ss = 2%nat)
  /\ ((60 <= to_int (floordiv t 60))%Z ->
      exists h mm ss, split ":" (format_time t) = [h; mm; ss]
                      /\ String.length mm = 2%nat
                      /\ String.length ss = 2%nat).
Proof.
  intros Hs Hm. unfold format_time.
  set (M := to_int (floordiv t 60)) in *.
  set (S := to_int (pymod t 60)) in *.
  pose proof (Z.mod_pos_bound M 60 ltac:(lia)) as Hmm.
  assert (0 <= M / 60)%Z as Hh by (apply Z.div_pos; lia).
  split; intros Hb.
  - rewrite (Z.div_small M 60) by lia. cbn [Z.ltb Z.compare].
    rewrite !colon_app, str_of_int_nonneg by lia.
    rewrite (split_digits_then ":" _ _ colon_not_digit)
      by (apply all_digit_digits; lia).
    rewrite (split_no_sep ":" _ colon_not_digit)
      by (apply all_digit_format_02d; lia).
    eexists _, _. split; [reflexivity|]. apply format_02d_two_chars. lia.
  - assert (1 <= M / 60)%Z as H1 by (apply Z.div_le_lower_bound; lia).
    destruct (Z.ltb_spec 0 (M / 60)); [|lia].
    rewrite !colon_app, str_of_int_nonneg by lia.
    rewrite (split_digits_then ":" _ _ colon_not_digit)
      by (apply all_digit_digits; lia).
    rewrite (split_digits_then ":" _ _ colon_not_digit)
      by (apply all_digit_format_02d; lia).
    rewrite (split_no_sep ":" _ colon_not_digit)
      by (apply all_digit_format_02d; lia).
    eexists _, _, _. split; [reflexivity|].
    split; apply format_02d_two_chars; lia.
Qed.

(** X6. The shape of [format_time(x)] for [x >= 0], an [int] or a float:
    below one hour it is [M:SS], two fields; from 3600 seconds on it is
    [H:MM:SS], three fields; every field after the first has exactly two
    characters. *)
Theorem format_time_shape (t : number) :
  (0 <= value t)%Q ->
  ((value t < 3600)%Q ->
   exists m ss, split ":" (format_time t) = [m; ss]
                /\ String.length ss = 2%nat)
  /\ ((3600 <= value t)%Q ->
      exists h mm ss, split ":" (format_time t) = [h; mm; ss]
                      /\ String.length mm = 2%nat
                      /\ String.length ss = 2%nat).
Proof.
  intros Hx.
  assert ((0 <= to_int (pymod t 60) < 60)%Z
          /\ (0 <= to_int (floordiv t 60))%Z
          /\ ((value t < 3600)%Q -> (to_int (floordiv t 60) < 60)%Z)
          /\ ((3600 <= value t)%Q -> (60 <= to_int (floordiv t 60))%Z))
    as (Hs & Hm & Hlt & Hge).
  { destruct t as [n|x]; simpl in Hx |- *.
    - change 0%Q with (inject_Z 0) in Hx. rewrite <- Zle_Qle in Hx.
      split; [apply Z.mod_pos_bound; lia|].
      split; [apply Z.div_pos; lia|].
      split; intros Hb.
      + change 3600%Q with (inject_Z 3600) in Hb. rewrite <- Zlt_Qlt in Hb.
        apply Z.div_lt_upper_bound; lia.
      + change 3600%Q with (inject_Z 3600) in Hb. rewrite <- Zle_Qle in Hb.
        apply Z.div_le_lower_bound; lia.
    - destruct (minutes_seconds x Hx) as (Hs & Hm & _ & Hlt & Hge).
      now repeat split. }
  destruct (shape_of_fields t Hs Hm) as [S2 S3].
  split; intros Hb; [apply S2 | apply S3]; auto.
Qed.

Lemma format_time_shape_witness :
  exists h mm ss, split ":" (format_time (PyFloat 3665)) = [h; mm; ss]
                  /\ String.length mm = 2%nat /\ String.length ss = 2%nat.
Proof.
  apply (format_time_shape (PyFloat 3665)); vm_compute; discriminate.
Defined.

End TimeFacts.

(** ** More on the transcript windower *)

Module WindowerMoreFacts.

Import PyStr PyList ContentAnalysis PyStrFacts WindowerFacts.
Open Scope string_scope.

Lemma no_fragments_words seg :
  fragments seg = [] -> words seg = Some [].
Proof.
  unfold fragments. destruct (words seg) as [[|w ws]|]; simpl;
    intros H; try discriminate; reflexivity.
Qed.

(** Segments without text fragments leave the output and the buffer as
    they are, and call nothing. *)
Lemma segments_no_fragments names interval segs : forall st,
  flat_map fragments segs = [] ->
  exists st',
    for_each (segment_step names interval) segs st = Ok st'
    /\ segments_text_time st' = segments_text_time st
    /\ current_segment_texts st' = current_segment_texts st.
Proof.
  induction segs as [|seg segs IH]; intros st H; simpl in *.
  - now exists st.
  - apply app_eq_nil in H. destruct H as [Hseg Hrest].
    unfold segment_step at 1. rewrite (no_fragments_words seg Hseg).
    cbn [for_each bind].
    destruct (IH (mkState (segments_text_time st) (current_segment_texts st)
                    (Some (start_or st (start seg))) (last_word_end_time st))
                Hrest) as (st' & E & H1 & H2).
    exists st'. split; [exact E|]. now split.
Qed.

(** X7. As content_analysis.py stands, [split_transcript_by_timestamps]
    never returns a window: it returns the empty list when the result is
    missing, has no ['segments'], or its segments carry no text fragment,
    and raises [NameError] in every other case. *)
Theorem split_returns_no_window tr interval :
  split_transcript_by_timestamps tr interval
  = match tr with
    | None => Ok []
    | Some t =>
        match tr_segments t with
        | None => Ok []
        | Some segs =>
            match flat_map fragments segs with
            | [] => Ok []
            | _ => Raise (NameError "format_time")
            end
        end
    end
  /\ forall ws, split_transcript_by_timestamps tr interval = Ok ws -> ws = [].
Proof.
  assert (split_transcript_by_timestamps tr interval
          = match tr with
            | None => Ok []
            | Some t =>
                match tr_segments t with
                | None => Ok []
                | Some segs =>
                    match flat_map fragments segs with
                    | [] => Ok []
                    | _ => Raise (NameError "format_time")
                    end
                end
            end) as E.
  { unfold split_transcript_by_timestamps.
    destruct tr as [t|]; [|reflexivity].
    destruct (tr_segments t) as [segs|] eqn:Es;
      [|unfold split_transcript_by_timestamps_in; now rewrite Es].
    destruct (flat_map fragments segs) as [|f fs] eqn:Ef.
    - unfold split_transcript_by_timestamps_in. rewrite Es.
      destruct (segments_no_fragments module_names interval segs
                  (mkState [] [] None 0) Ef) as (st & -> & H1 & H2).
      cbn [bind]. simpl in H1, H2. now rewrite H2, H1.
    - apply (split_unbound module_names eq_refl interval t segs Es).
      rewrite Ef. discriminate. }
  split; [exact E|]. intros ws H. rewrite E in H.
  destruct tr as [t|]; [|now inversion H].
  destruct (tr_segments t); [|now inversion H].
  destruct (flat_map fragments l); [now inversion H | discriminate].
Qed.

End WindowerMoreFacts.

(** ** video_processing.py *)

Module VideoFacts.

Import PyStr PyList Float64 ContentAnalysis Policy Main VideoProcessing.
Import PyStrFacts PyListFacts Float64Facts QFacts SelectorFacts MainFacts.
Open Scope list_scope.

Lemma parse_aspect_ratio_ok t w h :
  parse_aspect_ratio t = Ok (w, h) ->
  exists ws hs,
    split ":" t = [ws; hs] /\ py_int ws = Ok w /\ py_int hs = Ok h
    /\ (0 < w)%Z /\ (0 < h)%Z.
Proof.
  unfold parse_aspect_ratio.
  destruct (split ":" t) as [|ws [|hs [|x l]]]; try discriminate.
  destruct (py_int ws) as [w'|] eqn:Ew; [|discriminate]. cbn [bind].
  destruct (py_int hs) as [h'|] eqn:Eh; [|discriminate]. cbn [bind].
  destruct (Z.leb_spec w' 0); [discriminate|].
  destruct (Z.leb_spec h' 0); [discriminate|].
  simpl. intros E. inversion E; subst. exists ws, hs. repeat split; assumption.
Qed.

(** X8. [convert_video_aspect_ratio] returns a path only when the ratio
    string has exactly two parts, both integers above zero, and the input
    file exists; the path it returns is always [output_file_path]. *)
Theorem convert_returns_output_for_valid_ratio E input output ratio p :
  convert_video_aspect_ratio E input output ratio = Ok (Some p) ->
  p = output
  /\ input_exists E input = true
  /\ exists ws hs w h,
       split ":" ratio = [ws; hs] /\ py_int ws = Ok w /\ py_int hs = Ok h
       /\ (0 < w)%Z /\ (0 < h)%Z.
Proof.
  unfold convert_video_aspect_ratio.
  destruct (parse_aspect_ratio ratio) as [[w h]|] eqn:P; [|discriminate].
  destruct (fl _); [|discriminate].
  destruct (input_exists E input); [|discriminate]. simpl.
  destruct (clip_size E input) as [[ow oh]|]; [|discriminate].
  destruct (crop_size ow oh _) as [[nw nh]|]; [|discriminate].
  destruct (_ || _); [discriminate|].
  destruct (write_cropped E input nw nh output); [|discriminate].
  intros H. inversion H; subst. split; [reflexivity|]. split; [reflexivity|].
  destruct (parse_aspect_ratio_ok _ _ _ P) as (ws & hs & H1).
  now exists ws, hs, w, h.
Qed.

Lemma convert_returns_output_for_valid_ratio_witness :
  convert_video_aspect_ratio MoreSamples.moviepy_works "in.mp4" "out.mp4" "9:16"
  = Ok (Some "out.mp4"%string)
  /\ exists ws hs w h,
       split ":" "9:16" = [ws; hs] /\ py_int ws = Ok w /\ py_int hs = Ok h
       /\ (0 < w)%Z /\ (0 < h)%Z.
Proof.
  split; [vm_compute; reflexivity|].
  apply (convert_returns_output_for_valid_ratio MoreSamples.moviepy_works
           "in.mp4"%string "out.mp4"%string "9:16"%string "out.mp4"%string).
  vm_compute. reflexivity.
Defined.

Lemma inject_Z_pos (n : Z) : (0 < n)%Z -> (0 < inject_Z n)%Q.
Proof. intros H. change 0%Q with (inject_Z 0). now rewrite <- Zlt_Qlt. Qed.

Lemma half_representable (n : Z) :
  (0 <= n < 2 ^ 52)%Z -> representable (inject_Z n + (1 # 2)).
Proof.
  intros H. exists (2 * n + 1)%Z, (-1)%Z. split; [lia|]. split; [lia|].
  rewrite inject_Z_plus, inject_Z_mult.
  change (pow2 (-1)) with (1 # 2)%Q. change (inject_Z 2) with 2%Q.
  change (inject_Z 1) with 1%Q. ring.
Qed.

(** X9. The crop never leaves the frame, in float arithmetic. For a frame
    whose sides are positive and below [2^52] and the float [target_ar] of
    a ratio of two positive ints, the crop size is always computed (no step
    raises), [new_width] and [new_height] lie between 0 and the original
    width and height, and one of the two is the original one. *)
Theorem crop_within_frame (orig_w orig_h ar_w ar_h : Z) (target_ar : Q) :
  (0 < orig_w < 2 ^ 52)%Z -> (0 < orig_h < 2 ^ 52)%Z ->
  (0 < ar_w)%Z -> (0 < ar_h)%Z ->
  fl (inject_Z ar_w / inject_Z ar_h) = Some target_ar ->
  exists new_width new_height,
    crop_size orig_w orig_h target_ar = Some (new_width, new_height)
    /\ (0 <= new_width <= orig_w)%Z /\ (0 <= new_height <= orig_h)%Z
    /\ (new_height = orig_h \/ new_width = orig_w).
Proof.
  intros [Hw0 Hw1] [Hh0 Hh1] Haw Hah Har.
  apply fl_inv in Har. destruct Har as [-> _].
  set (ar := round64 (inject_Z ar_w / inject_Z ar_h)).
  assert (representable ar) as Rar by apply representable_round64.
  assert (0 <= ar)%Q as Nar.
  { apply round64_nonneg. apply Qle_shift_div_l; [now apply inject_Z_pos|].
    rewrite Qmult_0_l. apply Qlt_le_weak. now apply inject_Z_pos. }
  pose proof (inject_Z_pos _ Hw0) as W0. pose proof (inject_Z_pos _ Hh0) as H0.
  assert (inject_Z orig_w <= inject_Z (2 ^ 52 - 1))%Q as W1
    by (rewrite <- Zle_Qle; lia).
  assert (inject_Z orig_h <= inject_Z (2 ^ 52 - 1))%Q as H1
    by (rewrite <- Zle_Qle; lia).
  assert (1 <= inject_Z orig_w)%Q as W2
    by (change 1%Q with (inject_Z 1); rewrite <- Zle_Qle; lia).
  assert (1 <= inject_Z orig_h)%Q as H2
    by (change 1%Q with (inject_Z 1); rewrite <- Zle_Qle; lia).
  set (W := inject_Z orig_w) in *. set (H := inject_Z orig_h) in *.
  assert (representable W) as RW by (apply representable_int; lia).
  assert (representable H) as RH by (apply representable_int; lia).
  assert (round64 W == W)%Q as EW by now apply round64_exact.
  assert (round64 H == H)%Q as EH by now apply round64_exact.
  change (inject_Z (2 ^ 52 - 1)) with 4503599627370495%Q in W1, H1.
  (* the ratio of the frame *)
  set (q := (W / H)%Q).
  assert (q * H == W)%Q as Eq by (unfold q; field; lra).
  assert (pow2 (-52) <= q)%Q as Q0.
  { unfold q. apply Qle_shift_div_l; [exact H0|].
    change (pow2 (-52)) with (1 # 4503599627370496)%Q. lra. }
  assert (q <= inject_Z (2 ^ 52))%Q as Q1.
  { unfold q. apply Qle_shift_div_r; [exact H0|].
    change (inject_Z (2 ^ 52)) with 4503599627370496%Q. nra. }
  destruct (fl_between q (pow2 (-52)) (inject_Z (2 ^ 52))) as (Fq & C0 & C1);
    try assumption.
  { exists 1%Z, (-52)%Z. split; [reflexivity|]. split; [lia|]. ring. }
  { apply representable_int. vm_compute. discriminate. }
  { reflexivity. }
  { reflexivity. }
  set (cur := round64 q) in *.
  unfold crop_size.
  assert ((orig_h =? 0)%Z = false) as -> by (apply Z.eqb_neq; lia).
  fold W H q. rewrite Fq.
  destruct (ltb ar cur) eqn:Cmp.
  - (* wider than the target: the height stays *)
    apply ltb_true in Cmp.
    assert (ar <= q)%Q as Aq by now apply (round64_nearest_below ar q).
    destruct (fl_between H 0 (inject_Z (2 ^ 52))) as (FH & _ & _).
    { exists 0%Z, 0%Z. split; [reflexivity|]. split; [lia|]. ring. }
    { apply representable_int. vm_compute. discriminate. }
    { reflexivity. } { reflexivity. } { lra. }
    { change (inject_Z (2 ^ 52)) with 4503599627370496%Q. lra. }
    rewrite FH.
    assert (round64 H * ar <= W)%Q as P1 by (rewrite EH; nra).
    assert (0 <= round64 H * ar)%Q as P0 by (rewrite EH; nra).
    destruct (fl_between (round64 H * ar) 0 W) as (FP & X0 & X1);
      try assumption.
    { exists 0%Z, 0%Z. split; [reflexivity|]. split; [lia|]. ring. }
    { reflexivity. }
    { eapply Qle_lt_trans; [exact W1|]. reflexivity. }
    rewrite FP. eexists _, _. split; [reflexivity|].
    rewrite (int_of_float_nonneg _ X0).
    split; [split; [now apply Qfloor_nonneg | now apply Qfloor_le_Z]|].
    split; [lia | now left].
  - (* not wider than the target: the width stays *)
    apply ltb_false in Cmp.
    pose proof (pow2_pos (-52)) as P52.
    assert (0 < ar)%Q as Apos by lra.
    destruct (fl_between W 0 (inject_Z (2 ^ 52))) as (FW & _ & _).
    { exists 0%Z, 0%Z. split; [reflexivity|]. split; [lia|]. ring. }
    { apply representable_int. vm_compute. discriminate. }
    { reflexivity. } { reflexivity. } { lra. }
    { change (inject_Z (2 ^ 52)) with 4503599627370496%Q. lra. }
    rewrite FW.
    assert (Qeq_bool ar 0 = false) as ->.
    { destruct (Qeq_bool ar 0) eqn:Z; [|reflexivity].
      apply Qeq_bool_iff in Z. lra. }
    (* the rounded ratio is within 2^-53 of the exact one *)
    assert (Qabs (cur - q) <= q * pow2 (-53))%Q as Rel.
    { apply round64_relative. eapply Qle_trans; [|exact Q0].
      apply pow2_le. lia. }
    apply Qabs_Qle_condition in Rel. destruct Rel as [Rel _].
    change (pow2 (-53)) with (1 # 9007199254740992)%Q in Rel.
    set (t := (round64 W / ar)%Q).
    assert (t * ar == W)%Q as Et by (unfold t; rewrite EW; field; lra).
    assert (0 <= t)%Q as T0 by nra.
    assert (t <= H + (1 # 2))%Q as T1.
    { assert (W <= (H + (1 # 2)) * ar)%Q; [|nra].
      assert (q * (1 - (1 # 9007199254740992)) <= ar)%Q as A1 by lra.
      assert (W <= (H + (1 # 2)) * (q * (1 - (1 # 9007199254740992))))%Q
        as A2.
      { rewrite <- Eq. nra. }
      nra. }
    destruct (fl_between t 0 (H + (1 # 2))) as (FT & X0 & X1);
      try assumption;
      try solve [ apply half_representable; lia
                | reflexivity
                | exists 0%Z, 0%Z; split; [reflexivity|]; split; [lia|]; ring
                | eapply Qle_lt_trans; [apply Qplus_le_l; exact H1|];
                  reflexivity ].
    fold t. rewrite FT. eexists _, _. split; [reflexivity|].
    rewrite (int_of_float_nonneg _ X0).
    split; [lia|]. split; [|now right].
    split; [now apply Qfloor_nonneg|].
    assert (Qfloor (round64 t) < orig_h + 1)%Z; [|lia].
    rewrite Zlt_Qlt. eapply Qle_lt_trans; [apply Qfloor_le|].
    rewrite inject_Z_plus. fold H. change (inject_Z 1) with 1%Q. lra.
Qed.

Lemma crop_within_frame_witness :
  crop_size 1280 720 (round64 (7 # 5)) = Some (1007, 720)%Z
  /\ exists new_width new_height,
       crop_size 1280 720 (round64 (7 # 5)) = Some (new_width, new_height)
       /\ (0 <= new_width <= 1280)%Z /\ (0 <= new_height <= 720)%Z
       /\ (new_height = 720%Z \/ new_width = 1280%Z).
Proof.
  split; [vm_compute; reflexivity|].
  apply (crop_within_frame 1280 720 7 5 (round64 (7 # 5))); try lia.
  vm_compute. reflexivity.
Defined.

Lemma extract_true E video s e out :
  video_exists E video = true ->
  (forall dir, out_dir_exists E dir = true \/ make_dirs E dir = true) ->
  (s < e)%Q ->
  run_cut E video s e out = RunOk ->
  VideoProcessing.extract_video_segments E video s e out = CutReturned true.
Proof.
  intros Hv Hdir Hd Hr. unfold VideoProcessing.extract_video_segments.
  rewrite Hv, Hr. simpl.
  assert (truthy (PyPath.dirname out)
          && negb (out_dir_exists E (PyPath.dirname out))
          && negb (make_dirs E (PyPath.dirname out)) = false) as ->.
  { destruct (Hdir (PyPath.dirname out)) as [-> | ->]; simpl;
      now rewrite ?andb_false_r. }
  destruct (Qle_bool (e - s) 0) eqn:C; [|reflexivity].
  apply Qle_bool_iff in C. lra.
Qed.

Lemma stage5_all_cut W sel : forall i,
  (forall j seg, cut_ok W j seg) ->
  map clip_segment (stage5_loop W i sel []) = sel.
Proof.
  induction sel as [|seg sel IH]; intros i H; [reflexivity|].
  rewrite stage5_loop_cons, map_app, IH by exact H.
  unfold cut_record. specialize (H i seg). unfold cut_ok in H.
  now rewrite H.
Qed.

(** X10. With a positive minimum duration every selected segment passes
    the duration guard of [extract_video_segments]: when the source video
    exists, the output directory is there or can be made, and ffmpeg
    succeeds, stage 5 extracts a raw clip for every segment the selector
    returned, in the same order. *)
Theorem selected_segments_are_all_cut W E video load segs n d :
  (forall s e out,
      Main.extract_video_segments W s e out
      = VideoProcessing.extract_video_segments E video s e out) ->
  video_exists E video = true ->
  (forall dir, out_dir_exists E dir = true \/ make_dirs E dir = true) ->
  (forall s e out, run_cut E video s e out = RunOk) ->
  (0 < d)%Q ->
  map clip_segment (stage5 W (find_important_segments load segs n d))
  = find_important_segments load segs n d.
Proof.
  intros HW Hv Hdir Hr Hd.
  assert (Forall (fun s => d <= end_ s - start s)%Q
            (find_important_segments load segs n d)) as HF.
  { destruct load as [nlp| |]; rewrite ?spacy_is_run, ?basic_is_run;
      apply run_durations; auto using spacy_lawful, basic_lawful. }
  rewrite stage5_unfold.
  revert HF. generalize (find_important_segments load segs n d) as sel.
  intros sel. generalize 0%nat.
  induction sel as [|seg sel IH]; intros i HF; [reflexivity|].
  inversion HF as [|? ? Hseg HF']; subst.
  rewrite stage5_loop_cons, map_app, IH by exact HF'.
  unfold cut_record, raw_of. rewrite HW, extract_true; auto. lra.
Qed.

Lemma selected_segments_are_all_cut_witness :
  map clip_segment
    (stage5 MoreSamples.world_with_ffmpeg
       (find_important_segments LoadOSError Samples.three_segments 2 3))
  = find_important_segments LoadOSError Samples.three_segments 2 3.
Proof.
  apply (selected_segments_are_all_cut MoreSamples.world_with_ffmpeg
           MoreSamples.ffmpeg_works "video.mp4"%string LoadOSError
           Samples.three_segments 2 3); try reflexivity.
  intros dir. now left.
Defined.

Lemma max0_nonneg x : (0 <= max0 x)%Q.
Proof.
  unfold max0. destruct (Qltb 0 x) eqn:C; [|lra].
  apply Qltb_true in C. lra.
Qed.

(** What every entry of the caption set satisfies. *)
Lemma adjusted_entries transcript r c :
  In c (adjusted_transcription_segments transcript r) ->
  exists ws,
    In ws transcript /\ c = rebase r ws /\ overlaps r ws = true
    /\ truthy (text c) = true /\ (start c < end_ c)%Q.
Proof.
  unfold adjusted_transcription_segments. rewrite adjust_loop_spec. simpl.
  rewrite filter_In, in_map_iff.
  intros [(ws & <- & Hin) Hc]. apply filter_In in Hin.
  destruct Hin as [Hin Ho]. apply andb_true_iff in Hc. destruct Hc as [Ht Hd].
  exists ws. repeat split; try assumption. now apply Qltb_true.
Qed.

Lemma caption_clips_keep_all l :
  Forall (fun c => truthy (text c) = true /\ strip (text c) = text c
                   /\ (start c < end_ c)%Q) l ->
  caption_clips l
  = map (fun c => mkCaption (text c) (start c) (end_ c - start c)) l.
Proof.
  induction 1 as [|c l (Ht & Hs & Hd) _ IH]; [reflexivity|].
  cbn [caption_clips map]. rewrite Hs, Ht. simpl.
  destruct (Qle_bool (end_ c - start c) 0) eqn:C.
  - apply Qle_bool_iff in C. lra.
  - now rewrite IH.
Qed.

(** X11. [add_captions_to_video] skips none of the captions that
    [main_workflow] prepares: for every record and transcript, each entry of
    the caption set becomes one caption clip with the same text, the same
    start and the positive duration [end - start]; so the 'no valid caption
    segments' return is never taken for a caption set that is not empty. *)
Theorem prepared_captions_all_shown transcript r :
  caption_clips (adjusted_transcription_segments transcript r)
  = map (fun c => mkCaption (text c) (start c) (end_ c - start c))
      (adjusted_transcription_segments transcript r)
  /\ Forall (fun k => (0 < caption_duration k)%Q)
       (caption_clips (adjusted_transcription_segments transcript r))
  /\ (adjusted_transcription_segments transcript r <> [] ->
      caption_clips (adjusted_transcription_segments transcript r) <> []).
Proof.
  assert (caption_clips (adjusted_transcription_segments transcript r)
          = map (fun c => mkCaption (text c) (start c) (end_ c - start c))
              (adjusted_transcription_segments transcript r)) as E.
  { apply caption_clips_keep_all, Forall_forall. intros c Hc.
    destruct (adjusted_entries _ _ _ Hc) as (ws & _ & -> & _ & Ht & Hd).
    repeat split; try assumption. simpl. apply strip_idem. }
  split; [exact E|]. split.
  - rewrite E. apply Forall_map, Forall_forall. intros c Hc. simpl.
    destruct (adjusted_entries _ _ _ Hc) as (ws & _ & _ & _ & _ & Hd). lra.
  - rewrite E. destruct (adjusted_transcription_segments transcript r);
      [congruence | discriminate].
Qed.

(** X12. Where captions sit in the clip: every caption starts at or after
    0 and ends after it starts; and when the record has positive duration,
    no caption starts after the end of the clip, [end - start] seconds
    into it. (In exact arithmetic it starts before that end; a rounded
    subtraction can make the two equal.) *)
Theorem captions_start_inside_clip transcript r :
  Forall (fun c => (0 <= start c)%Q /\ (start c < end_ c)%Q)
    (adjusted_transcription_segments transcript r)
  /\ ((start (clip_segment r) < end_ (clip_segment r))%Q ->
      Forall (fun c =>
                (start c <= end_ (clip_segment r) - start (clip_segment r))%Q)
        (adjusted_transcription_segments transcript r)).
Proof.
  split; [|intros Hr]; apply Forall_forall; intros c Hc;
    destruct (adjusted_entries _ _ _ Hc) as (ws & _ & E & Ho & _ & Hd).
  - split; [|exact Hd]. rewrite E. apply max0_nonneg.
  - rewrite E. simpl. unfold overlaps in Ho.
    apply andb_true_iff in Ho. destruct Ho as [Ho _].
    apply Qltb_true in Ho. unfold max0.
    destruct (Qltb 0 _); lra.
Qed.

Lemma captions_start_inside_clip_witness :
  adjusted_transcription_segments MoreSamples.transcript_around
    MoreSamples.clip_10_20
  = [ mkSegment "into the clip" 0 (12 - 10) None;
      mkSegment "out of the clip" (18 - 10) (25 - 10) None ]
  /\ Forall (fun c => (start c <= 20 - 10)%Q)
       (adjusted_transcription_segments MoreSamples.transcript_around
          MoreSamples.clip_10_20).
Proof.
  split; [reflexivity|].
  apply (proj2 (captions_start_inside_clip MoreSamples.transcript_around
                  MoreSamples.clip_10_20)).
  reflexivity.
Defined.

End VideoFacts.

(** ** main.py: file names, and selection through to the final clips *)

Module WorkflowFacts.

Import PyStr PyList ContentAnalysis Policy Main Workflow.
Import PyStrFacts PyListFacts QFacts SelectorFacts MainFacts.
Open Scope list_scope.

Lemma all_chars_app p a b : all_chars p (a ++ b)%string = all_chars p a && all_chars p b.
Proof.
  induction a as [|c a IH]; simpl; [reflexivity|].
  now rewrite IH, andb_assoc.
Qed.

Lemma all_chars_srev p s : all_chars p (srev s) = all_chars p s.
Proof.
  induction s as [|c s IH]; [reflexivity|].
  rewrite srev_cons, all_chars_app, IH. simpl.
  rewrite andb_true_r. apply andb_comm.
Qed.

Lemma all_chars_lstrip_char p ch s :
  all_chars p s = true -> all_chars p (lstrip_char ch s) = true.
Proof.
  induction s as [|c s IH]; simpl; [trivial|].
  intros H. apply andb_true_iff in H. destruct H as [Hc Hs].
  destruct (Ascii.eqb c ch); [now apply IH|]. simpl. now rewrite Hc, Hs.
Qed.

Lemma all_chars_strip_char p ch s :
  all_chars p s = true -> all_chars p (strip_char ch s) = true.
Proof.
  intros H. unfold strip_char, rstrip_char.
  apply all_chars_lstrip_char. rewrite all_chars_srev.
  apply all_chars_lstrip_char. now rewrite all_chars_srev.
Qed.

Lemma length_srev s : String.length (srev s) = String.length s.
Proof.
  induction s as [|c s IH]; [reflexivity|].
  rewrite srev_cons. simpl. rewrite <- IH.
  generalize (srev s) as r. induction r as [|x r IHr]; simpl; congruence.
Qed.

Lemma length_lstrip_char ch s :
  (String.length (lstrip_char ch s) <= String.length s)%nat.
Proof.
  induction s as [|c s IH]; simpl; [lia|].
  destruct (Ascii.eqb c ch); simpl; lia.
Qed.

Lemma length_strip_char ch s :
  (String.length (strip_char ch s) <= String.length s)%nat.
Proof.
  unfold strip_char, rstrip_char.
  eapply Nat.le_trans; [apply length_lstrip_char|].
  rewrite length_srev.
  eapply Nat.le_trans; [apply length_lstrip_char|]. now rewrite length_srev.
Qed.

Lemma length_take_chars k s : (String.length (take_chars k s) <= k)%nat.
Proof.
  revert s. induction k as [|k IH]; intros [|c s]; simpl; try lia.
  specialize (IH s). lia.
Qed.

Lemma length_map_chars f s : String.length (map_chars f s) = String.length s.
Proof. induction s; simpl; congruence. Qed.

Lemma first_lstrip_char ch s : first_char (lstrip_char ch s) <> Some ch.
Proof.
  induction s as [|c s IH]; simpl; [discriminate|].
  destruct (Ascii.eqb_spec c ch); [exact IH|]. simpl. congruence.
Qed.

Lemma first_char_app x y :
  x <> EmptyString -> first_char (x ++ y)%string = first_char x.
Proof. destruct x; [congruence | reflexivity]. Qed.

(** Dropping leading characters does not change the last one. *)
Lemma last_lstrip_char ch s :
  last_char s <> Some ch -> last_char (lstrip_char ch s) <> Some ch.
Proof.
  induction s as [|c s IH]; simpl; [trivial|].
  destruct (Ascii.eqb c ch); [|trivial].
  intros H. destruct s as [|d t]; [discriminate|].
  apply IH. unfold last_char in *.
  rewrite (srev_cons c) in H.
  now rewrite first_char_app in H by apply srev_nonempty.
Qed.

Lemma last_rstrip_char ch s : last_char (rstrip_char ch s) <> Some ch.
Proof.
  unfold last_char, rstrip_char. rewrite srev_involutive.
  apply first_lstrip_char.
Qed.

Lemma sanitized_chars s :
  all_chars (fun c => is_alnum c || Ascii.eqb c "_")
    (map_chars (fun c => if is_alnum c then c else "_"%char) s) = true.
Proof.
  induction s as [|c s IH]; [reflexivity|].
  cbn [all_chars map_chars]. rewrite IH, andb_true_r.
  destruct (is_alnum c) eqn:E; [now rewrite E | reflexivity].
Qed.

(** X13. The text put into a raw clip's file name is safe in a path: for
    every segment text, [text_preview_for_filename] has at most 20
    characters, each of them alphanumeric or an underscore (so no slash,
    dot, space or backslash), and it neither begins nor ends with an
    underscore. *)
Theorem text_preview_is_path_safe txt :
  all_chars (fun c => is_alnum c || Ascii.eqb c "_")
    (text_preview_for_filename txt) = true
  /\ all_chars (fun c => negb (Ascii.eqb c "/") && negb (Ascii.eqb c ".")
                         && negb (Ascii.eqb c " ") && negb (Ascii.eqb c "\"))
       (text_preview_for_filename txt) = true
  /\ (String.length (text_preview_for_filename txt) <= 20)%nat
  /\ first_char (text_preview_for_filename txt) <> Some "_"%char
  /\ last_char (text_preview_for_filename txt) <> Some "_"%char.
Proof.
  assert (all_chars (fun c => is_alnum c || Ascii.eqb c "_")
            (text_preview_for_filename txt) = true) as H.
  { apply all_chars_strip_char, sanitized_chars. }
  split; [exact H|]. split; [|split; [|split]].
  - revert H. generalize (text_preview_for_filename txt) as s.
    induction s as [|c s IH]; [reflexivity|].
    cbn [all_chars]. intros H. apply andb_true_iff in H. destruct H as [Hc Hs].
    rewrite (IH Hs), andb_true_r.
    destruct (Ascii.eqb_spec c "/") as [->|]; [vm_compute in Hc; discriminate|].
    destruct (Ascii.eqb_spec c ".") as [->|]; [vm_compute in Hc; discriminate|].
    destruct (Ascii.eqb_spec c " ") as [->|]; [vm_compute in Hc; discriminate|].
    destruct (Ascii.eqb_spec c "\") as [->|]; [vm_compute in Hc; discriminate|].
    reflexivity.
  - unfold text_preview_for_filename.
    eapply Nat.le_trans; [apply length_strip_char|].
    rewrite length_map_chars. apply length_take_chars.
  - apply first_lstrip_char.
  - apply last_lstrip_char, last_rstrip_char.
Qed.

Lemma subseq_length {X : Type} (l1 l2 : list X) :
  subseq l1 l2 -> (List.length l1 <= List.length l2)%nat.
Proof. induction 1; simpl; lia. Qed.

Lemma subseq_Forall {X : Type} (P : X -> Prop) (l1 l2 : list X) :
  subseq l1 l2 -> Forall P l2 -> Forall P l1.
Proof.
  induction 1 as [|x l1 l2 _ IH|x l1 l2 _ IH]; intros H; [constructor| |];
    inversion H; subst; [now apply IH | constructor; auto].
Qed.

Lemma subseq_sorted {X : Type} (R : X -> X -> Prop) (l1 l2 : list X) :
  subseq l1 l2 -> StronglySorted R l2 -> StronglySorted R l1.
Proof.
  induction 1 as [|x l1 l2 Hs IH|x l1 l2 Hs IH]; intros H; [constructor| |];
    inversion H as [|? ? H1 H2]; subst; [now apply IH|].
  constructor; [now apply IH|]. now apply (subseq_Forall _ _ _ Hs).
Qed.

Lemma stage4_cases load tr n len :
  stage4 load tr n len = []
  \/ exists segs,
       stage4 load tr n len
       = find_important_segments load segs n (inject_Z len).
Proof.
  unfold stage4. destruct (tr_segments tr) as [[|s l]|]; auto.
  right. now exists (s :: l).
Qed.

(** X14. From the transcript to the final clips: whatever the
    collaborators do, the clips that a run of stages 4 to 6 delivers come
    in chronological order and each lasts at least [min_segment_length];
    and with [num_segments >= 0] there are at most [num_segments] of
    them. *)
Theorem delivered_clips_bounded_and_ordered W load tr n len processed :
  stages_4_to_6 W load tr n len = Ok processed ->
  ((0 <= n)%Z ->
   (Z.of_nat (List.length (final_segment_paths processed)) <= n)%Z)
  /\ StronglySorted (fun a b => (start a <= start b)%Q)
       (map fst (final_clips processed))
  /\ Forall (fun s => (inject_Z len <= end_ s - start s)%Q)
       (map fst (final_clips processed)).
Proof.
  unfold stages_4_to_6, final_segment_paths.
  set (sel := stage4 load tr n len). intros Hrun.
  assert (subseq (map fst (final_clips processed)) sel)
    as HS by (rewrite (final_clips_fates _ _ _ _ Hrun); apply fates_subseq).
  assert (((0 <= n)%Z -> (Z.of_nat (List.length sel) <= n)%Z)
          /\ StronglySorted (fun a b => (start a <= start b)%Q) sel
          /\ Forall (fun s => (inject_Z len <= end_ s - start s)%Q) sel)
    as (HL & HO & HD).
  { unfold sel. destruct (stage4_cases load tr n len) as [-> | [segs ->]].
    - split; [simpl; lia|]. split; constructor.
    - destruct load as [nlp| |]; rewrite ?spacy_is_run, ?basic_is_run;
        (split; [apply run_length | split]);
        solve [ apply run_durations; auto using spacy_lawful, basic_lawful
              | apply run_sorted; auto using spacy_lawful, basic_lawful ]. }
  split; [|split].
  - intros Hn. specialize (HL Hn). rewrite length_map.
    rewrite <- (length_map fst). apply subseq_length in HS. lia.
  - now apply (subseq_sorted _ _ _ HS).
  - now apply (subseq_Forall _ _ _ HS).
Qed.

Lemma delivered_clips_bounded_and_ordered_witness :
  stages_4_to_6 Samples.middle_conversion_fails LoadOSError
    (mkTranscription None (Some Samples.three_segments)) 2 3
  = Ok (delivered
          (stages_4_to_6 Samples.middle_conversion_fails LoadOSError
             (mkTranscription None (Some Samples.three_segments)) 2 3))
  /\ (Z.of_nat
        (List.length
           (final_segment_paths
              (delivered
                 (stages_4_to_6 Samples.middle_conversion_fails LoadOSError
                    (mkTranscription None (Some Samples.three_segments))
                    2 3))))
      <= 2)%Z.
Proof.
  split; [reflexivity|].
  apply (proj1 (delivered_clips_bounded_and_ordered
                  Samples.middle_conversion_fails LoadOSError
                  (mkTranscription None (Some Samples.three_segments)) 2 3
                  _ eq_refl)).
  lia.
Defined.

Lemma fates_member W transcript sel : forall i seg p,
  In (seg, p) (fates W transcript i sel) ->
  exists j, nth_error sel j = Some seg
            /\ In (seg, p) (fate W transcript (i + j) seg).
Proof.
  induction sel as [|s0 sel IH]; intros i seg p H; simpl in H; [contradiction|].
  apply in_app_or in H. destruct H as [H|H].
  - destruct (fate_cases W transcript i s0) as [E | [q E]];
      rewrite E in H; [contradiction|].
    destruct H as [H|[]]. inversion H; subst.
    exists 0%nat. rewrite Nat.add_0_r, E. split; [reflexivity | now left].
  - destruct (IH _ _ _ H) as (j & Hj & Hin).
    exists (S j). rewrite Nat.add_succ_r. now split.
Qed.

(** X15. Where a final path comes from: every path in the final output
    of a run belongs to a selected segment whose cut succeeded and whose
    conversion returned a path [c]; it is [c] itself, or, only when
    captioning is not skipped, the caption set is not empty and the
    captioned file exists after the call has returned, the captioned file
    name of that raw clip. *)
Theorem final_path_provenance W transcript selected processed seg p :
  per_segment_loop W transcript selected = Ok processed ->
  In (seg, p) (final_clips processed) ->
  exists i c,
    nth_error selected i = Some seg
    /\ cut_ok W i seg
    /\ convert_gives W i seg (Ok (Some c))
    /\ (p = c
        \/ (skip_captioning W = false
            /\ p = captioned_name W (raw_of W i seg)
            /\ captions_of W transcript i seg <> []
            /\ add_captions_to_video W c (captions_of W transcript i seg) p
               = CaptionReturned true)).
Proof.
  intros Hrun. rewrite (final_clips_fates _ _ _ _ Hrun). intros H.
  destruct (fates_member _ _ _ _ _ _ H) as (i & Hi & Hin).
  exists i. simpl in Hin. clear H.
  unfold fate, cut_record in Hin. unfold cut_ok, convert_gives, captions_of.
  destruct (extract_video_segments W _ _ _) as [[|]|] eqn:Ecut;
    try contradiction.
  simpl in Hin. unfold kept, stage6_step in Hin. simpl in Hin.
  destruct (_ || _); [contradiction|].
  destruct (convert_video_aspect_ratio W _ _ _) as [[c|]|] eqn:Ec;
    try contradiction.
  cbn [bind] in Hin.
  destruct (truthy c) eqn:Tc; simpl in Hin; [|contradiction].
  exists c. split; [exact Hi|]. split; [reflexivity|]. split; [reflexivity|].
  unfold final_clips in Hin.
  destruct (skip_captioning W); simpl in Hin.
  - rewrite Tc in Hin. destruct Hin as [Hin|[]]. inversion Hin. now left.
  - destruct (adjusted_transcription_segments transcript _) as [|a l] eqn:Ea.
    + simpl in Hin. rewrite Tc in Hin. destruct Hin as [Hin|[]].
      inversion Hin. now left.
    + destruct (add_captions_to_video W c (a :: l) _) as [[|]|e] eqn:Ex;
        simpl in Hin; try contradiction.
      * destruct (truthy (captioned_name W _)); [|contradiction].
        destruct Hin as [Hin|[]].
        inversion Hin; subst. right. repeat split; try assumption.
        discriminate.
      * rewrite Tc in Hin. destruct Hin as [Hin|[]]. inversion Hin. now left.
Qed.

Lemma final_path_provenance_witness :
  exists i c,
    nth_error [Samples.clip_a] i = Some Samples.clip_a
    /\ cut_ok Samples.captioning_fails i Samples.clip_a
    /\ convert_gives Samples.captioning_fails i Samples.clip_a (Ok (Some c))
    /\ "final_clips/segment_1_formatted.mp4"%string = c.
Proof.
  destruct (final_path_provenance Samples.captioning_fails [Samples.clip_a]
              [Samples.clip_a] _ Samples.clip_a
              "final_clips/segment_1_formatted.mp4"%string eq_refl)
    as (i & c & H1 & H2 & H3 & [H4 | (_ & _ & _ & H4)]).
  - left. reflexivity.
  - now exists i, c.
  - destruct i as [|[|i]]; discriminate.
Defined.

End WorkflowFacts.

(** ** audio_processing.py *)

Module AudioFacts.

Import PyStr Workflow PyPath VideoProcessing AudioProcessing PyStrFacts.
Open Scope string_scope.

Lemma prefix_app x y : String.prefix x (x ++ y) = true.
Proof.
  induction x as [|c x IH]; simpl; [now destruct y|].
  destruct (ascii_dec c c); [exact IH | congruence].
Qed.

Lemma endswith_app a b : endswith (a ++ b) b = true.
Proof. unfold endswith. rewrite srev_app. apply prefix_app. Qed.

Lemma map_chars_app f a b :
  map_chars f (a ++ b) = map_chars f a ++ map_chars f b.
Proof. induction a as [|c a IH]; simpl; [reflexivity | now rewrite IH]. Qed.

Lemma lower_wav_suffix a : endswith (lower (a ++ ".wav")) ".wav" = true.
Proof.
  unfold lower. rewrite map_chars_app.
  change (map_chars lower_char ".wav") with ".wav". apply endswith_app.
Qed.

Lemma forced_wav_ends out : endswith (lower (forced_wav out)) ".wav" = true.
Proof.
  unfold forced_wav.
  destruct (endswith (lower out) ".wav") eqn:E; simpl;
    [exact E | apply lower_wav_suffix].
Qed.

(** X16. Whenever [extract_audio_from_video] returns a path, the path ends
    in [.wav] (in any letter case) and is the file ffmpeg was told to
    write; it is the requested path when that one already ends in [.wav],
    and the requested path with its extension replaced otherwise. *)
Theorem extracted_audio_is_wav E video out p :
  extract_audio_from_video E video out = Returns (Some p) ->
  endswith (lower p) ".wav" = true
  /\ run_shell E (audio_command (escape_quotes video) (escape_quotes p)) = RunOk
  /\ (endswith (lower out) ".wav" = true -> p = out)
  /\ (endswith (lower out) ".wav" = false ->
      p = fst (splitext out) ++ ".wav").
Proof.
  unfold extract_audio_from_video.
  destruct (_ && _); [discriminate|].
  destruct (run_shell E _) eqn:R; try discriminate.
  intros H. inversion H; subst. clear H.
  split; [apply forced_wav_ends|]. split; [exact R|].
  unfold forced_wav. split; intros ->; reflexivity.
Qed.

Lemma extracted_audio_is_wav_witness :
  extract_audio_from_video MoreSamples.audio_works "in.mp4" "tmp/talk.MP3"
  = Returns (Some "tmp/talk.wav")
  /\ endswith (lower "tmp/talk.wav") ".wav" = true.
Proof.
  split; [reflexivity|].
  apply (extracted_audio_is_wav MoreSamples.audio_works "in.mp4"
           "tmp/talk.MP3" "tmp/talk.wav").
  reflexivity.
Defined.

Lemma stage2_path_is_wav temp_dir name :
  endswith (lower (stage2_audio_path temp_dir name)) ".wav" = true.
Proof.
  unfold stage2_audio_path, path_join.
  destruct (String.prefix "/" _); [apply lower_wav_suffix|].
  destruct (_ || _).
  - rewrite <- append_assoc. apply lower_wav_suffix.
  - rewrite <- !append_assoc. apply lower_wav_suffix.
Qed.

(** X17. Stage 2 of [main_workflow] always asks for a [.wav] file: for
    every working directory and video file name, the path it builds ends
    in [.wav], so [extract_audio_from_video] never rewrites it and, when it
    returns a path, returns the path that was asked for. *)
Theorem stage2_audio_path_is_kept E video temp_dir name q :
  extract_audio_from_video E video (stage2_audio_path temp_dir name)
  = Returns (Some q) ->
  q = stage2_audio_path temp_dir name.
Proof.
  unfold extract_audio_from_video.
  destruct (_ && _); [discriminate|].
  destruct (run_shell E _); try discriminate.
  intros H. inversion H. unfold forced_wav.
  now rewrite stage2_path_is_wav.
Qed.

Lemma stage2_audio_path_is_kept_witness :
  extract_audio_from_video MoreSamples.audio_works "v.mp4"
    (stage2_audio_path "out/.clipify_temp" "my.talk.mp4")
  = Returns (Some "out/.clipify_temp/my.talk.wav")
  /\ "out/.clipify_temp/my.talk.wav"
     = stage2_audio_path "out/.clipify_temp" "my.talk.mp4".
Proof.
  split; [reflexivity|].
  apply (stage2_audio_path_is_kept MoreSamples.audio_works "v.mp4"
           "out/.clipify_temp" "my.talk.mp4" "out/.clipify_temp/my.talk.wav").
  reflexivity.
Defined.

End AudioFacts.

(** ** utils.py: download_youtube_video *)

Module DownloadFacts.

Import PyStr PyPath Download.
Open Scope string_scope.

(** X18. A path returned by [download_youtube_video] was seen to exist:
    whatever yt-dlp reports, the function returns [None] rather than a path
    for which [os.path.exists] is false, and it returns [None] whenever
    [extract_info] raises or reports nothing. *)
Theorem downloaded_path_exists E url output_path p :
  download_youtube_video E url output_path = Some p ->
  path_exists E p = true
  /\ exists info_dict, extract_info E url = ExtractReturns (Some info_dict).
Proof.
  unfold download_youtube_video.
  destruct (extract_info E url) as [[info|]| |]; try discriminate.
  destruct (pick_video_file E info output_path) as [v|]; [|discriminate].
  destruct (path_exists E v) eqn:Ev; simpl.
  - intros H. inversion H; subst. split; [exact Ev | now exists info].
  - destruct (prepare_filename E info) as [c|]; [|discriminate].
    destruct (path_exists E c) eqn:Ec; [|discriminate].
    intros H. inversion H; subst. split; [exact Ec | now exists info].
Qed.

Lemma downloaded_path_exists_witness :
  download_youtube_video MoreSamples.download_works "https://example.org/v" "tmp"
  = Some "tmp/talk.mp4"
  /\ path_exists MoreSamples.download_works "tmp/talk.mp4" = true.
Proof.
  split; [reflexivity|].
  apply (downloaded_path_exists MoreSamples.download_works
           "https://example.org/v" "tmp" "tmp/talk.mp4").
  reflexivity.
Defined.

End DownloadFacts.

(** ** More on stages 5 and 6 *)

Module PipelineFacts.

Import PyStr PyList ContentAnalysis Main.
Import PyStrFacts PyListFacts QFacts MainFacts VideoFacts.
Open Scope list_scope.

Lemma stage5_records W sel : forall i,
  Forall (fun r => exists j seg,
            r = mkClip seg (Some (raw_of W j seg)) None /\ cut_ok W j seg)
    (stage5_loop W i sel []).
Proof.
  induction sel as [|seg sel IH]; intros i; [constructor|].
  rewrite stage5_loop_cons. apply Forall_app. split; [|apply IH].
  unfold cut_record.
  destruct (extract_video_segments W _ _ _) as [[|]|] eqn:E; constructor;
    [|constructor].
  now exists i, seg.
Qed.

(** X19. The records that leave stage 6 are complete: in a run that
    comes to its end each one carries the raw clip path its cut produced, a
    path that is not empty and that existed when stage 6 looked, and a
    final clip path; no record without a raw clip or without a final path
    is ever passed on. *)
Theorem processed_records_are_complete W transcript selected processed :
  per_segment_loop W transcript selected = Ok processed ->
  Forall (fun r =>
            exists i raw final,
              raw = raw_of W i (clip_segment r)
              /\ cut_ok W i (clip_segment r)
              /\ raw_clip_path r = Some raw
              /\ truthy raw = true /\ raw_clip_exists W raw = true
              /\ final_clip_path r = Some final)
    processed.
Proof.
  unfold per_segment_loop. rewrite stage6_unfold, stage5_unfold. intros Hrun.
  apply stage6_loop_inv in Hrun. destruct Hrun as [_ ->]. simpl.
  apply Forall_forall. intros r Hr. apply in_flat_map in Hr.
  destruct Hr as (r0 & Hr0 & Hr).
  pose proof (stage5_records W selected 0%nat) as H5.
  rewrite Forall_forall in H5.
  destruct (H5 _ Hr0) as (i & seg & -> & Hcut).
  unfold kept, stage6_step in Hr. simpl in Hr.
  destruct (truthy (raw_of W i seg)) eqn:Ht; [|contradiction].
  destruct (raw_clip_exists W (raw_of W i seg)) eqn:He; [|contradiction].
  simpl in Hr.
  destruct (convert_video_aspect_ratio W _ _ _) as [[c|]|];
    try contradiction.
  cbn [bind] in Hr.
  destruct (negb (truthy c)); [contradiction|].
  match type of Hr with
  | In _ match (x <- ?m ;; _) with _ => _ end =>
      destruct m as [q|]; [|contradiction]
  end.
  destruct Hr as [<-|[]]. simpl.
  exists i, (raw_of W i seg). eexists. repeat split; try eassumption.
Qed.

Lemma processed_records_are_complete_witness :
  Forall (fun r =>
            exists i raw final,
              raw = raw_of Samples.middle_conversion_fails i (clip_segment r)
              /\ cut_ok Samples.middle_conversion_fails i (clip_segment r)
              /\ raw_clip_path r = Some raw
              /\ truthy raw = true
              /\ raw_clip_exists Samples.middle_conversion_fails raw = true
              /\ final_clip_path r = Some final)
    (delivered
       (per_segment_loop Samples.middle_conversion_fails
          [Samples.clip_a; Samples.clip_b; Samples.clip_c]
          [Samples.clip_a; Samples.clip_b; Samples.clip_c])).
Proof.
  apply (processed_records_are_complete Samples.middle_conversion_fails
           [Samples.clip_a; Samples.clip_b; Samples.clip_c]
           [Samples.clip_a; Samples.clip_b; Samples.clip_c] _ eq_refl).
Defined.

Lemma StronglySorted_filter {X : Type} (R : X -> X -> Prop) (p : X -> bool) l :
  StronglySorted R l -> StronglySorted R (filter p l).
Proof.
  induction 1 as [|x l Hs IH Hx]; simpl; [constructor|].
  destruct (p x); [|exact IH]. constructor; [exact IH|].
  rewrite Forall_forall in *. intros y Hy. apply filter_In in Hy.
  now apply Hx.
Qed.

Lemma max0_monotone x y : (x <= y)%Q -> (max0 x <= max0 y)%Q.
Proof.
  intros H. unfold max0.
  destruct (Qltb 0 x) eqn:Cx; destruct (Qltb 0 y) eqn:Cy;
    rewrite ?Qltb_true, ?Qltb_false in *; lra.
Qed.

(** X20. Captions keep the order of the transcript: when the original
    segments are sorted by start, so is the caption set of every record,
    after rebasing and clamping at 0. *)
Theorem captions_stay_sorted transcript r :
  StronglySorted (fun a b => (start a <= start b)%Q) transcript ->
  StronglySorted (fun a b => (start a <= start b)%Q)
    (adjusted_transcription_segments transcript r).
Proof.
  intros H. unfold adjusted_transcription_segments.
  rewrite adjust_loop_spec. simpl.
  apply StronglySorted_filter.
  apply (SelectorFacts.StronglySorted_map
           (fun a b => (start a <= start b)%Q)).
  - intros x y Hxy. simpl. apply max0_monotone. lra.
  - now apply StronglySorted_filter.
Qed.

Lemma captions_stay_sorted_witness :
  StronglySorted (fun a b => (start a <= start b)%Q)
    (adjusted_transcription_segments MoreSamples.transcript_around
       MoreSamples.clip_10_20).
Proof.
  apply (captions_stay_sorted MoreSamples.transcript_around
           MoreSamples.clip_10_20).
  repeat constructor; vm_compute; discriminate.
Defined.

End PipelineFacts.

(** ** The path functions and the file-name text on sample inputs *)

Module PathConformance.

Import PyStr Workflow PyPath AudioProcessing VideoProcessing.
Open Scope string_scope.

Example splitext_examples :
  splitext "a/b.c/d" = ("a/b.c/d", "")
  /\ splitext "a.b/.hidden" = ("a.b/.hidden", "")
  /\ splitext "..a.b" = ("..a", ".b")
  /\ splitext "x/..." = ("x/...", "")
  /\ splitext "my.talk.mp4" = ("my.talk", ".mp4").
Proof. repeat split; reflexivity. Qed.

Example dirname_examples :
  dirname "a/b.c/d" = "a/b.c"
  /\ dirname "/" = "/"
  /\ dirname "//a" = "//"
  /\ dirname "a//" = "a"
  /\ dirname "file" = "".
Proof. repeat split; reflexivity. Qed.

Example path_join_examples :
  path_join "a" "b" = "a/b"
  /\ path_join "a/" "b" = "a/b"
  /\ path_join "" "b" = "b"
  /\ path_join "a" "/b" = "/b".
Proof. repeat split; reflexivity. Qed.

Example text_preview_examples :
  text_preview_for_filename "  Hello, world! This is long text"
    = "Hello__world__This"
  /\ text_preview_for_filename "../../etc" = "etc"
  /\ text_preview_for_filename "???" = "".
Proof. repeat split; reflexivity. Qed.

(** [test_convert_video_aspect_ratio_landscape_to_portrait]: 1920 by 1080
    cropped for 9:16; and 1280 by 720 for 7:5, where the float product
    [720 * 1.4] falls just short of 1008. *)
Example crop_example :
  crop_size 1920 1080 (Float64.round64 (9 # 16)) = Some (607, 1080)%Z
  /\ crop_size 1280 720 (Float64.round64 (7 # 5)) = Some (1007, 720)%Z
  /\ crop_size 100 49 (Float64.round64 (1 # 49)) = Some (0, 49)%Z.
Proof. repeat split; vm_compute; reflexivity. Qed.

(** [test_extract_audio_from_video_forces_wav] *)
Example forced_wav_example : forced_wav "tmp/audio.mp3" = "tmp/audio.wav".
Proof. reflexivity. Qed.

End PathConformance.

